(** * tinyclaw: the memory retrieval and ranking engine (src/lib/memory.ts)

    A shallow embedding of [memory.ts] and the properties of its retrieval
    pipeline.  JavaScript strings are sequences of UTF-16 code units,
    numbers are IEEE-754 binary64 values (Rocq's primitive floats), the
    module-level caches are an explicit state record, and the outside world
    (spawned processes, the file system, the clock) is a record the
    functions thread through an exception-and-state monad. *)

From Stdlib Require Import ZArith NArith Lia List Bool Ascii String.
From Stdlib Require Import Floats.
From Stdlib Require Import Sorting.Permutation.
From stdpp Require Import base option list gmap.

Set Warnings "-inexact-float,-register-all".
Set Default Proof Using "Type".
Local Open Scope N_scope.

(* ===================================================================== *)
(** ** JavaScript strings *)
(* ===================================================================== *)

Module JsString.

(** A string is its sequence of UTF-16 code units. *)
Abbreviation jsstring := (list N).

(** ASCII literals. *)
Definition js (s : string) : jsstring :=
  map N_of_ascii (list_ascii_of_string s).
Arguments js : simpl never.

(** [s.length] *)
Definition slen (s : jsstring) : Z := Z.of_nat (length s).

(** [xs.length] of an array *)
Definition slen' {A} (xs : list A) : Z := Z.of_nat (length xs).

(** WhiteSpace and LineTerminator code units: what [String.prototype.trim]
    strips and what the regular-expression class [\s] matches. *)
Definition is_space (c : N) : bool :=
  ((9 <=? c) && (c <=? 13))
  || (c =? 32) || (c =? 0xA0) || (c =? 0x1680)
  || ((0x2000 <=? c) && (c <=? 0x200A))
  || (c =? 0x2028) || (c =? 0x2029) || (c =? 0x202F)
  || (c =? 0x205F) || (c =? 0x3000) || (c =? 0xFEFF).

(** Line terminators: what the regular-expression atom [.] refuses. *)
Definition is_line_terminator (c : N) : bool :=
  (c =? 10) || (c =? 13) || (c =? 0x2028) || (c =? 0x2029).

Fixpoint trim_start (s : jsstring) : jsstring :=
  match s with
  | c :: r => if is_space c then trim_start r else s
  | [] => []
  end.

Definition trim_end (s : jsstring) : jsstring :=
  rev (trim_start (rev s)).

(** [s.trim()] *)
Definition trim (s : jsstring) : jsstring := trim_end (trim_start s).

Fixpoint starts_with (p s : jsstring) : bool :=
  match p, s with
  | [], _ => true
  | a :: p', b :: s' => (a =? b) && starts_with p' s'
  | _ :: _, [] => false
  end.

(** [s.indexOf(p)] for a non-empty [p]: the first position where [p]
    occurs, or [-1]. *)
Fixpoint index_from (p s : jsstring) (i : Z) : Z :=
  if starts_with p s then i
  else match s with
       | [] => (-1)%Z
       | _ :: r => index_from p r (i + 1)%Z
       end.

Definition indexOf (s p : jsstring) : Z := index_from p s 0%Z.

(** [s.includes(p)] *)
Definition includes (s p : jsstring) : bool := (0 <=? indexOf s p)%Z.

(** [s.slice(a, b)] and [s.slice(a)] for indices within [0, s.length],
    which is how [memory.ts] calls them. *)
Definition slice (s : jsstring) (a b : Z) : jsstring :=
  take (Z.to_nat b - Z.to_nat a) (drop (Z.to_nat a) s).

Definition slice_from (s : jsstring) (a : Z) : jsstring :=
  drop (Z.to_nat a) s.

(** [parts.join(sep)] *)
Fixpoint join (sep : jsstring) (parts : list jsstring) : jsstring :=
  match parts with
  | [] => []
  | [p] => p
  | p :: rest => p ++ sep ++ join sep rest
  end.

(** [s.toLowerCase()].  The Unicode default case conversion maps a code
    point to ASCII only from [A-Z], from U+212A (Kelvin sign, to [k]) and
    from U+0130 (to [i] followed by U+0307); no code point maps into the
    CJK block and U+0130 is the only one whose mapping changes the number
    of code units.  Every other code point is left as it is here: each use
    of [toLowerCase] in [memory.ts] then only looks at ASCII and CJK code
    units ([sanitizeId] replaces the others by [-], the term pattern and
    the substring tests never match them), so nothing observable depends
    on their case mapping. *)
Definition lower_unit (c : N) : jsstring :=
  if (65 <=? c) && (c <=? 90) then [c + 32]
  else if c =? 0x212A then [107]
  else if c =? 0x0130 then [105; 0x0307]
  else [c].

Definition toLowerCase (s : jsstring) : jsstring := flat_map lower_unit s.

Definition is_digit (c : N) : bool := (48 <=? c) && (c <=? 57).
Definition is_upper (c : N) : bool := (65 <=? c) && (c <=? 90).
Definition is_lower (c : N) : bool := (97 <=? c) && (c <=? 122).

(** The regular-expression class [\w]. *)
Definition is_word (c : N) : bool :=
  is_digit c || is_upper c || is_lower c || (c =? 95).

Definition is_high_surrogate (c : N) : bool := (0xD800 <=? c) && (c <=? 0xDBFF).
Definition is_low_surrogate (c : N) : bool := (0xDC00 <=? c) && (c <=? 0xDFFF).

(** [s.toWellFormed()]: every surrogate that is not half of a pair becomes
    U+FFFD.  It is what a string turns into when it is encoded as UTF-8 and
    decoded again. *)
Fixpoint toWellFormed (s : jsstring) : jsstring :=
  match s with
  | [] => []
  | h :: tl =>
      if is_high_surrogate h then
        match tl with
        | l :: rest =>
            if is_low_surrogate l then h :: l :: toWellFormed rest
            else 0xFFFD :: toWellFormed tl
        | [] => [0xFFFD]
        end
      else if is_low_surrogate h then 0xFFFD :: toWellFormed tl
      else h :: toWellFormed tl
  end.

(** Decimal digits of a non-negative integer. *)
Fixpoint digits_fuel (fuel : nat) (n : Z) (acc : jsstring) : jsstring :=
  match fuel with
  | O => acc
  | S f =>
      let acc' := Z.to_N (48 + n mod 10) :: acc in
      if (n <? 10)%Z then acc' else digits_fuel f (n / 10)%Z acc'
  end.

Definition digits (n : Z) : jsstring :=
  digits_fuel (S (Z.to_nat (Z.log2 n))) n [].

(** [String(n).padStart(w, "0")] on the digits of [n]. *)
Definition pad_digits (w : nat) (n : Z) : jsstring :=
  let d := digits n in
  repeat 48 (w - length d) ++ d.

End JsString.
Import JsString.

(* ===================================================================== *)
(** ** JavaScript numbers *)
(* ===================================================================== *)

Module JsNumber.

(** A number is a binary64 value. *)
Abbreviation number := PrimFloat.float.

Definition is_nan (x : number) : bool := negb (PrimFloat.eqb x x).

(** [Number.isFinite] on a number. *)
Definition is_finite (x : number) : bool :=
  match Prim2SF x with
  | S754_zero _ | S754_finite _ _ _ => true
  | _ => false
  end.

(** [Math.max(a, b)] *)
Definition math_max (a b : number) : number :=
  if is_nan a || is_nan b then PrimFloat.nan
  else if PrimFloat.ltb a b then b
  else if PrimFloat.ltb b a then a
  else match Prim2SF a with
       | S754_zero true => b      (* max(-0, +0) is +0 *)
       | _ => a
       end.

(** The Number value of the exact decimal [d * 10^q] with [0 <= d]:
    round to nearest, ties to even.  A decimal of at least [10^401] is
    beyond the largest number and one below [10^-330] is under half the
    smallest, so these two are answered without building the power. *)
Definition of_decimal (neg : bool) (d : Z) (q : Z) : number :=
  match d with
  | Zpos p =>
      if (400 <? q)%Z then SF2Prim (S754_infinity neg)
      else if (q + Z.log2 d + 1 <? -330)%Z then SF2Prim (S754_zero neg)
      else if (0 <=? q)%Z
      then SF2Prim (binary_normalize prec emax
                      (if neg then - (d * 10 ^ q) else d * 10 ^ q)%Z 0%Z false)
      else SF2Prim (SFdiv prec emax (S754_finite neg p 0)
                      (S754_finite false (Z.to_pos (10 ^ (- q))) 0))
  | _ => SF2Prim (S754_zero neg)
  end.

(** An integer as a number. *)
Definition of_Z (n : Z) : number := of_decimal (n <? 0)%Z (Z.abs n) 0.

(** The exact value of a positive finite number as a fraction [p / q]. *)
Definition exact_fraction (m : positive) (e : Z) : Z * Z :=
  if (0 <=? e)%Z then (Zpos m * 2 ^ e, 1)%Z else (Zpos m, 2 ^ (- e))%Z.

(** [n] with [10^(n-1) <= p/q < 10^n], found from the binary estimate. *)
Fixpoint decimal_exponent_up (fuel : nat) (p q n : Z) : Z :=
  match fuel with
  | O => n
  | S f => if (p <? q * 10 ^ n)%Z && (0 <=? n)%Z
           || (p * 10 ^ (- n) <? q)%Z && (n <? 0)%Z
           then n else decimal_exponent_up f p q (n + 1)%Z
  end.

Definition decimal_exponent (m : positive) (e : Z) : Z :=
  let '(p, q) := exact_fraction m e in
  let est := ((Z.log2 (Zpos m) + e) * 30103 / 100000 - 1)%Z in
  decimal_exponent_up 6 p q est.

(** [floor (p/q / 10^j)] *)
Definition scaled_floor (p q j : Z) : Z :=
  if (0 <=? j)%Z then (p / (q * 10 ^ j))%Z else (p * 10 ^ (- j) / q)%Z.

(** Compare [|s*10^j - p/q|] for two candidates: is [s1] strictly closer
    than [s2]? *)
Definition dist_num (p q s j : Z) : Z :=
  if (0 <=? j)%Z then Z.abs (s * 10 ^ j * q - p)%Z
  else Z.abs (s * q - p * 10 ^ (- j))%Z.

(** The digit string of Number::toString: the least [k] and the integer [s]
    of [k] digits with [s * 10^(n-k)] reading back as [x]; of two such [s]
    the one closer to [x], the even one on a tie. *)
Fixpoint shortest_digits (fuel : nat) (x : number) (p q n k : Z)
  : Z * Z * Z :=
  match fuel with
  | O => (0, n, k)%Z
  | S f =>
      let j := (n - k)%Z in
      let lo := scaled_floor p q j in
      let hi := (lo + 1)%Z in
      let ok_lo := (10 ^ (k - 1) <=? lo)%Z
                   && PrimFloat.eqb (of_decimal false lo j) x in
      let ok_hi := PrimFloat.eqb (of_decimal false hi j) x in
      let pick_hi :=
        ok_hi && (negb ok_lo
                  || (dist_num p q hi j <? dist_num p q lo j)%Z
                  || ((dist_num p q hi j =? dist_num p q lo j)%Z
                      && Z.even hi)) in
      if pick_hi then
        if (hi =? 10 ^ k)%Z then (10 ^ (k - 1), n + 1, k)%Z else (hi, n, k)
      else if ok_lo then (lo, n, k)
      else shortest_digits f x p q n (k + 1)%Z
  end.

Definition zeros (n : Z) : jsstring := repeat 48 (Z.to_nat n).

(** Number::toString(x, 10). *)
Definition number_to_string (x : number) : jsstring :=
  match Prim2SF x with
  | S754_nan => js "NaN"
  | S754_zero _ => js "0"
  | S754_infinity s => (if s then js "-" else []) ++ js "Infinity"
  | S754_finite sg m e =>
      let '(p, q) := exact_fraction m e in
      let n0 := decimal_exponent m e in
      let '(s, n, k) := shortest_digits 18 (PrimFloat.abs x) p q n0 1 in
      let ds := digits s in
      let body :=
        if (k <=? n)%Z && (n <=? 21)%Z then ds ++ zeros (n - k)
        else if (0 <? n)%Z && (n <=? 21)%Z then
          take (Z.to_nat n) ds ++ js "." ++ drop (Z.to_nat n) ds
        else if (-6 <? n)%Z && (n <=? 0)%Z then
          js "0." ++ zeros (- n) ++ ds
        else
          let ex := (n - 1)%Z in
          let es := (if (ex <? 0)%Z then js "-" else js "+")
                      ++ digits (Z.abs ex) in
          match ds with
          | [d] => [d] ++ js "e" ++ es
          | d :: rest => [d] ++ js "." ++ rest ++ js "e" ++ es
          | [] => []
          end in
      (if sg then js "-" else []) ++ body
  end.

(** [x.toFixed(3)] *)
Definition toFixed3 (x : number) : jsstring :=
  match Prim2SF x with
  | S754_nan => js "NaN"
  | S754_infinity s => (if s then js "-" else []) ++ js "Infinity"
  | S754_zero _ => js "0.000"
  | S754_finite sg m e =>
      if PrimFloat.leb 1e21 (PrimFloat.abs x) then number_to_string x
      else
        let '(p, q) := exact_fraction m e in
        (* the integer n with n/1000 closest to |x|, the larger on a tie *)
        let n := ((2000 * p + q) / (2 * q))%Z in
        let ds := pad_digits 4 n in
        let cut := (length ds - 3)%nat in
        (if sg then js "-" else [])
          ++ take cut ds ++ js "." ++ drop cut ds
  end.

(** ToIntegerOrInfinity of a finite number: truncation toward zero. *)
Definition trunc_to_Z (x : number) : Z :=
  match Prim2SF x with
  | S754_finite sg m e =>
      let '(p, q) := exact_fraction m e in
      if sg then (- (p / q))%Z else (p / q)%Z
  | _ => 0%Z
  end.

End JsNumber.
Import JsNumber.

(* ===================================================================== *)
(** ** Regular expressions *)
(* ===================================================================== *)

Module Regex.

(** The fragment of ECMAScript patterns that [memory.ts] uses, without the
    [u] and [m] flags. *)
Inductive regex : Type :=
| Chr (c : N)                                  (* a literal character *)
| Cls (p : N -> bool)                          (* a class, or [.] *)
| Seq (a b : regex)
| Alt (a b : regex)                            (* [a|b], [a] tried first *)
| Rep (lo : nat) (hi : option nat) (r : regex) (* greedy [r{lo,hi}] *)
| Grp (r : regex)                              (* the capture group *)
| Bol                                          (* [^] *)
| Eol                                          (* [$] *)
| WordB.                                       (* [\b] *)

(** A position in the subject: the code units before it (nearest first),
    those after it, and what the capture group holds. *)
Record pos : Type := Pos {
  before : jsstring;
  after : jsstring;
  capture : option jsstring;
}.

(** Canonicalize of the [i] flag.  Without [u] it upper-cases one code unit
    and keeps a non-ASCII unit whose upper case is ASCII, so an ASCII
    pattern letter matches ASCII letters only; the other pattern characters
    of [memory.ts] under [i] (apostrophe, space, CJK ideographs) have no
    case. *)
Definition canon (c : N) : N := if is_lower c then c - 32 else c.

Definition same_char (ci : bool) (x c : N) : bool :=
  if ci then canon x =? canon c else x =? c.

Definition step (z : pos) : option (N * pos) :=
  match after z with
  | x :: rest => Some (x, Pos (x :: before z) rest (capture z))
  | [] => None
  end.

Definition at_word_boundary (z : pos) : bool :=
  let a := match before z with x :: _ => is_word x | [] => false end in
  let b := match after z with x :: _ => is_word x | [] => false end in
  xorb a b.

Definition progressed (z z' : pos) : bool :=
  (length (after z') <? length (after z))%nat.

Definition consumed (z z' : pos) : jsstring :=
  rev (take (length (before z') - length (before z)) (before z')).

Definition below (count : nat) (hi : option nat) : bool :=
  match hi with Some h => (count <? h)%nat | None => true end.

(** Every way [r] matches at [z], in the order backtracking tries them.
    An iteration of a repetition has to consume input, which each repeated
    body of [memory.ts] does by its shape. *)
Fixpoint rmatch (ci : bool) (r : regex) (z : pos) : list pos :=
  match r with
  | Chr c =>
      match step z with
      | Some (x, z') => if same_char ci x c then [z'] else []
      | None => []
      end
  | Cls p =>
      match step z with
      | Some (x, z') => if p x then [z'] else []
      | None => []
      end
  | Seq a b => flat_map (rmatch ci b) (rmatch ci a z)
  | Alt a b => rmatch ci a z ++ rmatch ci b z
  | Rep lo hi body =>
      (fix iter (fuel count : nat) (z : pos) {struct fuel} : list pos :=
         let stop := if (lo <=? count)%nat then [z] else [] in
         match fuel with
         | O => stop
         | S f =>
             (if below count hi
              then flat_map (iter f (S count))
                     (filter (fun z' => progressed z z') (rmatch ci body z))
              else []) ++ stop
         end) (S (length (after z))) O z
  | Grp body =>
      map (fun z' => Pos (before z') (after z') (Some (consumed z z')))
        (rmatch ci body z)
  | Bol => match before z with [] => [z] | _ => [] end
  | Eol => match after z with [] => [z] | _ => [] end
  | WordB => if at_word_boundary z then [z] else []
  end.

(** The literal [s]. *)
Fixpoint lit (s : jsstring) : regex :=
  match s with
  | [] => Rep 0 (Some 0%nat) (Chr 0)
  | [c] => Chr c
  | c :: rest => Seq (Chr c) (lit rest)
  end.

(** [a|b|...] *)
Fixpoint alts (rs : list regex) : regex :=
  match rs with
  | [] => Cls (fun _ => false)
  | [r] => r
  | r :: rest => Alt r (alts rest)
  end.

Fixpoint seqs (rs : list regex) : regex :=
  match rs with
  | [] => Rep 0 (Some 0%nat) (Chr 0)
  | [r] => r
  | r :: rest => Seq r (seqs rest)
  end.

(** The match the engine reports at [z]: the first in backtracking order. *)
Definition match_at (ci : bool) (r : regex) (z : pos) : option pos :=
  head (rmatch ci r z).

(** [s.replace(/r/g, by)] *)
Fixpoint replace_go (ci : bool) (r : regex) (by_ : jsstring)
    (bef aft : jsstring) (skip : nat) : jsstring :=
  match aft with
  | [] =>
      match skip, match_at ci r (Pos bef [] None) with
      | O, Some _ => by_
      | _, _ => []
      end
  | c :: rest =>
      match skip with
      | S k => replace_go ci r by_ (c :: bef) rest k
      | O =>
          match match_at ci r (Pos bef aft None) with
          | Some z' =>
              match (length aft - length (after z'))%nat with
              | O => by_ ++ c :: replace_go ci r by_ (c :: bef) rest O
              | S k => by_ ++ replace_go ci r by_ (c :: bef) rest k
              end
          | None => c :: replace_go ci r by_ (c :: bef) rest O
          end
      end
  end.

Definition replace_all (ci : bool) (r : regex) (by_ s : jsstring) : jsstring :=
  replace_go ci r by_ [] s O.

(** [s.match(/r/g) || []]: the matched substrings, left to right. *)
Fixpoint match_all_go (ci : bool) (r : regex)
    (bef aft : jsstring) (skip : nat) : list jsstring :=
  match aft with
  | [] => []
  | c :: rest =>
      match skip with
      | S k => match_all_go ci r (c :: bef) rest k
      | O =>
          match match_at ci r (Pos bef aft None) with
          | Some z' =>
              let n := (length aft - length (after z'))%nat in
              take n aft :: match_all_go ci r (c :: bef) rest (pred n)
          | None => match_all_go ci r (c :: bef) rest O
          end
      end
  end.

Definition match_all (ci : bool) (r : regex) (s : jsstring) : list jsstring :=
  match_all_go ci r [] s O.

(** [/r/.exec(s)]: the first position with a match, and the match there. *)
Fixpoint exec_go (ci : bool) (r : regex) (bef aft : jsstring) : option pos :=
  match match_at ci r (Pos bef aft None) with
  | Some z' => Some z'
  | None =>
      match aft with
      | [] => None
      | c :: rest => exec_go ci r (c :: bef) rest
      end
  end.

Definition exec (ci : bool) (r : regex) (s : jsstring) : option pos :=
  exec_go ci r [] s.

(** [/r/.test(s)] *)
Definition test (ci : bool) (r : regex) (s : jsstring) : bool :=
  match exec ci r s with Some _ => true | None => false end.

End Regex.
Import Regex.

(* ===================================================================== *)
(** ** JavaScript values, exceptions and JSON.parse *)
(* ===================================================================== *)

Module JsValue.

(** The values [JSON.parse] builds, and [undefined] for what a property
    read finds nothing at.  Objects keep their fields in source order. *)
Inductive value : Type :=
| VUndefined
| VNull
| VBool (b : bool)
| VNum (x : number)
| VStr (s : jsstring)
| VArr (items : list value)
| VObj (fields : list (jsstring * value)).

(** Exceptions: the class and the [message] of the [Error]. *)
Inductive error_kind := TypeError | SyntaxError | URIError | RangeError | PlainError.

Record error : Type := Err { kind : error_kind; message : jsstring }.

(** A computation that returns or throws. *)
Inductive res (A : Type) : Type :=
| Ok (a : A)
| Throw (e : error).
Arguments Ok {A} a.
Arguments Throw {A} e.

Definition message_of (e : error) : jsstring := message e.

Definition is_throw {A} (r : res A) : bool :=
  match r with Throw _ => true | Ok _ => false end.

(** ToBoolean *)
Definition truthy (v : value) : bool :=
  match v with
  | VUndefined | VNull => false
  | VBool b => b
  | VNum x => negb (is_nan x || PrimFloat.eqb x 0)
  | VStr s => match s with [] => false | _ => true end
  | VArr _ | VObj _ => true
  end.

(** [a || b] *)
Definition or_else (a b : value) : value := if truthy a then a else b.

(** An own property of an object: of two fields with one key the later
    one stands. *)
Fixpoint field (k : jsstring) (fields : list (jsstring * value)) : option value :=
  match fields with
  | [] => None
  | (k', v) :: rest =>
      match field k rest with
      | Some v' => Some v'
      | None => if bool_decide (k' = k) then Some v else None
      end
  end.

(** [v.k] for the property names [memory.ts] reads, none of which the
    prototypes of objects, arrays, strings, numbers or booleans define. *)
Definition get (v : value) (k : jsstring) : res value :=
  match v with
  | VUndefined =>
      Throw (Err TypeError
               (js "Cannot read properties of undefined (reading '" ++ k ++ js "')"))
  | VNull =>
      Throw (Err TypeError
               (js "Cannot read properties of null (reading '" ++ k ++ js "')"))
  | VObj fields => Ok (match field k fields with Some x => x | None => VUndefined end)
  | _ => Ok VUndefined
  end.

(** [v?.k] *)
Definition get_opt (v : value) (k : jsstring) : value :=
  match v with
  | VObj fields => match field k fields with Some x => x | None => VUndefined end
  | _ => VUndefined
  end.

(** [String(v)] *)
Fixpoint to_string (v : value) : jsstring :=
  match v with
  | VUndefined => js "undefined"
  | VNull => js "null"
  | VBool true => js "true"
  | VBool false => js "false"
  | VNum x => number_to_string x
  | VStr s => s
  | VArr items =>
      join (js ",")
        (map (fun i => match i with
                       | VUndefined | VNull => []
                       | _ => to_string i
                       end) items)
  | VObj _ => js "[object Object]"
  end.

(** What [for (const row of v)] iterates over: the elements of an array,
    the code points of a string; anything else is not iterable. *)
Fixpoint code_points (s : jsstring) : list value :=
  match s with
  | [] => []
  | h :: tl =>
      match tl with
      | l :: rest =>
          if (0xD800 <=? h) && (h <=? 0xDBFF) && (0xDC00 <=? l) && (l <=? 0xDFFF)
          then VStr [h; l] :: code_points rest
          else VStr [h] :: code_points tl
      | [] => [VStr [h]]
      end
  end.

Definition iterate (what : jsstring) (v : value) : res (list value) :=
  match v with
  | VArr items => Ok items
  | VStr s => Ok (code_points s)
  | _ => Throw (Err TypeError (what ++ js " is not iterable"))
  end.

End JsValue.
Import JsValue.

Module Json.

Inductive token : Type :=
| TLBrace | TRBrace | TLBrack | TRBrack | TColon | TComma
| TString (s : jsstring)
| TNumber (x : number)
| TLit (v : value).

(** The number grammar of JSON (an optional minus sign, an integer part
    without a leading zero, an optional fraction, an optional exponent)
    and its value. *)
Fixpoint span_digits (s : jsstring) (acc : Z) (n : Z) : Z * Z * jsstring :=
  match s with
  | c :: rest =>
      if is_digit c then span_digits rest (acc * 10 + Z.of_N (c - 48))%Z (n + 1)%Z
      else (acc, n, s)
  | [] => (acc, n, s)
  end.

Definition number_of_literal (s : jsstring) : option number :=
  let '(neg, s1) := match s with
                    | 45 :: r => (true, r)
                    | _ => (false, s)
                    end in
  let '(int, ni, s2) := span_digits s1 0%Z 0%Z in
  let leading_zero := match s1 with 48 :: _ => true | _ => false end in
  if (ni =? 0)%Z || (leading_zero && negb (ni =? 1)%Z) then None else
  let frac_part :=
    match s2 with
    | 46 :: r =>
        let '(f, nf, s3) := span_digits r int 0%Z in
        if (nf =? 0)%Z then None else Some (f, nf, s3)
    | _ => Some (int, 0%Z, s2)
    end in
  match frac_part with
  | None => None
  | Some (mant, nf, s3) =>
      match s3 with
      | [] => Some (of_decimal neg mant (- nf))
      | e :: r =>
          if (e =? 101) || (e =? 69) then
            let '(eneg, r1) := match r with
                               | 45 :: t => (true, t)
                               | 43 :: t => (false, t)
                               | _ => (false, r)
                               end in
            let '(ex, ne, r2) := span_digits r1 0%Z 0%Z in
            match r2 with
            | [] => if (ne =? 0)%Z then None
                    else Some (of_decimal neg mant
                                 ((if eneg then - ex else ex) - nf))
            | _ => None
            end
          else None
      end
  end.

Definition is_number_char (c : N) : bool :=
  is_digit c || (c =? 45) || (c =? 43) || (c =? 46) || (c =? 101) || (c =? 69).

Definition hex_digit (c : N) : option N :=
  if is_digit c then Some (c - 48)
  else if (97 <=? c) && (c <=? 102) then Some (c - 87)
  else if (65 <=? c) && (c <=? 70) then Some (c - 55)
  else None.

(** JSON white space: tab, line feed, carriage return, space. *)
Definition is_json_space (c : N) : bool :=
  (c =? 9) || (c =? 10) || (c =? 13) || (c =? 32).

Inductive lex_state : Type :=
| LIdle
| LString (buf : jsstring)                   (* inside a string, reversed *)
| LEscape (buf : jsstring)                   (* after a backslash *)
| LUnicode (buf : jsstring) (todo : nat) (v : N) (* inside [\uXXXX] *)
| LNumber (buf : jsstring)                   (* inside a number, reversed *)
| LWord (rest : jsstring) (v : value).       (* inside true, false, null *)

(** One character read in the idle state. *)
Definition lex_idle (c : N) (acc : list token) : option (lex_state * list token) :=
  if is_json_space c then Some (LIdle, acc)
  else if c =? 123 then Some (LIdle, TLBrace :: acc)
  else if c =? 125 then Some (LIdle, TRBrace :: acc)
  else if c =? 91 then Some (LIdle, TLBrack :: acc)
  else if c =? 93 then Some (LIdle, TRBrack :: acc)
  else if c =? 58 then Some (LIdle, TColon :: acc)
  else if c =? 44 then Some (LIdle, TComma :: acc)
  else if c =? 34 then Some (LString [], acc)
  else if is_digit c || (c =? 45) then Some (LNumber [c], acc)
  else if c =? 116 then Some (LWord (js "rue") (VBool true), acc)
  else if c =? 102 then Some (LWord (js "alse") (VBool false), acc)
  else if c =? 110 then Some (LWord (js "ull") VNull, acc)
  else None.

Definition lex_escape (c : N) : option N :=
  if (c =? 34) || (c =? 92) || (c =? 47) then Some c
  else if c =? 98 then Some 8
  else if c =? 102 then Some 12
  else if c =? 110 then Some 10
  else if c =? 114 then Some 13
  else if c =? 116 then Some 9
  else None.

(** The tokens of a JSON text, or [None] where it is malformed. *)
Fixpoint lex (st : lex_state) (acc : list token) (s : jsstring)
  : option (list token) :=
  match s with
  | [] =>
      match st with
      | LIdle => Some (rev acc)
      | LNumber buf =>
          match number_of_literal (rev buf) with
          | Some x => Some (rev (TNumber x :: acc))
          | None => None
          end
      | _ => None
      end
  | c :: rest =>
      match st with
      | LIdle =>
          match lex_idle c acc with
          | Some (st', acc') => lex st' acc' rest
          | None => None
          end
      | LString buf =>
          if c =? 34 then lex LIdle (TString (rev buf) :: acc) rest
          else if c =? 92 then lex (LEscape buf) acc rest
          else if c <? 32 then None
          else lex (LString (c :: buf)) acc rest
      | LEscape buf =>
          if c =? 117 then lex (LUnicode buf 4 0) acc rest
          else match lex_escape c with
               | Some x => lex (LString (x :: buf)) acc rest
               | None => None
               end
      | LUnicode buf todo v =>
          match hex_digit c with
          | Some d =>
              match todo with
              | 1%nat => lex (LString ((v * 16 + d) :: buf)) acc rest
              | _ => lex (LUnicode buf (pred todo) (v * 16 + d)) acc rest
              end
          | None => None
          end
      | LNumber buf =>
          if is_number_char c then lex (LNumber (c :: buf)) acc rest
          else match number_of_literal (rev buf) with
               | Some x =>
                   match lex_idle c (TNumber x :: acc) with
                   | Some (st', acc') => lex st' acc' rest
                   | None => None
                   end
               | None => None
               end
      | LWord expect v =>
          match expect with
          | [e] => if c =? e then lex LIdle (TLit v :: acc) rest else None
          | e :: more => if c =? e then lex (LWord more v) acc rest else None
          | [] => None
          end
      end
  end.

(** An open array or object, innermost first on the parser's stack. *)
Inductive frame : Type :=
| FArr (items : list value)                              (* reversed *)
| FObj (fields : list (jsstring * value))                (* reversed *)
| FKey (fields : list (jsstring * value)) (k : jsstring).

Inductive expect : Type :=
| EValue (may_close : bool)   (* a value; []] closes an empty array *)
| EKey (may_close : bool)     (* a key; [}] closes an empty object *)
| EColon
| EAfter                      (* [,] or the closing bracket *)
| EDone (v : value).

(** A finished value goes into the innermost open container. *)
Definition deliver (v : value) (stack : list frame) : option (list frame * expect) :=
  match stack with
  | [] => Some ([], EDone v)
  | FArr items :: up => Some (FArr (v :: items) :: up, EAfter)
  | FKey fields k :: up => Some (FObj ((k, v) :: fields) :: up, EAfter)
  | FObj _ :: _ => None
  end.

Definition parse_step (t : token) (stack : list frame) (e : expect)
  : option (list frame * expect) :=
  match e, t with
  | EValue _, TString s => deliver (VStr s) stack
  | EValue _, TNumber x => deliver (VNum x) stack
  | EValue _, TLit v => deliver v stack
  | EValue _, TLBrack => Some (FArr [] :: stack, EValue true)
  | EValue _, TLBrace => Some (FObj [] :: stack, EKey true)
  | EValue true, TRBrack =>
      match stack with
      | FArr [] :: up => deliver (VArr []) up
      | _ => None
      end
  | EKey _, TString k =>
      match stack with
      | FObj fields :: up => Some (FKey fields k :: up, EColon)
      | _ => None
      end
  | EKey true, TRBrace =>
      match stack with
      | FObj [] :: up => deliver (VObj []) up
      | _ => None
      end
  | EColon, TColon => Some (stack, EValue false)
  | EAfter, TComma =>
      match stack with
      | FArr _ :: _ => Some (stack, EValue false)
      | FObj _ :: _ => Some (stack, EKey false)
      | _ => None
      end
  | EAfter, TRBrack =>
      match stack with
      | FArr items :: up => deliver (VArr (rev items)) up
      | _ => None
      end
  | EAfter, TRBrace =>
      match stack with
      | FObj fields :: up => deliver (VObj (rev fields)) up
      | _ => None
      end
  | _, _ => None
  end.

Fixpoint parse_tokens (ts : list token) (stack : list frame) (e : expect)
  : option value :=
  match ts with
  | [] => match e, stack with EDone v, [] => Some v | _, _ => None end
  | t :: rest =>
      match parse_step t stack e with
      | Some (stack', e') => parse_tokens rest stack' e'
      | None => None
      end
  end.

(** [JSON.parse(text)] *)
Definition parse (text : jsstring) : res value :=
  match lex LIdle [] text with
  | Some ts =>
      match parse_tokens ts [] (EValue false) with
      | Some v => Ok v
      | None => Throw (Err SyntaxError (js "Unexpected token in JSON"))
      end
  | None => Throw (Err SyntaxError (js "Unexpected token in JSON"))
  end.

End Json.

(* ===================================================================== *)
(** ** decodeURIComponent, path.join, Date.prototype.toISOString *)
(* ===================================================================== *)

Module Uri.

Definition uri_error : error := Err URIError (js "URI malformed").

Definition byte_of (h l : N) : option N :=
  match Json.hex_digit h, Json.hex_digit l with
  | Some a, Some b => Some (a * 16 + b)
  | _, _ => None
  end.

(** How many octets the UTF-8 sequence led by [b] has; [None] for an octet
    that cannot lead one. *)
Definition utf8_length (b : N) : option nat :=
  if b <? 0x80 then Some 1%nat
  else if b <? 0xC0 then None
  else if b <? 0xE0 then Some 2%nat
  else if b <? 0xF0 then Some 3%nat
  else if b <? 0xF8 then Some 4%nat
  else None.

(** The code point a complete UTF-8 sequence encodes, if it is the
    shortest encoding of a scalar value. *)
Definition utf8_code_point (octets : list N) : option N :=
  match octets with
  | [a; b] =>
      let cp := (a - 0xC0) * 64 + (b - 0x80) in
      if 0x80 <=? cp then Some cp else None
  | [a; b; c] =>
      let cp := (a - 0xE0) * 4096 + (b - 0x80) * 64 + (c - 0x80) in
      if (0x800 <=? cp) && negb ((0xD800 <=? cp) && (cp <=? 0xDFFF))
      then Some cp else None
  | [a; b; c; d] =>
      let cp := (a - 0xF0) * 262144 + (b - 0x80) * 4096
                + (c - 0x80) * 64 + (d - 0x80) in
      if (0x10000 <=? cp) && (cp <=? 0x10FFFF) then Some cp else None
  | _ => None
  end.

Definition utf16_units (cp : N) : jsstring :=
  if cp <? 0x10000 then [cp]
  else [0xD800 + (cp - 0x10000) / 1024; 0xDC00 + (cp - 0x10000) mod 1024].

Definition is_continuation (b : N) : bool := (0x80 <=? b) && (b <? 0xC0).

(** [decodeURIComponent(s)].  [pending] holds, inside a multi-octet
    sequence, how many octets are still to come and those already read. *)
Fixpoint decode (pending : option (nat * list N)) (s : jsstring) : res jsstring :=
  match s with
  | [] => match pending with None => Ok [] | Some _ => Throw uri_error end
  | c :: tl =>
      if c =? 37 then
        match tl with
        | h :: l :: rest =>
            match byte_of h l with
            | None => Throw uri_error
            | Some b =>
                match pending with
                | None =>
                    match utf8_length b with
                    | Some 1%nat =>
                        match decode None rest with
                        | Ok r => Ok (b :: r)
                        | Throw e => Throw e
                        end
                    | Some n => decode (Some (pred n, [b])) rest
                    | None => Throw uri_error
                    end
                | Some (k, octets) =>
                    if negb (is_continuation b) then Throw uri_error
                    else match k with
                         | 1%nat =>
                             match utf8_code_point (octets ++ [b]) with
                             | Some cp =>
                                 match decode None rest with
                                 | Ok r => Ok (utf16_units cp ++ r)
                                 | Throw e => Throw e
                                 end
                             | None => Throw uri_error
                             end
                         | _ => decode (Some (pred k, octets ++ [b])) rest
                         end
                end
            end
        | _ => Throw uri_error
        end
      else
        match pending with
        | Some _ => Throw uri_error
        | None =>
            match decode None tl with
            | Ok r => Ok (c :: r)
            | Throw e => Throw e
            end
        end
  end.

Definition decodeURIComponent (s : jsstring) : res jsstring := decode None s.

End Uri.

Module Path.

(** The segments of a path between its [/] separators. *)
Fixpoint split_slash (cur : jsstring) (s : jsstring) : list jsstring :=
  match s with
  | [] => [rev cur]
  | c :: rest =>
      if c =? 47 then rev cur :: split_slash [] rest
      else split_slash (c :: cur) rest
  end.

Definition dotdot : jsstring := [46; 46].

(** [normalizeString]: the segments kept, innermost first. *)
Fixpoint resolve (allow_above_root : bool) (kept : list jsstring)
    (segs : list jsstring) : list jsstring :=
  match segs with
  | [] => kept
  | seg :: rest =>
      if bool_decide (seg = []) || bool_decide (seg = [46])
      then resolve allow_above_root kept rest
      else if bool_decide (seg = dotdot) then
        match kept with
        | top :: below =>
            if bool_decide (top = dotdot)
            then resolve allow_above_root
                   (if allow_above_root then dotdot :: kept else kept) rest
            else resolve allow_above_root below rest
        | [] =>
            resolve allow_above_root
              (if allow_above_root then [dotdot] else []) rest
        end
      else resolve allow_above_root (seg :: kept) rest
  end.

(** [path.posix.normalize(p)] *)
Definition normalize (p : jsstring) : jsstring :=
  match p with
  | [] => [46]
  | first :: _ =>
      let absolute := first =? 47 in
      let trailing := match rev p with c :: _ => c =? 47 | [] => false end in
      let body := join [47] (rev (resolve (negb absolute) [] (split_slash [] p))) in
      match body with
      | [] => if absolute then [47] else if trailing then [46; 47] else [46]
      | _ => (if absolute then [47] else [])
               ++ body ++ (if trailing then [47] else [])
      end
  end.

(** [path.join(...parts)] *)
Definition path_join (parts : list jsstring) : jsstring :=
  normalize
    (join [47] (filter (fun s => negb (bool_decide (s = []))) parts)).

End Path.

Module Date.

(** The civil date of a day number counted from 1970-01-01. *)
Definition civil_from_days (z : Z) : Z * Z * Z :=
  let z := (z + 719468)%Z in
  let era := (z / 146097)%Z in
  let doe := (z - era * 146097)%Z in
  let yoe := ((doe - doe / 1460 + doe / 36524 - doe / 146096) / 365)%Z in
  let y := (yoe + era * 400)%Z in
  let doy := (doe - (365 * yoe + yoe / 4 - yoe / 100))%Z in
  let mp := ((5 * doy + 2) / 153)%Z in
  let d := (doy - (153 * mp + 2) / 5 + 1)%Z in
  let m := (if (mp <? 10)%Z then mp + 3 else mp - 9)%Z in
  ((if (m <=? 2)%Z then y + 1 else y)%Z, m, d).

(** The time value of [new Date(x)]: TimeClip. *)
Definition time_value (x : number) : option Z :=
  if is_finite x && PrimFloat.leb (PrimFloat.abs x) 8.64e15
  then Some (trunc_to_Z x) else None.

(** [new Date(x).toISOString()] *)
Definition toISOString (x : number) : res jsstring :=
  match time_value x with
  | None => Throw (Err RangeError (js "Invalid time value"))
  | Some t =>
      let day := (t / 86400000)%Z in
      let ms := (t mod 86400000)%Z in
      let '(y, m, d) := civil_from_days day in
      let year :=
        if (0 <=? y)%Z && (y <=? 9999)%Z then pad_digits 4 y
        else (if (y <? 0)%Z then js "-" else js "+") ++ pad_digits 6 (Z.abs y) in
      Ok (year ++ js "-" ++ pad_digits 2 m ++ js "-" ++ pad_digits 2 d
          ++ js "T" ++ pad_digits 2 (ms / 3600000)
          ++ js ":" ++ pad_digits 2 (ms / 60000 mod 60)
          ++ js ":" ++ pad_digits 2 (ms / 1000 mod 60)
          ++ js "." ++ pad_digits 3 (ms mod 1000) ++ js "Z")
  end.

End Date.

(* ===================================================================== *)
(** ** The outside world and the module state *)
(* ===================================================================== *)

Module World.

(** How a spawned process ends. *)
Inductive outcome : Type :=
| Closed (code : option Z) (stdout stderr : jsstring)
    (* the [close] event: the exit code, [null] after a signal *)
| SpawnFailed (msg : jsstring)
    (* the [error] event *)
| Hung.
    (* still running when the timer fires; it is killed *)

Record spawn_call : Type := Spawn {
  sp_command : jsstring;
  sp_args : list jsstring;
  sp_timeout : number;
  sp_env : list (jsstring * jsstring);
}.

Inductive fs_entry : Type :=
| File (content : jsstring)
| Directory
| Unreadable.     (* a file that exists and cannot be read *)

Record world : Type := MkWorld {
  script : list outcome;            (* how the next processes will end *)
  spawned : list spawn_call;        (* the processes started, latest first *)
  clock : list number;              (* the next readings of [Date.now()] *)
  files : gmap jsstring fs_entry;
  writable : jsstring -> bool;      (* where creating and writing succeed *)
  homedir : jsstring;               (* [os.homedir()] *)
  tinyclaw_home : jsstring;         (* [TINYCLAW_HOME] of [./config] *)
  log_lines : list (jsstring * jsstring);  (* latest first *)
}.

(** The module-level variables of [memory.ts]. *)
Record state : Type := MkState {
  qmdChecked : bool;
  qmdAvailable : bool;
  qmdUnavailableLogged : bool;
  qmdCommandPath : option jsstring;
  qmdCheckKey : jsstring;
  qmdDisableExpansionCheckKey : jsstring;
  qmdDisableExpansionSupported : bool;
  qmdUnsafeFallbackLogged : bool;
  collectionPrepared : gset jsstring;
  lastCollectionUpdateMs : gmap jsstring number;
}.

(** The state when the module is loaded. *)
Definition initial_state : state :=
  MkState false false false None [] [] false false ∅ ∅.

Record env : Type := Env { the_state : state; the_world : world }.

(** Computations over the state and the world that return or throw. *)
Definition M (A : Type) : Type := env -> res A * env.

Definition ret {A} (a : A) : M A := fun s => (Ok a, s).

Definition bind {A B} (m : M A) (k : A -> M B) : M B :=
  fun s => match m s with
           | (Ok a, s') => k a s'
           | (Throw e, s') => (Throw e, s')
           end.

Definition throw {A} (e : error) : M A := fun s => (Throw e, s).

(** [try { m } catch (e) { h e }] *)
Definition try_catch {A} (m : M A) (h : error -> M A) : M A :=
  fun s => match m s with
           | (Ok a, s') => (Ok a, s')
           | (Throw e, s') => h e s'
           end.

Definition lift {A} (r : res A) : M A := fun s => (r, s).

Definition gets {A} (f : state -> A) : M A := fun s => (Ok (f (the_state s)), s).
Definition asks {A} (f : world -> A) : M A := fun s => (Ok (f (the_world s)), s).

Definition modify (f : state -> state) : M unit :=
  fun s => (Ok tt, Env (f (the_state s)) (the_world s)).

Definition modify_world (f : world -> world) : M unit :=
  fun s => (Ok tt, Env (the_state s) (f (the_world s))).

Definition with_script (x : list outcome) (w : world) : world :=
  MkWorld x (spawned w) (clock w) (files w) (writable w) (homedir w)
    (tinyclaw_home w) (log_lines w).
Definition with_spawned (x : list spawn_call) (w : world) : world :=
  MkWorld (script w) x (clock w) (files w) (writable w) (homedir w)
    (tinyclaw_home w) (log_lines w).
Definition with_clock (x : list number) (w : world) : world :=
  MkWorld (script w) (spawned w) x (files w) (writable w) (homedir w)
    (tinyclaw_home w) (log_lines w).
Definition with_files (x : gmap jsstring fs_entry) (w : world) : world :=
  MkWorld (script w) (spawned w) (clock w) x (writable w) (homedir w)
    (tinyclaw_home w) (log_lines w).
Definition with_log_lines (x : list (jsstring * jsstring)) (w : world) : world :=
  MkWorld (script w) (spawned w) (clock w) (files w) (writable w) (homedir w)
    (tinyclaw_home w) x.

Definition set_qmdChecked (x : bool) (s : state) : state :=
  MkState x (qmdAvailable s) (qmdUnavailableLogged s) (qmdCommandPath s)
    (qmdCheckKey s) (qmdDisableExpansionCheckKey s)
    (qmdDisableExpansionSupported s) (qmdUnsafeFallbackLogged s)
    (collectionPrepared s) (lastCollectionUpdateMs s).
Definition set_qmdAvailable (x : bool) (s : state) : state :=
  MkState (qmdChecked s) x (qmdUnavailableLogged s) (qmdCommandPath s)
    (qmdCheckKey s) (qmdDisableExpansionCheckKey s)
    (qmdDisableExpansionSupported s) (qmdUnsafeFallbackLogged s)
    (collectionPrepared s) (lastCollectionUpdateMs s).
Definition set_qmdUnavailableLogged (x : bool) (s : state) : state :=
  MkState (qmdChecked s) (qmdAvailable s) x (qmdCommandPath s)
    (qmdCheckKey s) (qmdDisableExpansionCheckKey s)
    (qmdDisableExpansionSupported s) (qmdUnsafeFallbackLogged s)
    (collectionPrepared s) (lastCollectionUpdateMs s).
Definition set_qmdCommandPath (x : option jsstring) (s : state) : state :=
  MkState (qmdChecked s) (qmdAvailable s) (qmdUnavailableLogged s) x
    (qmdCheckKey s) (qmdDisableExpansionCheckKey s)
    (qmdDisableExpansionSupported s) (qmdUnsafeFallbackLogged s)
    (collectionPrepared s) (lastCollectionUpdateMs s).
Definition set_qmdCheckKey (x : jsstring) (s : state) : state :=
  MkState (qmdChecked s) (qmdAvailable s) (qmdUnavailableLogged s)
    (qmdCommandPath s) x (qmdDisableExpansionCheckKey s)
    (qmdDisableExpansionSupported s) (qmdUnsafeFallbackLogged s)
    (collectionPrepared s) (lastCollectionUpdateMs s).
Definition set_qmdDisableExpansionCheckKey (x : jsstring) (s : state) : state :=
  MkState (qmdChecked s) (qmdAvailable s) (qmdUnavailableLogged s)
    (qmdCommandPath s) (qmdCheckKey s) x
    (qmdDisableExpansionSupported s) (qmdUnsafeFallbackLogged s)
    (collectionPrepared s) (lastCollectionUpdateMs s).
Definition set_qmdDisableExpansionSupported (x : bool) (s : state) : state :=
  MkState (qmdChecked s) (qmdAvailable s) (qmdUnavailableLogged s)
    (qmdCommandPath s) (qmdCheckKey s) (qmdDisableExpansionCheckKey s)
    x (qmdUnsafeFallbackLogged s)
    (collectionPrepared s) (lastCollectionUpdateMs s).
Definition set_qmdUnsafeFallbackLogged (x : bool) (s : state) : state :=
  MkState (qmdChecked s) (qmdAvailable s) (qmdUnavailableLogged s)
    (qmdCommandPath s) (qmdCheckKey s) (qmdDisableExpansionCheckKey s)
    (qmdDisableExpansionSupported s) x
    (collectionPrepared s) (lastCollectionUpdateMs s).
Definition set_collectionPrepared (x : gset jsstring) (s : state) : state :=
  MkState (qmdChecked s) (qmdAvailable s) (qmdUnavailableLogged s)
    (qmdCommandPath s) (qmdCheckKey s) (qmdDisableExpansionCheckKey s)
    (qmdDisableExpansionSupported s) (qmdUnsafeFallbackLogged s)
    x (lastCollectionUpdateMs s).
Definition set_lastCollectionUpdateMs (x : gmap jsstring number) (s : state) : state :=
  MkState (qmdChecked s) (qmdAvailable s) (qmdUnavailableLogged s)
    (qmdCommandPath s) (qmdCheckKey s) (qmdDisableExpansionCheckKey s)
    (qmdDisableExpansionSupported s) (qmdUnsafeFallbackLogged s)
    (collectionPrepared s) x.

(** Modelled from the spec: [log] of [./logging], which is not among the
    sources; it records a line at a level and does not throw. *)
Definition log (level msg : jsstring) : M unit :=
  modify_world (fun w => with_log_lines ((level, msg) :: log_lines w) w).

(** [Date.now()] *)
Definition date_now : M number :=
  fun s =>
    let w := the_world s in
    match clock w with
    | t :: later => (Ok t, Env (the_state s) (with_clock later w))
    | [] => (Ok 0%float, s)
    end.

(** [fs.existsSync(p)] *)
Definition existsSync (w : world) (p : jsstring) : bool :=
  match files w !! p with Some _ => true | None => false end.

(** [fs.readFileSync(p, 'utf8')] *)
Definition readFileSync (w : world) (p : jsstring) : res jsstring :=
  match files w !! p with
  | Some (File c) => Ok c
  | Some Directory => Throw (Err PlainError (js "EISDIR: illegal operation on a directory, read"))
  | Some Unreadable => Throw (Err PlainError (js "EACCES: permission denied, open"))
  | None => Throw (Err PlainError (js "ENOENT: no such file or directory, open"))
  end.

(** The directories above [p], and [p] itself. *)
Fixpoint prefixes (bef : jsstring) (aft : jsstring) : list jsstring :=
  match aft with
  | [] => [rev bef]
  | c :: rest =>
      if (c =? 47) && negb (bool_decide (bef = []))
      then rev bef :: prefixes (c :: bef) rest
      else prefixes (c :: bef) rest
  end.

(** [fs.mkdirSync(p, { recursive: true })] *)
Definition mkdirSync (p : jsstring) : M unit :=
  fun s =>
    let w := the_world s in
    if writable w p then
      (Ok tt,
       Env (the_state s)
         (with_files
            (foldr (fun d fs => match fs !! d with
                                | Some _ => fs
                                | None => <[d := Directory]> fs
                                end) (files w) (prefixes [] p)) w))
    else (Throw (Err PlainError (js "EACCES: permission denied, mkdir")), s).

(** [fs.writeFileSync(p, content)].  The text goes to disk as UTF-8, so
    what [readFileSync(p, 'utf8')] gives back is [content.toWellFormed()]. *)
Definition writeFileSync (p content : jsstring) : M unit :=
  fun s =>
    let w := the_world s in
    match files w !! p with
    | Some Directory =>
        (Throw (Err PlainError (js "EISDIR: illegal operation on a directory, open")), s)
    | _ =>
        if writable w p
        then (Ok tt,
              Env (the_state s)
                (with_files (<[p := File (toWellFormed content)]> (files w)) w))
        else (Throw (Err PlainError (js "EACCES: permission denied, open")), s)
    end.

End World.
Import World.

Declare Scope monad_scope.
Delimit Scope monad_scope with monad.
Notation "'let*' x ':=' m 'in' k" := (bind m (fun x => k))
  (at level 10, x name, m at level 100, k at level 200) : monad_scope.
Notation "m ';;' k" := (bind m (fun _ => k))
  (at level 100, k at level 200, right associativity) : monad_scope.

(* ===================================================================== *)
(** ** src/lib/memory.ts *)
(* ===================================================================== *)

Module Memory.

Local Open Scope monad_scope.

Definition DEFAULT_TOP_K : number := 4.
Definition DEFAULT_MIN_SCORE : number := 0.0.
Definition DEFAULT_MAX_CHARS : number := 2500.
Definition DEFAULT_UPDATE_INTERVAL_SECONDS : number := 120.
Definition DEFAULT_PRECHECK_TIMEOUT_MS : number := 800.
Definition DEFAULT_TEXT_SEARCH_TIMEOUT_MS : number := 3000.
Definition DEFAULT_VECTOR_SEARCH_TIMEOUT_MS : number := 10000.

Definition MEMORY_ROOT (w : world) : jsstring :=
  Path.path_join [tinyclaw_home w; js "memory"].
Definition MEMORY_TURNS_DIR (w : world) : jsstring :=
  Path.path_join [MEMORY_ROOT w; js "turns"].

Definition MEMORY_CHANNELS : list jsstring :=
  [js "telegram"; js "discord"; js "whatsapp"].

Record QmdResult : Type := MkResult {
  score : number;
  snippet : jsstring;
  source : jsstring;
}.

Record QmdConfig : Type := MkConfig {
  enabled : bool;
  command : option jsstring;
  topK : number;
  minScore : number;
  maxChars : number;
  updateIntervalSeconds : number;
  useSemanticSearch : bool;
  disableQueryExpansion : bool;
  allowUnsafeVsearch : bool;
  quickPrecheckEnabled : bool;
  precheckTimeoutMs : number;
  searchTimeoutMs : number;
  vectorSearchTimeoutMs : number;
  debugLogging : bool;
}.

Record CommandResult : Type := MkCommandResult {
  stdout : jsstring;
  stderr : jsstring;
}.

Record QueryResult : Type := MkQueryResult {
  results : list QmdResult;
  query : jsstring;
}.

Record TurnSections : Type := MkSections {
  user : jsstring;
  assistant : jsstring;
}.

(** [Settings] of [./types] is an object; it is held as its fields, as
    [JSON.parse] of the settings file gives them. *)
Abbreviation Settings := (list (jsstring * value)).

(** [v === true] and [v !== false] *)
Definition is_true (v : value) : bool :=
  match v with VBool true => true | _ => false end.
Definition is_not_false (v : value) : bool :=
  match v with VBool false => false | _ => true end.

(** [Number.isFinite(v) ? clamp(Number(v)) : fallback] *)
Definition finite_or (v : value) (clamp : number -> number) (fallback : number) : number :=
  match v with
  | VNum x => if is_finite x then clamp x else fallback
  | _ => fallback
  end.

Definition getQmdConfig (settings : Settings) : QmdConfig :=
  let memory := get_opt (VObj settings) (js "memory") in
  let memoryCfg := get_opt memory (js "qmd") in
  let command := match get_opt memoryCfg (js "command") with
                 | VStr s => trim s
                 | _ => []
                 end in
  {| enabled := is_true (get_opt memory (js "enabled"))
                && is_not_false (get_opt memoryCfg (js "enabled"));
     command := match command with [] => None | _ => Some command end;
     topK := finite_or (get_opt memoryCfg (js "top_k")) (math_max 1) DEFAULT_TOP_K;
     minScore := finite_or (get_opt memoryCfg (js "min_score")) (fun x => x)
                   DEFAULT_MIN_SCORE;
     maxChars := finite_or (get_opt memoryCfg (js "max_chars")) (math_max 500)
                   DEFAULT_MAX_CHARS;
     updateIntervalSeconds :=
       finite_or (get_opt memoryCfg (js "update_interval_seconds")) (math_max 10)
         DEFAULT_UPDATE_INTERVAL_SECONDS;
     useSemanticSearch := is_true (get_opt memoryCfg (js "use_semantic_search"));
     disableQueryExpansion :=
       is_not_false (get_opt memoryCfg (js "disable_query_expansion"));
     allowUnsafeVsearch := is_true (get_opt memoryCfg (js "allow_unsafe_vsearch"));
     quickPrecheckEnabled :=
       is_not_false (get_opt memoryCfg (js "quick_precheck_enabled"));
     precheckTimeoutMs :=
       finite_or (get_opt memoryCfg (js "precheck_timeout_ms")) (math_max 100)
         DEFAULT_PRECHECK_TIMEOUT_MS;
     searchTimeoutMs :=
       finite_or (get_opt memoryCfg (js "search_timeout_ms")) (math_max 500)
         DEFAULT_TEXT_SEARCH_TIMEOUT_MS;
     vectorSearchTimeoutMs :=
       finite_or (get_opt memoryCfg (js "vector_search_timeout_ms")) (math_max 1000)
         DEFAULT_VECTOR_SEARCH_TIMEOUT_MS;
     debugLogging := is_true (get_opt memoryCfg (js "debug_logging")) |}.

Definition logQmdDebug (agentId : jsstring) (qmdCfg : QmdConfig)
    (stage details : jsstring) : M unit :=
  if negb (debugLogging qmdCfg) then ret tt
  else log (js "INFO")
         (js "Memory debug @" ++ agentId ++ js " [" ++ stage ++ js "]: " ++ details).

(** [/[^a-z0-9_-]/g] *)
Definition re_unsafe_id : regex :=
  Cls (fun c => negb (is_lower c || is_digit c || (c =? 95) || (c =? 45))).

Definition sanitizeId (raw : jsstring) : jsstring :=
  replace_all false re_unsafe_id (js "-") (toLowerCase raw).

Definition getAgentTurnsDir (w : world) (agentId : jsstring) : jsstring :=
  Path.path_join [MEMORY_TURNS_DIR w; sanitizeId agentId].

Definition getCollectionName (agentId : jsstring) : jsstring :=
  js "tinyclaw-" ++ sanitizeId agentId.

Definition ensureDir (dir : jsstring) : M unit :=
  let* present := asks (fun w => existsSync w dir) in
  if negb present then mkdirSync dir else ret tt.

(** [runCommand]: the process is started and the promise settles by how it
    ends. *)
Definition runCommand (command : jsstring) (args : list jsstring)
    (timeoutMs : number) (env : list (jsstring * jsstring)) : M CommandResult :=
  fun s =>
    let w := the_world s in
    let started := with_spawned (Spawn command args timeoutMs env :: spawned w) w in
    match script w with
    | [] =>
        (Throw (Err PlainError (js "spawn " ++ command ++ js " ENOENT")),
         Env (the_state s) started)
    | o :: later =>
        let s' := Env (the_state s) (with_script later started) in
        match o with
        | SpawnFailed msg => (Throw (Err PlainError msg), s')
        | Hung =>
            (Throw (Err PlainError
                      (js "Command timed out after " ++ number_to_string timeoutMs
                       ++ js "ms")), s')
        | Closed code out err =>
            if bool_decide (code = Some 0%Z)
            then (Ok (MkCommandResult out err), s')
            else
              let fallback :=
                js "Command exited with code "
                ++ match code with
                   | Some c => number_to_string (of_Z c)
                   | None => js "null"
                   end in
              (Throw (Err PlainError
                        (match trim err with [] => fallback | m => m end)), s')
        end
    end.

(** [qmdCommandPath || 'qmd'] *)
Definition qmd_command (st : state) : jsstring :=
  match qmdCommandPath st with
  | Some (c :: p) => c :: p
  | _ => js "qmd"
  end.

(** The loop of [isQmdAvailable] over the candidates. *)
Fixpoint probe_candidates (candidates : list jsstring) : M unit :=
  match candidates with
  | [] => ret tt
  | candidate :: rest =>
      let* found :=
        try_catch
          (runCommand candidate [js "--help"] 5000 [] ;;
           modify (set_qmdCommandPath (Some candidate)) ;;
           modify (set_qmdAvailable true) ;;
           ret true)
          (fun _ => ret false) in
      if found then ret tt else probe_candidates rest
  end.

Definition isQmdAvailable (preferredCommand : option jsstring) : M bool :=
  let key := match preferredCommand with
             | Some (c :: p) => c :: p
             | _ => js "__auto__"
             end in
  let* checked := gets qmdChecked in
  let* checkKey := gets qmdCheckKey in
  if checked && bool_decide (checkKey = key) then gets qmdAvailable
  else
    modify (set_qmdChecked true) ;;
    modify (set_qmdCheckKey key) ;;
    modify (set_qmdAvailable false) ;;
    modify (set_qmdCommandPath None) ;;
    let* home := asks homedir in
    let bundledQmd := Path.path_join [home; js ".bun/bin/qmd"] in
    let candidates := match preferredCommand with
                      | Some (c :: p) => [c :: p]
                      | _ => [bundledQmd; js "qmd"]
                      end in
    probe_candidates candidates ;;
    (* finally *)
    let* available := gets qmdAvailable in
    (if negb available then modify (set_qmdCommandPath None) else ret tt) ;;
    gets qmdAvailable.

Definition isDisableExpansionPatchedQmd (w : world) (commandPath : option jsstring) : bool :=
  match commandPath with
  | None | Some [] => false
  | Some path =>
      let bunGlobalQmd := Path.path_join [homedir w; js ".bun/bin/qmd"] in
      let patchedStoreTs :=
        Path.path_join [homedir w; js ".bun/install/global/node_modules/qmd/src/store.ts"] in
      if negb (bool_decide (path = bunGlobalQmd)) || negb (existsSync w patchedStoreTs)
      then false
      else match readFileSync w patchedStoreTs with
           | Ok src => includes src (js "QMD_VSEARCH_DISABLE_EXPANSION")
           | Throw _ => false
           end
  end.

Definition isDisableExpansionSupported : M bool :=
  let* path := gets qmdCommandPath in
  let key := match path with
             | Some (c :: p) => c :: p
             | _ => js "__unknown__"
             end in
  let* checkKey := gets qmdDisableExpansionCheckKey in
  if bool_decide (checkKey = key) then gets qmdDisableExpansionSupported
  else
    modify (set_qmdDisableExpansionCheckKey key) ;;
    let* supported := asks (fun w => isDisableExpansionPatchedQmd w path) in
    modify (set_qmdDisableExpansionSupported supported) ;;
    gets qmdDisableExpansionSupported.

Definition shouldUseMemoryForChannel (channel : jsstring) : bool :=
  bool_decide (channel ∈ MEMORY_CHANNELS).

Definition ensureCollection (agentId : jsstring) : M jsstring :=
  let* root := asks MEMORY_ROOT in
  ensureDir root ;;
  let* agentTurnsDir := asks (fun w => getAgentTurnsDir w agentId) in
  ensureDir agentTurnsDir ;;
  let collectionName := getCollectionName agentId in
  let* prepared := gets collectionPrepared in
  (if negb (bool_decide (collectionName ∈ prepared)) then
     try_catch
       (let* cmd := gets qmd_command in
        runCommand cmd
          [js "collection"; js "add"; agentTurnsDir; js "--name"; collectionName;
           js "--mask"; js "**/*.md"] 10000 [] ;;
        modify (fun st => set_collectionPrepared ({[collectionName]} ∪ collectionPrepared st) st))
       (fun error =>
          let msg := toLowerCase (message error) in
          if includes msg (js "already") || includes msg (js "exists")
          then modify (fun st => set_collectionPrepared ({[collectionName]} ∪ collectionPrepared st) st)
          else throw error)
   else ret tt) ;;
  ret collectionName.

(** [lastCollectionUpdateMs.get(name) || 0] *)
Definition last_update (st : state) (collectionName : jsstring) : number :=
  match lastCollectionUpdateMs st !! collectionName with
  | Some t => if truthy (VNum t) then t else 0%float
  | None => 0%float
  end.

Definition maybeUpdateCollection (collectionName : jsstring)
    (updateIntervalSeconds : number) : M unit :=
  let* now := date_now in
  let* last := gets (fun st => last_update st collectionName) in
  if PrimFloat.ltb (now - last) (updateIntervalSeconds * 1000) then ret tt
  else
    let* cmd := gets qmd_command in
    runCommand cmd [js "update"; js "--collections"; collectionName] 15000 [] ;;
    modify (fun st => set_lastCollectionUpdateMs
                        (<[collectionName := now]> (lastCollectionUpdateMs st)) st).

(** [/\s+/g] *)
Definition re_spaces : regex := Rep 1 None (Cls is_space).

(** [/[?？!！,，.。;；:：]/g] *)
Definition re_punctuation : regex :=
  Cls (fun c => bool_decide
                  (c ∈ [63; 0xFF1F; 33; 0xFF01; 44; 0xFF0C; 46; 0x3002;
                        59; 0xFF1B; 58; 0xFF1A])).

(** [/是什么|是啥|什么|多少|几点|哪里|哪儿|哪个|哪位|谁|吗|呢|来着/g] *)
Definition re_zh_question : regex :=
  alts (map lit
          [[0x662F; 0x4EC0; 0x4E48]; [0x662F; 0x5565]; [0x4EC0; 0x4E48];
           [0x591A; 0x5C11]; [0x51E0; 0x70B9]; [0x54EA; 0x91CC];
           [0x54EA; 0x513F]; [0x54EA; 0x4E2A]; [0x54EA; 0x4F4D];
           [0x8C01]; [0x5417]; [0x5462]; [0x6765; 0x7740]]).

(** [/\b(what|which|who|where|when|why|how)\b/gi] *)
Definition re_en_question : regex :=
  seqs [WordB;
        Grp (alts (map (fun w => lit (js w))
                     ["what"; "which"; "who"; "where"; "when"; "why"; "how"]%string));
        WordB].

(** The closure [push] of [buildLexicalQueryVariants]. *)
Definition push (variants : list jsstring) (value : jsstring) : list jsstring :=
  let cleaned := replace_all false re_spaces (js " ") (trim value) in
  match cleaned with
  | [] => variants
  | _ => if bool_decide (cleaned ∈ variants) then variants
         else variants ++ [cleaned]
  end.

Definition buildLexicalQueryVariants (message : jsstring) : list jsstring :=
  let variants := [] in
  let variants := push variants message in
  let noPunct := replace_all false re_punctuation (js " ") message in
  let variants := push variants noPunct in
  (* Chinese question-particle normalization *)
  let zhSimplified :=
    replace_all false re_spaces (js " ")
      (replace_all false re_zh_question (js " ") noPunct) in
  let variants := push variants zhSimplified in
  (* English question-word normalization *)
  let enSimplified :=
    replace_all false re_spaces (js " ")
      (replace_all true re_en_question (js " ") noPunct) in
  let variants := push variants enSimplified in
  (* Code-friendly variant: treat hyphen as delimiter *)
  push variants (replace_all false (Chr 45) (js " ") noPunct).

(** One row of the backend's output, if it carries snippet text. *)
Definition row_result (row : value) : option QmdResult :=
  match row with
  | VObj _ | VArr _ =>
      let r := get_opt row in
      let score := match r (js "score") with VNum x => x | _ => 0%float end in
      let snippet :=
        trim (to_string
                (or_else (r (js "snippet"))
                   (or_else (r (js "context"))
                      (or_else (r (js "text"))
                         (or_else (r (js "content")) (VStr [])))))) in
      let source :=
        trim (to_string
                (or_else (r (js "path"))
                   (or_else (r (js "file"))
                      (or_else (r (js "source"))
                         (or_else (r (js "title")) (VStr [])))))) in
      match snippet with
      | [] => None
      | _ => Some (MkResult score snippet source)
      end
  | _ => None
  end.

Definition parseQmdResults (raw : jsstring) : res (list QmdResult) :=
  let trimmed := trim raw in
  match trimmed with
  | [] => Ok []
  | _ =>
      match Json.parse trimmed with
      | Throw _ => Ok []
      | Ok parsed =>
          let rows :=
            match parsed with
            | VArr _ => Ok parsed
            | _ => match get parsed (js "results") with
                   | Ok r => Ok (or_else r (VArr []))
                   | Throw e => Throw e
                   end
            end in
          match rows with
          | Throw e => Throw e
          | Ok rows =>
              match iterate (js "rows") rows with
              | Throw e => Throw e
              | Ok items => Ok (omap row_result items)
              end
          end
      end
  end.

Definition normalizeInline (text : jsstring) : jsstring :=
  trim (replace_all false re_spaces (js " ") text).

Definition truncateInline (text : jsstring) (max : nat) : jsstring :=
  if (length text <=? max)%nat then text
  else take max text ++ js "...".

Definition newline : jsstring := [10].
Definition userMarker : jsstring := newline ++ js "## User" ++ newline.
Definition assistantMarker : jsstring := newline ++ js "## Assistant" ++ newline.

Definition parseTurnSections (content : jsstring) : TurnSections :=
  let userPos := indexOf content userMarker in
  let assistantPos := indexOf content assistantMarker in
  if (userPos <? 0)%Z || (assistantPos <? 0)%Z || (assistantPos <=? userPos)%Z
  then MkSections [] []
  else
    let userStart := (userPos + slen userMarker)%Z in
    let userText := trim (slice content userStart assistantPos) in
    let assistantStart := (assistantPos + slen assistantMarker)%Z in
    let assistantText := trim (slice_from content assistantStart) in
    MkSections userText assistantText.

(** [/^qmd:\/\/[^/]+\/(.+)$/] *)
Definition re_qmd_source : regex :=
  seqs [Bol; lit (js "qmd://");
        Rep 1 None (Cls (fun c => negb (c =? 47)));
        Chr 47;
        Grp (Rep 1 None (Cls (fun c => negb (is_line_terminator c))));
        Eol].

Definition loadTurnSectionsFromSource (w : world) (source agentId : jsstring)
  : res (option TurnSections) :=
  match exec false re_qmd_source source with
  | None => Ok None
  | Some m =>
      match Uri.decodeURIComponent
              (match capture m with Some g => g | None => [] end) with
      | Throw e => Throw e
      | Ok rel =>
          let fullPath := Path.path_join [getAgentTurnsDir w agentId; rel] in
          if negb (existsSync w fullPath) then Ok None
          else match readFileSync w fullPath with
               | Ok content => Ok (Some (parseTurnSections content))
               | Throw _ => Ok None
               end
      end
  end.

(** [/不知道|没有.*信息|无法|不清楚|need more context|don't have any
    information|i don't have|not enough information/i] *)
Definition re_low_confidence : regex :=
  alts [lit [0x4E0D; 0x77E5; 0x9053];
        seqs [lit [0x6CA1; 0x6709];
              Rep 0 None (Cls (fun c => negb (is_line_terminator c)));
              lit [0x4FE1; 0x606F]];
        lit [0x65E0; 0x6CD5];
        lit [0x4E0D; 0x6E05; 0x695A];
        lit (js "need more context");
        lit (js "don't have any information");
        lit (js "i don't have");
        lit (js "not enough information")].

Definition isLowConfidenceAnswer (text : jsstring) : bool :=
  test true re_low_confidence text.

(** [/[a-z0-9_-]{2,}|[\u4e00-\u9fff]{1,3}/g] *)
Definition re_term : regex :=
  Alt (Rep 2 None (Cls (fun c => is_lower c || is_digit c || (c =? 95) || (c =? 45))))
      (Rep 1 (Some 3%nat) (Cls (fun c => (0x4E00 <=? c) && (c <=? 0x9FFF)))).

(** [/\b[A-Z]{3,}(?:-[A-Z0-9]+){2,}\b/] *)
Definition codePattern : regex :=
  seqs [WordB;
        Rep 3 None (Cls is_upper);
        Rep 2 None (Seq (Chr 45) (Rep 1 None (Cls (fun c => is_upper c || is_digit c))));
        WordB].

(** [/代号|key|code|是|喜欢|likes?/i] *)
Definition re_identity_cue : regex :=
  alts [lit [0x4EE3; 0x53F7]; lit (js "key"); lit (js "code"); lit [0x662F];
        lit [0x559C; 0x6B22];
        Seq (lit (js "like")) (Rep 0 (Some 1%nat) (Chr 115))].

(** [Array.from(new Set(xs))]: the first occurrence of each element. *)
Fixpoint dedupe (seen xs : list jsstring) : list jsstring :=
  match xs with
  | [] => []
  | x :: rest =>
      if bool_decide (x ∈ seen) then dedupe seen rest
      else x :: dedupe (x :: seen) rest
  end.

(** The callback of [results.map] in [rerankAndHydrateResults]. *)
Definition hydrate (w : world) (terms : list jsstring) (agentId : jsstring)
    (result : QmdResult) : res QmdResult :=
  match loadTurnSectionsFromSource w (source result) agentId with
  | Throw e => Throw e
  | Ok sections =>
      match sections with
      | Some (MkSections u (a0 :: a)) =>
          let user := normalizeInline u in
          let assistant := normalizeInline (a0 :: a) in
          let snippet :=
            match assistant with
            | [] => snippet result
            | _ => js "User: " ++ truncateInline user 180 ++ newline
                   ++ js "Assistant: " ++ truncateInline assistant 260
            end in
          let score := score result in
          let score := if test false codePattern assistant
                       then (score + 0.5)%float else score in
          let score := if test true re_identity_cue assistant
                       then (score + 0.2)%float else score in
          let score := if isLowConfidenceAnswer assistant
                       then (score - 0.5)%float else score in
          let hay := toLowerCase (user ++ js " " ++ assistant) in
          let score := fold_left
                         (fun sc t => if includes hay t then (sc + 0.04)%float else sc)
                         terms score in
          Ok (MkResult score snippet (source result))
      | _ => Ok (MkResult (score result) (snippet result) (source result))
      end
  end.

Fixpoint map_res {A B} (f : A -> res B) (xs : list A) : res (list B) :=
  match xs with
  | [] => Ok []
  | x :: rest =>
      match f x with
      | Throw e => Throw e
      | Ok y => match map_res f rest with
                | Throw e => Throw e
                | Ok ys => Ok (y :: ys)
                end
      end
  end.

(** The comparator [(a, b) => b.score - a.score] asks for [b] before [a]
    when its value is positive; a [NaN] value counts as zero. *)
Definition comes_after (a b : QmdResult) : bool :=
  PrimFloat.ltb 0 (score b - score a).

(** [Array.prototype.sort] is stable; with a consistent comparator, which
    this one is whenever no score is [NaN], the sorted array is the one a
    stable insertion sort builds. *)
Fixpoint insert_sorted (x : QmdResult) (sorted : list QmdResult) : list QmdResult :=
  match sorted with
  | [] => [x]
  | y :: rest => if comes_after x y then y :: insert_sorted x rest
                 else x :: y :: rest
  end.

Definition sort_by_score (xs : list QmdResult) : list QmdResult :=
  foldr insert_sorted [] xs.

Definition rerankAndHydrateResults (w : world) (results : list QmdResult)
    (message agentId : jsstring) : res (list QmdResult) :=
  match results with
  | [] => Ok results
  | _ =>
      let terms := dedupe [] (match_all false re_term (toLowerCase message)) in
      match map_res (hydrate w terms agentId) results with
      | Throw e => Throw e
      | Ok mapped => Ok (sort_by_score mapped)
      end
  end.

Definition search_args (verb query collectionName n : jsstring) (qmdCfg : QmdConfig)
  : list jsstring :=
  [verb; query; js "--json"; js "-c"; collectionName; js "-n"; n;
   js "--min-score"; number_to_string (minScore qmdCfg)].

(** The loop of [quickHasLexicalHit]. *)
Fixpoint quick_hit_loop (variants : list jsstring) (collectionName : jsstring)
    (qmdCfg : QmdConfig) : M bool :=
  match variants with
  | [] => ret false
  | query :: rest =>
      let args := search_args (js "search") query collectionName (js "1") qmdCfg in
      let* cmd := gets qmd_command in
      let* out := runCommand cmd args (precheckTimeoutMs qmdCfg) [] in
      let* hits := lift (parseQmdResults (stdout out)) in
      match hits with
      | _ :: _ => ret true
      | [] => quick_hit_loop rest collectionName qmdCfg
      end
  end.

Definition quickHasLexicalHit (message collectionName : jsstring)
    (qmdCfg : QmdConfig) : M bool :=
  quick_hit_loop (buildLexicalQueryVariants message) collectionName qmdCfg.

Definition block_of (i : nat) (result : QmdResult) : jsstring :=
  join newline
    [js "Snippet " ++ digits (Z.of_nat i + 1) ++ js " (score="
       ++ toFixed3 (score result) ++ js "):";
     match source result with
     | [] => js "Source: unknown"
     | src => js "Source: " ++ src
     end;
     snippet result].

(** The loop of [formatMemoryPrompt]: the blocks pushed before the first
    one that does not fit. *)
Fixpoint prompt_blocks (rs : list QmdResult) (i : nat) (usedChars maxChars : number)
  : list jsstring :=
  match rs with
  | [] => []
  | result :: rest =>
      let block := block_of i result in
      let used := (usedChars + of_Z (slen block))%float in
      if PrimFloat.ltb maxChars used then []
      else block :: prompt_blocks rest (S i) used maxChars
  end.

Definition prompt_header : jsstring :=
  join newline
    [[]; js "---";
     js "Retrieved memory snippets (from past conversations):";
     js "Use only if relevant. Prioritize current user instructions over old memory.";
     []].

Definition formatMemoryPrompt (results : list QmdResult) (maxChars : number) : jsstring :=
  match results with
  | [] => []
  | _ =>
      match prompt_blocks results 0 0 maxChars with
      | [] => []
      | blocks =>
          join newline
            [[]; js "---";
             js "Retrieved memory snippets (from past conversations):";
             js "Use only if relevant. Prioritize current user instructions over old memory.";
             [];
             join (newline ++ newline) blocks]
      end
  end.

Definition warn_once (msg : jsstring) : M unit :=
  let* logged := gets qmdUnsafeFallbackLogged in
  if negb logged then
    log (js "WARN") msg ;;
    modify (set_qmdUnsafeFallbackLogged true)
  else ret tt.

Definition resolveRetrievalMode (qmdCfg : QmdConfig) : M (bool * jsstring) :=
  let* useVsearch :=
    if useSemanticSearch qmdCfg && negb (allowUnsafeVsearch qmdCfg) then
      if negb (disableQueryExpansion qmdCfg) then
        warn_once (js "QMD vsearch requested without disable_query_expansion; fallback to BM25 for safety. Set memory.qmd.allow_unsafe_vsearch=true to override.") ;;
        ret false
      else
        let* supported := isDisableExpansionSupported in
        if negb supported then
          warn_once (js "QMD disable-query-expansion support not detected; fallback to BM25 to avoid unexpected model downloads. Run scripts/patch-qmd-no-expansion.sh or set memory.qmd.allow_unsafe_vsearch=true.") ;;
          ret false
        else ret true
    else ret (useSemanticSearch qmdCfg) in
  ret (useVsearch, if useVsearch then js "qmd-vsearch" else js "qmd-bm25").

(** The loop of [runBm25WithVariants]. *)
Fixpoint bm25_loop (variants : list jsstring) (lastQuery collectionName : jsstring)
    (qmdCfg : QmdConfig) : M QueryResult :=
  match variants with
  | [] => ret (MkQueryResult [] lastQuery)
  | query :: rest =>
      let args := search_args (js "search") query collectionName
                    (number_to_string (topK qmdCfg)) qmdCfg in
      let* cmd := gets qmd_command in
      let* out := runCommand cmd args (searchTimeoutMs qmdCfg) [] in
      let* found := lift (parseQmdResults (stdout out)) in
      match found with
      | _ :: _ => ret (MkQueryResult found query)
      | [] => bm25_loop rest query collectionName qmdCfg
      end
  end.

Definition runBm25WithVariants (message collectionName : jsstring)
    (qmdCfg : QmdConfig) : M QueryResult :=
  bm25_loop (buildLexicalQueryVariants message) message collectionName qmdCfg.

Definition bool_string (b : bool) : jsstring :=
  if b then js "true" else js "false".

(** The primary query of [enrichMessageWithMemory]. *)
Definition run_query (useVsearch : bool) (message collectionName : jsstring)
    (qmdCfg : QmdConfig) : M QueryResult :=
  if useVsearch then
    let queryArgs := search_args (js "vsearch") message collectionName
                       (number_to_string (topK qmdCfg)) qmdCfg in
    let queryEnv := if disableQueryExpansion qmdCfg
                    then [(js "QMD_VSEARCH_DISABLE_EXPANSION", js "1")] else [] in
    let* cmd := gets qmd_command in
    let* out := runCommand cmd queryArgs (vectorSearchTimeoutMs qmdCfg) queryEnv in
    let* found := lift (parseQmdResults (stdout out)) in
    ret (MkQueryResult found message)
  else runBm25WithVariants message collectionName qmdCfg.

(** The [logQmdDebug] lines of [enrichMessageWithMemory]. *)
Definition debug_qmd (agentId : jsstring) (qmdCfg : QmdConfig) (cmd : jsstring) : M unit :=
  logQmdDebug agentId qmdCfg (js "qmd") (js "command=" ++ cmd).

Definition debug_collection (agentId : jsstring) (qmdCfg : QmdConfig)
    (collectionName : jsstring) : M unit :=
  logQmdDebug agentId qmdCfg (js "collection") (js "name=" ++ collectionName).

Definition debug_update (agentId : jsstring) (qmdCfg : QmdConfig) : M unit :=
  logQmdDebug agentId qmdCfg (js "update")
    (js "interval=" ++ number_to_string (updateIntervalSeconds qmdCfg) ++ js "s").

Definition debug_precheck (agentId message : jsstring) (qmdCfg : QmdConfig) : M unit :=
  logQmdDebug agentId qmdCfg (js "precheck")
    (js "cmd=search timeout=" ++ number_to_string (precheckTimeoutMs qmdCfg)
     ++ js "ms min_score=" ++ number_to_string (minScore qmdCfg)
     ++ js " variants="
     ++ digits (slen' (buildLexicalQueryVariants message))).

Definition debug_query (agentId : jsstring) (qmdCfg : QmdConfig) (useVsearch : bool)
    (label : jsstring) : M unit :=
  let queryTimeoutMs := if useVsearch then vectorSearchTimeoutMs qmdCfg
                        else searchTimeoutMs qmdCfg in
  logQmdDebug agentId qmdCfg (js "query")
    (js "mode=" ++ label ++ js " timeout=" ++ number_to_string queryTimeoutMs
     ++ js "ms top_k=" ++ number_to_string (topK qmdCfg)
     ++ js " min_score=" ++ number_to_string (minScore qmdCfg)
     ++ js " disable_expansion=" ++ bool_string (disableQueryExpansion qmdCfg)).

Definition debug_query_used (agentId : jsstring) (qmdCfg : QmdConfig)
    (label used : jsstring) : M unit :=
  logQmdDebug agentId qmdCfg (js "query-used")
    (js "mode=" ++ label ++ js " query=" ++ [34] ++ used ++ [34]).

(** The quick precheck of [enrichMessageWithMemory] with its own
    [try]/[catch]: whether retrieval goes on. *)
Definition precheck_gate (agentId message collectionName : jsstring)
    (qmdCfg : QmdConfig) : M bool :=
  if quickPrecheckEnabled qmdCfg then
    try_catch
      (debug_precheck agentId message qmdCfg ;;
       let* hasQuickHit := quickHasLexicalHit message collectionName qmdCfg in
       if negb hasQuickHit then
         log (js "INFO") (js "Memory source for @" ++ agentId
                          ++ js ": none (qmd precheck no-hit)") ;;
         ret false
       else ret true)
      (fun error =>
         log (js "WARN") (js "Memory quick precheck skipped for @" ++ agentId
                          ++ js ": " ++ message_of error) ;;
         log (js "INFO") (js "Memory source for @" ++ agentId
                          ++ js ": none (qmd precheck error)") ;;
         ret false)
  else ret true.

(** The end of the [try] block, from the hits of the query. *)
Definition compose (agentId message label : jsstring) (qmdCfg : QmdConfig)
    (found : list QmdResult) : M jsstring :=
  match found with
  | [] =>
      log (js "INFO") (js "Memory source for @" ++ agentId ++ js ": none ("
                       ++ label ++ js " no-hit)") ;;
      ret message
  | _ =>
      let* ranked := asks (fun w => rerankAndHydrateResults w found message agentId) in
      let* rankedResults := lift ranked in
      let memoryBlock := formatMemoryPrompt rankedResults (maxChars qmdCfg) in
      match memoryBlock with
      | [] =>
          log (js "INFO") (js "Memory source for @" ++ agentId ++ js ": none ("
                           ++ label ++ js " no-usable-snippet)") ;;
          ret message
      | _ =>
          log (js "INFO") (js "Memory retrieval hit for @" ++ agentId ++ js ": "
                           ++ digits (slen' rankedResults)
                           ++ js " snippet(s) via " ++ label) ;;
          log (js "INFO") (js "Memory source for @" ++ agentId ++ js ": " ++ label) ;;
          ret (message ++ memoryBlock)
      end
  end.

(** What follows the precheck inside the [try] block. *)
Definition retrieve (agentId message collectionName : jsstring)
    (qmdCfg : QmdConfig) : M jsstring :=
  let* mode := resolveRetrievalMode qmdCfg in
  debug_query agentId qmdCfg (fst mode) (snd mode) ;;
  let* queryResult := run_query (fst mode) message collectionName qmdCfg in
  debug_query_used agentId qmdCfg (snd mode) (query queryResult) ;;
  compose agentId message (snd mode) qmdCfg (results queryResult).

(** The [try] block of [enrichMessageWithMemory]. *)
Definition enrich_body (agentId message : jsstring) (qmdCfg : QmdConfig)
  : M jsstring :=
  let* collectionName := ensureCollection agentId in
  debug_collection agentId qmdCfg collectionName ;;
  maybeUpdateCollection collectionName (updateIntervalSeconds qmdCfg) ;;
  debug_update agentId qmdCfg ;;
  let* proceed := precheck_gate agentId message collectionName qmdCfg in
  if negb proceed then ret message
  else retrieve agentId message collectionName qmdCfg.

Definition enrichMessageWithMemory (agentId message : jsstring)
    (settings : Settings) (sourceChannel : jsstring) : M jsstring :=
  let qmdCfg := getQmdConfig settings in
  if negb (enabled qmdCfg) then ret message
  else if negb (shouldUseMemoryForChannel sourceChannel) then ret message
  else
    let* hasQmd := isQmdAvailable (command qmdCfg) in
    if negb hasQmd then
      let* logged := gets qmdUnavailableLogged in
      (if negb logged then
         log (js "WARN") (js "qmd not found in PATH, memory retrieval disabled") ;;
         modify (set_qmdUnavailableLogged true)
       else ret tt) ;;
      log (js "INFO") (js "Memory source for @" ++ agentId
                       ++ js ": none (qmd unavailable)") ;;
      ret message
    else
      let* cmd := gets qmd_command in
      debug_qmd agentId qmdCfg cmd ;;
      try_catch
        (enrich_body agentId message qmdCfg)
        (fun error =>
           log (js "WARN") (js "Memory retrieval skipped for @" ++ agentId
                            ++ js ": " ++ message_of error) ;;
           log (js "INFO") (js "Memory source for @" ++ agentId
                            ++ js ": none (qmd error)") ;;
           ret message).

(** [/[:.]/g] *)
Definition re_colon_dot : regex := Cls (fun c => (c =? 58) || (c =? 46)).

Definition timestampFilename (ts : number) : res jsstring :=
  match Date.toISOString ts with
  | Ok iso => Ok (replace_all false re_colon_dot (js "-") iso)
  | Throw e => Throw e
  end.

Definition truncate (text : jsstring) : jsstring :=
  if (slen text <=? 16000)%Z then text
  else take (Z.to_nat 16000) text ++ newline ++ newline ++ js "[truncated]".

Record TurnParams : Type := MkTurn {
  p_agentId : jsstring;
  p_agentName : jsstring;              (* [params.agent.name] *)
  p_channel : jsstring;
  p_sender : jsstring;
  p_messageId : jsstring;
  p_userMessage : jsstring;
  p_agentResponse : jsstring;
  p_timestampMs : option number;
}.

(** The text [saveTurnToMemory] writes for a turn stamped [iso]. *)
Definition turn_lines (params : TurnParams) (iso : jsstring) : list jsstring :=
  [js "# Turn for @" ++ p_agentId params ++ js " (" ++ p_agentName params ++ js ")";
   [];
   js "- Timestamp: " ++ iso;
   js "- Channel: " ++ p_channel params;
   js "- Sender: " ++ p_sender params;
   js "- Message ID: " ++ p_messageId params;
   [];
   js "## User";
   [];
   truncate (p_userMessage params);
   [];
   js "## Assistant";
   [];
   truncate (p_agentResponse params);
   []].

Definition turn_file (w : world) (params : TurnParams) (stamp : jsstring) : jsstring :=
  Path.path_join [getAgentTurnsDir w (p_agentId params);
                  stamp ++ js "-" ++ p_messageId params ++ js ".md"].

(** The [try] block of [saveTurnToMemory]. *)
Definition save_turn_body (params : TurnParams) : M unit :=
  let* timestampMs :=
    match p_timestampMs params with
    | Some t => if truthy (VNum t) then ret t else date_now
    | None => date_now
    end in
  let* dir := asks (fun w => getAgentTurnsDir w (p_agentId params)) in
  ensureDir dir ;;
  let* stamp := lift (timestampFilename timestampMs) in
  let* filePath := asks (fun w => turn_file w params stamp) in
  let* iso := lift (Date.toISOString timestampMs) in
  writeFileSync filePath (join newline (turn_lines params iso)).

Definition saveTurnToMemory (params : TurnParams) : M unit :=
  try_catch
    (save_turn_body params)
    (fun error =>
       log (js "WARN") (js "Failed to persist memory turn for @" ++ p_agentId params
                        ++ js ": " ++ message_of error)).

End Memory.
Import Memory.

(* ===================================================================== *)
(** * Properties *)
(* ===================================================================== *)

Local Open Scope monad_scope.

(** ** Running the monad *)

Lemma bind_ok {A B} (m : M A) (k : A -> M B) s a s' :
  m s = (Ok a, s') -> bind m k s = k a s'.
Proof. unfold bind. intros ->. reflexivity. Qed.

Lemma bind_throw {A B} (m : M A) (k : A -> M B) s e s' :
  m s = (Throw e, s') -> bind m k s = (Throw e, s').
Proof. unfold bind. intros ->. reflexivity. Qed.

Lemma try_catch_ok {A} (m : M A) h s a s' :
  m s = (Ok a, s') -> try_catch m h s = (Ok a, s').
Proof. unfold try_catch. intros ->. reflexivity. Qed.

Lemma try_catch_throw {A} (m : M A) h s e s' :
  m s = (Throw e, s') -> try_catch m h s = h e s'.
Proof. unfold try_catch. intros ->. reflexivity. Qed.

(** The state after a computation, and what it returned or threw. *)
Definition after {A} (m : M A) (s : env) : env := snd (m s).
Definition outcome_of {A} (m : M A) (s : env) : res A := fst (m s).

Lemma run_eq {A} (m : M A) s : m s = (outcome_of m s, after m s).
Proof. unfold outcome_of, after. destruct (m s); reflexivity. Qed.

(** A computation that cannot throw. *)
Definition safe {A} (m : M A) : Prop :=
  forall s, exists a s', m s = (Ok a, s').

Lemma safe_ret {A} (a : A) : safe (ret a).
Proof. intros s. eexists _, _. reflexivity. Qed.

Lemma safe_bind {A B} (m : M A) (k : A -> M B) :
  safe m -> (forall a, safe (k a)) -> safe (bind m k).
Proof.
  intros Hm Hk s. destruct (Hm s) as (a & s' & E).
  rewrite (bind_ok _ _ _ _ _ E). apply Hk.
Qed.

Lemma safe_gets {A} (f : state -> A) : safe (gets f).
Proof. intros s. eexists _, _. reflexivity. Qed.

Lemma safe_asks {A} (f : world -> A) : safe (asks f).
Proof. intros s. eexists _, _. reflexivity. Qed.

Lemma safe_modify f : safe (modify f).
Proof. intros s. eexists _, _. reflexivity. Qed.

Lemma safe_log level msg : safe (log level msg).
Proof. intros s. eexists _, _. reflexivity. Qed.

Lemma safe_date_now : safe date_now.
Proof.
  intros s. unfold date_now. destruct (clock (the_world s)); eexists _, _; reflexivity.
Qed.

Lemma safe_try_catch {A} (m : M A) h :
  (forall e, safe (h e)) -> safe (try_catch m h).
Proof.
  intros Hh s. unfold try_catch.
  destruct (m s) as [[a|e] s'].
  - eexists _, _. reflexivity.
  - apply Hh.
Qed.

Lemma safe_if {A} (b : bool) (m1 m2 : M A) :
  safe m1 -> safe m2 -> safe (if b then m1 else m2).
Proof. destruct b; auto. Qed.

Lemma safe_logQmdDebug agentId cfg stage details :
  safe (logQmdDebug agentId cfg stage details).
Proof. unfold logQmdDebug. apply safe_if; [apply safe_ret | apply safe_log]. Qed.

Create HintDb safe_db.
#[local] Hint Resolve safe_ret safe_gets safe_asks safe_modify safe_log
  safe_date_now safe_logQmdDebug : safe_db.
#[local] Hint Extern 2 (safe (bind _ _)) => apply safe_bind; [ | intros ] : safe_db.
#[local] Hint Extern 2 (safe (try_catch _ _)) => apply safe_try_catch; intros : safe_db.
#[local] Hint Extern 2 (safe (if _ then _ else _)) => apply safe_if : safe_db.

Ltac safe_tac := auto 20 with safe_db.

(** ** Spawned processes (runCommand) *)

(** A process that ends well: it closes with exit code 0. *)
Definition succeeded (o : outcome) : bool :=
  match o with
  | Closed code _ _ => bool_decide (code = Some 0%Z)
  | _ => false
  end.

(** [runCommand] resolves with what the process wrote when it ends well,
    and rejects when it exits with another code, is killed at the time-out
    or cannot be started. *)
Lemma runCommand_settles command args timeoutMs env s :
  match script (the_world s) with
  | o :: _ =>
      if succeeded o
      then exists out err, o = Closed (Some 0%Z) out err
             /\ outcome_of (runCommand command args timeoutMs env) s
                = Ok (MkCommandResult out err)
      else is_throw (outcome_of (runCommand command args timeoutMs env) s) = true
  | [] => is_throw (outcome_of (runCommand command args timeoutMs env) s) = true
  end.
Proof.
  unfold outcome_of, runCommand.
  destruct (script (the_world s)) as [|[code out err | msg | ] rest]; try reflexivity.
  unfold succeeded. destruct (bool_decide_reflect (code = Some 0%Z)) as [-> | Hn].
  - exists out, err. split; reflexivity.
  - reflexivity.
Qed.

(** ** Retrieval mode (resolveRetrievalMode) *)

Lemma safe_isDisableExpansionSupported : safe isDisableExpansionSupported.
Proof. unfold isDisableExpansionSupported. safe_tac. Qed.

(** What [isDisableExpansionSupported] answers in a given state: whether the
    resolved backend is verified to support suppressing query expansion. *)
Definition suppression_verified (s : env) : bool :=
  match fst (isDisableExpansionSupported s) with
  | Ok b => b
  | Throw _ => false
  end.

Lemma safe_warn_once msg : safe (warn_once msg).
Proof. unfold warn_once. safe_tac. Qed.

Lemma resolveRetrievalMode_run cfg s :
  exists s',
    resolveRetrievalMode cfg s
    = (Ok (let v := useSemanticSearch cfg
                    && (allowUnsafeVsearch cfg
                        || (disableQueryExpansion cfg && suppression_verified s)) in
           (v, if v then js "qmd-vsearch" else js "qmd-bm25")), s').
Proof.
  unfold resolveRetrievalMode, suppression_verified, isDisableExpansionSupported,
    warn_once, log, modify_world, modify, gets, asks, bind, ret.
  destruct (useSemanticSearch cfg), (allowUnsafeVsearch cfg),
    (disableQueryExpansion cfg); cbn [andb orb negb fst snd the_state the_world];
    repeat case_match; simplify_eq/=; eexists; reflexivity.
Qed.

(** C2. Vector search is chosen exactly when semantic search is enabled and
    either the unsafe override is set, or query expansion is configured off
    and the resolved backend is verified to support suppressing it.  In
    particular, without the override: expansion not disabled gives lexical;
    expansion disabled and suppression unsupported gives lexical; expansion
    disabled and suppression supported gives vector.  With semantic search
    enabled and the override set the choice is vector whatever the support
    for suppression. *)
Theorem retrieval_mode_policy (cfg : QmdConfig) (s : env) :
  exists useVsearch label s',
    resolveRetrievalMode cfg s = (Ok (useVsearch, label), s')
    /\ label = (if useVsearch then js "qmd-vsearch" else js "qmd-bm25")
    /\ (useVsearch = true <->
        useSemanticSearch cfg = true
        /\ (allowUnsafeVsearch cfg = true
            \/ (disableQueryExpansion cfg = true /\ suppression_verified s = true)))
    /\ (useSemanticSearch cfg = true -> allowUnsafeVsearch cfg = false ->
        disableQueryExpansion cfg = false -> useVsearch = false)
    /\ (useSemanticSearch cfg = true -> allowUnsafeVsearch cfg = false ->
        disableQueryExpansion cfg = true -> suppression_verified s = false ->
        useVsearch = false)
    /\ (useSemanticSearch cfg = true -> allowUnsafeVsearch cfg = false ->
        disableQueryExpansion cfg = true -> suppression_verified s = true ->
        useVsearch = true)
    /\ (useSemanticSearch cfg = true -> allowUnsafeVsearch cfg = true ->
        useVsearch = true).
Proof.
  destruct (resolveRetrievalMode_run cfg s) as (s' & E).
  eexists _, _, s'. split; [exact E|]. split; [reflexivity|].
  destruct (useSemanticSearch cfg), (allowUnsafeVsearch cfg),
    (disableQueryExpansion cfg), (suppression_verified s); cbn;
    intuition congruence.
Qed.

(** ** Configuration (getQmdConfig) *)

Lemma SFcompare_refl x : x <> S754_nan -> SFcompare x x = Some Eq.
Proof.
  destruct x as [[]|[]| |[] m e]; cbn; try congruence;
    rewrite Z.compare_refl, Pos.compare_cont_refl; reflexivity.
Qed.

Lemma finite_not_nan x : is_finite x = true -> is_nan x = false.
Proof.
  unfold is_finite, is_nan. intros H. rewrite FloatAxioms.eqb_spec. unfold SFeqb.
  rewrite SFcompare_refl; [reflexivity|].
  destruct (Prim2SF x); congruence.
Qed.

(** [Math.max(floor, x)] of a positive finite [floor] and a finite [x] is at
    least [floor], and positive. *)
Lemma math_max_floor (floor x : number) m e :
  Prim2SF floor = S754_finite false m e ->
  is_finite x = true ->
  PrimFloat.leb floor (math_max floor x) = true
  /\ PrimFloat.ltb 0 (math_max floor x) = true.
Proof.
  intros Hf Hx. unfold math_max.
  rewrite (finite_not_nan x Hx).
  assert (is_nan floor = false) as ->.
  { unfold is_nan. rewrite FloatAxioms.eqb_spec, Hf. unfold SFeqb.
    rewrite SFcompare_refl by congruence. reflexivity. }
  cbn [orb].
  assert (PrimFloat.leb floor floor = true /\ PrimFloat.ltb 0 floor = true) as [Hff H0f].
  { rewrite FloatAxioms.leb_spec, FloatAxioms.ltb_spec, Hf. unfold SFleb, SFltb.
    rewrite SFcompare_refl by congruence. split; reflexivity. }
  destruct (PrimFloat.ltb floor x) eqn:Hlt.
  - split.
    + rewrite FloatAxioms.leb_spec. rewrite FloatAxioms.ltb_spec in Hlt. unfold SFleb, SFltb in *.
      destruct (SFcompare _ _) as [[]|]; congruence.
    + rewrite FloatAxioms.ltb_spec in *. rewrite Hf in Hlt. unfold SFltb in *.
      change (Prim2SF 0) with (S754_zero false).
      unfold is_finite in Hx.
      destruct (Prim2SF x) as [?|?| |[] ? ?]; cbn in *; congruence.
  - rewrite Hf. destruct (PrimFloat.ltb x floor); auto.
Qed.

Lemma finite_or_floor v floor fallback m e :
  Prim2SF floor = S754_finite false m e ->
  PrimFloat.leb floor fallback = true ->
  PrimFloat.ltb 0 fallback = true ->
  PrimFloat.leb floor (finite_or v (math_max floor) fallback) = true
  /\ PrimFloat.ltb 0 (finite_or v (math_max floor) fallback) = true.
Proof.
  intros Hf H1 H2. unfold finite_or.
  destruct v; auto. destruct (is_finite x) eqn:Hx; auto.
  eapply math_max_floor; eauto.
Qed.

(** C4, as the code has it.  Every clamped numeric field of the resolved
    configuration is at least its floor and so is positive: [topK >= 1],
    [maxChars >= 500], [updateIntervalSeconds >= 10],
    [precheckTimeoutMs >= 100], [searchTimeoutMs >= 500],
    [vectorSearchTimeoutMs >= 1000].  [minScore] has no floor: it is the
    configured number when that is finite and [0] otherwise, hence finite. *)
Theorem config_numbers_clamped (settings : Settings) :
  let cfg := getQmdConfig settings in
  (PrimFloat.leb 1 (topK cfg) = true /\ PrimFloat.ltb 0 (topK cfg) = true)
  /\ (PrimFloat.leb 500 (maxChars cfg) = true /\ PrimFloat.ltb 0 (maxChars cfg) = true)
  /\ (PrimFloat.leb 10 (updateIntervalSeconds cfg) = true
      /\ PrimFloat.ltb 0 (updateIntervalSeconds cfg) = true)
  /\ (PrimFloat.leb 100 (precheckTimeoutMs cfg) = true
      /\ PrimFloat.ltb 0 (precheckTimeoutMs cfg) = true)
  /\ (PrimFloat.leb 500 (searchTimeoutMs cfg) = true
      /\ PrimFloat.ltb 0 (searchTimeoutMs cfg) = true)
  /\ (PrimFloat.leb 1000 (vectorSearchTimeoutMs cfg) = true
      /\ PrimFloat.ltb 0 (vectorSearchTimeoutMs cfg) = true)
  /\ is_finite (minScore cfg) = true
  /\ minScore cfg
     = match get_opt (get_opt (get_opt (VObj settings) (js "memory")) (js "qmd"))
               (js "min_score") with
       | VNum x => if is_finite x then x else 0%float
       | _ => 0%float
       end.
Proof.
  cbv zeta. unfold getQmdConfig.
  cbn [topK maxChars updateIntervalSeconds precheckTimeoutMs searchTimeoutMs
       vectorSearchTimeoutMs minScore].
  repeat split;
    try (eapply finite_or_floor; [vm_compute; reflexivity | reflexivity | reflexivity]).
  - unfold finite_or. destruct (get_opt _ (js "min_score")); try reflexivity.
    destruct (is_finite x) eqn:E; [exact E | reflexivity].
Qed.

(** C4 as stated fails on [minScore]: with nothing configured it is zero,
    and a configured negative threshold is kept as it is. *)
Lemma config_minScore_unclamped :
  minScore (getQmdConfig []) = 0%float
  /\ PrimFloat.ltb 0 (minScore (getQmdConfig [])) = false
  /\ PrimFloat.ltb
       (minScore (getQmdConfig
                    [(js "memory",
                      VObj [(js "qmd", VObj [(js "min_score", VNum (-1)%float)])])]))
       0 = true.
Proof. vm_compute. repeat split. Qed.

(** ** Prompt composition (formatMemoryPrompt) *)

(** The running total [usedChars] after the blocks [bs], from [u]. *)
Definition used_chars_from (u : number) (bs : list jsstring) : number :=
  fold_left (fun u b => (u + of_Z (slen b))%float) bs u.

Definition used_chars (bs : list jsstring) : number := used_chars_from 0 bs.

Lemma join_length sep (parts : list jsstring) :
  length (join sep parts)
  = (list_sum (map length parts) + length sep * pred (length parts))%nat.
Proof.
  induction parts as [|p [|q rest] IH]; cbn [join]; cbn -[Nat.mul]; [lia..|].
  cbn [join map list_sum length pred] in IH.
  rewrite !length_app, IH. cbn -[Nat.mul]. lia.
Qed.

Lemma prompt_blocks_prefix rs i u maxChars :
  exists k, prompt_blocks rs i u maxChars
            = imap (fun j => block_of (i + j)) (take k rs).
Proof.
  revert i u. induction rs as [|r rs IH]; intros i u; cbn [prompt_blocks].
  - exists 0%nat. reflexivity.
  - destruct (PrimFloat.ltb _ _).
    + exists 0%nat. reflexivity.
    + destruct (IH (S i) (u + of_Z (slen (block_of i r)))%float) as (k & ->).
      exists (S k). cbn [take imap]. rewrite Nat.add_0_r. f_equal.
      apply imap_ext. intros j x _.
      change (block_of (S i + j) x = block_of (i + S j) x).
      rewrite Nat.add_succ_r. reflexivity.
Qed.

Lemma prompt_blocks_budget rs i u maxChars :
  prompt_blocks rs i u maxChars = []
  \/ PrimFloat.ltb maxChars
       (used_chars_from u (prompt_blocks rs i u maxChars)) = false.
Proof.
  revert i u. induction rs as [|r rs IH]; intros i u; cbn [prompt_blocks].
  - left. reflexivity.
  - destruct (PrimFloat.ltb maxChars (u + _)) eqn:E.
    + left. reflexivity.
    + right. cbn [used_chars_from fold_left].
      destruct (IH (S i) (u + of_Z (slen (block_of i r)))%float) as [-> | H].
      * exact E.
      * exact H.
Qed.

(** The loop stops at the first block that does not fit: the blocks
    included are those of the first [k] snippets, the running total is
    within the budget after each of them, and the block of the next
    snippet, if there is one, would take it over the budget. *)
Lemma prompt_blocks_stop rs i u maxChars :
  exists k,
    (k <= length rs)%nat
    /\ prompt_blocks rs i u maxChars = imap (fun j => block_of (i + j)) (take k rs)
    /\ (forall j, (j < k)%nat ->
          PrimFloat.ltb maxChars
            (used_chars_from u (take (S j) (prompt_blocks rs i u maxChars))) = false)
    /\ (forall next, rs !! k = Some next ->
          PrimFloat.ltb maxChars
            (used_chars_from u (prompt_blocks rs i u maxChars)
             + of_Z (slen (block_of (i + k) next))) = true).
Proof.
  revert i u. induction rs as [|r rs IH]; intros i u; cbn [prompt_blocks].
  - exists 0%nat. split; [reflexivity|]. split; [reflexivity|].
    split; [intros j Hj; lia | intros next [=]].
  - destruct (PrimFloat.ltb maxChars (u + _)) eqn:E.
    + exists 0%nat. split; [cbn; lia|]. split; [reflexivity|].
      split; [intros j Hj; lia|].
      intros next [= <-]. rewrite Nat.add_0_r. exact E.
    + destruct (IH (S i) (u + of_Z (slen (block_of i r)))%float)
        as (k & Hk & Eb & Hin & Hnext).
      exists (S k). split; [cbn [length]; lia|]. split.
      { rewrite Eb. cbn [take imap]. rewrite Nat.add_0_r. f_equal.
        apply imap_ext. intros j x _.
        change (block_of (S i + j) x = block_of (i + S j) x).
        rewrite Nat.add_succ_r. reflexivity. }
      split.
      * intros [|j] Hj; cbn [take used_chars_from fold_left]; [exact E|].
        apply Hin. lia.
      * intros next Hn. cbn [lookup list_lookup] in Hn.
        cbn [used_chars_from fold_left]. rewrite Nat.add_succ_r.
        exact (Hnext next Hn).
Qed.

Lemma formatMemoryPrompt_shape rs maxChars :
  formatMemoryPrompt rs maxChars
  = match prompt_blocks rs 0 0 maxChars with
    | [] => []
    | blocks => prompt_header ++ newline ++ join (newline ++ newline) blocks
    end.
Proof.
  unfold formatMemoryPrompt. destruct rs as [|r rs]; [reflexivity|].
  destruct (prompt_blocks (r :: rs) 0 0 maxChars); reflexivity.
Qed.

(** C3, as the code has it.  The budget bounds the blocks, not the string
    returned.  The blocks included are those of the leading snippets in rank
    order, for as long as the running total of their lengths stays within
    [maxChars]: the total as the loop adds it up is within [maxChars] after
    each block included, and the block of the first snippet left out, if
    there is one, would take it above [maxChars].  The result is empty when
    no block is included (in particular for no snippets, and when the first
    block alone is over the budget) and otherwise is the fixed header
    followed by the blocks with blank lines between them, so its length is
    the header's 134 and one for the line break, the blocks' lengths, and
    two for each separator; the top-ranked snippet is included whenever its
    block fits. *)
Theorem prompt_blocks_within_budget (rs : list QmdResult) (maxChars : number) :
  let blocks := prompt_blocks rs 0 0 maxChars in
  let out := formatMemoryPrompt rs maxChars in
  (exists k,
     (k <= length rs)%nat
     /\ blocks = imap block_of (take k rs)
     /\ (forall j, (j < k)%nat ->
           PrimFloat.ltb maxChars (used_chars (take (S j) blocks)) = false)
     /\ (forall next, rs !! k = Some next ->
           PrimFloat.ltb maxChars
             (used_chars blocks + of_Z (slen (block_of k next))) = true))
  /\ (blocks = [] \/ PrimFloat.ltb maxChars (used_chars blocks) = false)
  /\ (blocks = [] -> out = [])
  /\ (blocks <> [] ->
      out = prompt_header ++ newline ++ join (newline ++ newline) blocks
      /\ slen out
         = (135 + Z.of_nat (list_sum (map length blocks))
            + 2 * (Z.of_nat (length blocks) - 1))%Z)
  /\ (rs = [] -> out = [])
  /\ (forall top rest, rs = top :: rest ->
      PrimFloat.ltb maxChars (0 + of_Z (slen (block_of 0 top))) = true ->
      out = [])
  /\ (forall top rest, rs = top :: rest ->
      PrimFloat.ltb maxChars (0 + of_Z (slen (block_of 0 top))) = false ->
      head blocks = Some (block_of 0 top)).
Proof.
  cbv zeta. rewrite formatMemoryPrompt_shape.
  split; [exact (prompt_blocks_stop rs 0 0 maxChars)|].
  split; [exact (prompt_blocks_budget rs 0 0 maxChars)|].
  split; [intros ->; reflexivity|].
  split.
  { intros Hne. destruct (prompt_blocks rs 0 0 maxChars) as [|b bs] eqn:E;
      [congruence|]. split; [reflexivity|].
    unfold slen. rewrite !length_app, join_length.
    change (length prompt_header) with 134%nat.
    change (length newline) with 1%nat.
    change (length (newline ++ newline)) with 2%nat.
    cbn [length pred]. lia. }
  split; [intros ->; reflexivity|].
  split.
  - intros top rest -> H. cbn [prompt_blocks]. rewrite H. reflexivity.
  - intros top rest -> H. cbn [prompt_blocks]. rewrite H. reflexivity.
Qed.

(** ** Lexical variants (buildLexicalQueryVariants) *)

(** What [push] makes of a candidate: trimmed, each run of white space one
    space. *)
Definition cleaned (value : jsstring) : jsstring :=
  replace_all false re_spaces (js " ") (trim value).

Lemma trim_start_head s :
  trim_start s = [] \/ exists c r, trim_start s = c :: r /\ is_space c = false.
Proof.
  induction s as [|c s IH]; cbn [trim_start]; [left; reflexivity|].
  destruct (is_space c) eqn:E; [exact IH|]. right. eauto.
Qed.

Lemma trim_start_snoc l c :
  is_space c = false -> trim_start (l ++ [c]) = trim_start l ++ [c].
Proof.
  intros H. induction l as [|x l IH]; cbn [app trim_start].
  - rewrite H. reflexivity.
  - destruct (is_space x); [exact IH | reflexivity].
Qed.

Lemma trim_end_cons c r :
  is_space c = false -> trim_end (c :: r) = c :: trim_end r.
Proof.
  intros H. unfold trim_end. cbn [rev].
  rewrite trim_start_snoc by exact H. rewrite rev_app_distr. reflexivity.
Qed.

Lemma trim_head s :
  trim s = [] \/ exists c r, trim s = c :: r /\ is_space c = false.
Proof.
  unfold trim. destruct (trim_start_head s) as [-> | (c & r & -> & H)].
  - left. reflexivity.
  - right. rewrite trim_end_cons by exact H. eauto.
Qed.

Lemma spaces_no_match_at_nonspace bef c r :
  is_space c = false ->
  match_at false re_spaces (Pos bef (c :: r) None) = None.
Proof.
  intros H. unfold match_at, re_spaces. cbn. rewrite H. reflexivity.
Qed.

Lemma cleaned_head value :
  cleaned value = []
  \/ exists c r, cleaned value = c :: r /\ is_space c = false.
Proof.
  unfold cleaned. destruct (trim_head value) as [-> | (c & r & -> & H)].
  - left. reflexivity.
  - right. unfold replace_all. cbn [replace_go].
    rewrite spaces_no_match_at_nonspace by exact H. eauto.
Qed.

(** A usable variant: not empty and not white space only. *)
Definition has_text (v : jsstring) : Prop :=
  v <> [] /\ exists c, c ∈ v /\ is_space c = false.

Lemma push_cases vs value :
  (push vs value = vs /\ (cleaned value = [] \/ cleaned value ∈ vs))
  \/ (push vs value = vs ++ [cleaned value]
      /\ (cleaned value ∉ vs) /\ has_text (cleaned value)).
Proof.
  unfold push. fold (cleaned value).
  destruct (cleaned_head value) as [E | (c & r & E & H)]; rewrite E.
  - left. auto.
  - destruct (bool_decide_reflect (c :: r ∈ vs)) as [Hin | Hin].
    + left. auto.
    + right. repeat split; auto. exists c. split; [left|exact H].
Qed.

Lemma push_invariant vs value :
  NoDup vs -> Forall has_text vs ->
  NoDup (push vs value) /\ Forall has_text (push vs value).
Proof.
  intros Hnd Hall.
  destruct (push_cases vs value) as [[-> _] | (-> & Hin & Hgood)]; [auto|].
  split.
  - apply NoDup_app. repeat split; [exact Hnd | | apply NoDup_singleton].
    intros x Hx Hx'. apply list_elem_of_singleton in Hx'. subst. auto.
  - apply Forall_app. split; [exact Hall | constructor; [exact Hgood | constructor]].
Qed.

Lemma push_head vs value v :
  head vs = Some v -> head (push vs value) = Some v.
Proof.
  intros H. destruct (push_cases vs value) as [[-> _] | (-> & _)]; [exact H|].
  destruct vs; [discriminate | exact H].
Qed.

(** C5, as the code has it.  The first variant is the trimmed message with
    every run of white space made one space, whenever that is not empty; no
    variant occurs twice; no variant is empty or white space only. *)
Theorem lexical_variants_normalized (m : jsstring) :
  let vs := buildLexicalQueryVariants m in
  (cleaned m <> [] -> head vs = Some (cleaned m))
  /\ NoDup vs
  /\ (forall v, v ∈ vs -> v <> [] /\ exists c, c ∈ v /\ is_space c = false).
Proof.
  cbv zeta. unfold buildLexicalQueryVariants.
  set (noPunct := replace_all false re_punctuation (js " ") m).
  assert (NoDup (push [] m) /\ Forall has_text (push [] m)) as [N1 F1]
    by (apply push_invariant; constructor).
  pose proof (push_invariant _ noPunct N1 F1) as [N2 F2].
  pose proof (push_invariant _
                (replace_all false re_spaces (js " ")
                   (replace_all false re_zh_question (js " ") noPunct)) N2 F2)
    as [N3 F3].
  pose proof (push_invariant _
                (replace_all false re_spaces (js " ")
                   (replace_all true re_en_question (js " ") noPunct)) N3 F3)
    as [N4 F4].
  pose proof (push_invariant _ (replace_all false (Chr 45) (js " ") noPunct) N4 F4)
    as [N5 F5].
  split; [|split; [exact N5|]].
  - intros Hne. do 4 apply push_head.
    destruct (push_cases [] m) as [[_ [E | Hin]] | (-> & _)].
    + congruence.
    + apply elem_of_nil in Hin. contradiction.
    + reflexivity.
  - intros v Hv. rewrite Forall_forall in F5. exact (F5 v Hv).
Qed.

(** C5 as stated fails: the first variant of ["a  b"] is ["a b"], not the
    trimmed message, and a blank message has no variant at all. *)
Lemma lexical_variants_first_not_trimmed :
  head (buildLexicalQueryVariants (js "a  b")) = Some (js "a b")
  /\ trim (js "a  b") = js "a  b"
  /\ js "a b" <> js "a  b"
  /\ buildLexicalQueryVariants (js "   ") = [].
Proof. vm_compute. repeat split; discriminate. Qed.

(** ** Refresh cooldown (maybeUpdateCollection) *)

(** What the next [Date.now()] reads, and the world after the reading. *)
Definition reading (s : env) : number :=
  match clock (the_world s) with t :: _ => t | [] => 0%float end.

Definition tick (w : world) : world :=
  match clock w with _ :: later => with_clock later w | [] => w end.

Lemma date_now_run s : date_now s = (Ok (reading s), Env (the_state s) (tick (the_world s))).
Proof.
  unfold date_now, reading, tick. destruct s as [st w]; cbn.
  destruct (clock w); reflexivity.
Qed.

(** The backend call that refreshes the index of a collection. *)
Definition update_call (st : state) (collectionName : jsstring) : spawn_call :=
  Spawn (qmd_command st) [js "update"; js "--collections"; collectionName] 15000 [].

(** Inside the interval nothing is issued and nothing is recorded. *)
Lemma refresh_throttled name iv s :
  PrimFloat.ltb (reading s - last_update (the_state s) name) (iv * 1000) = true ->
  maybeUpdateCollection name iv s
  = (Ok tt, Env (the_state s) (tick (the_world s))).
Proof.
  intros H. unfold maybeUpdateCollection.
  rewrite (bind_ok _ _ _ _ _ (date_now_run s)).
  unfold bind, gets, ret. cbn [the_state the_world]. rewrite H. reflexivity.
Qed.

(** Outside it one update call is issued; the time stamp moves only when
    that call succeeds. *)
Lemma refresh_issued name iv s :
  PrimFloat.ltb (reading s - last_update (the_state s) name) (iv * 1000) = false ->
  exists r s',
    maybeUpdateCollection name iv s = (r, s')
    /\ spawned (the_world s')
       = update_call (the_state s) name :: spawned (the_world s)
    /\ clock (the_world s') = clock (tick (the_world s))
    /\ ((r = Ok tt
         /\ the_state s'
            = set_lastCollectionUpdateMs
                (<[name := reading s]> (lastCollectionUpdateMs (the_state s)))
                (the_state s))
        \/ (exists e, r = Throw e /\ the_state s' = the_state s)).
Proof.
  intros H. unfold maybeUpdateCollection.
  rewrite (bind_ok _ _ _ _ _ (date_now_run s)).
  unfold bind at 1. unfold gets at 1. cbn [the_state the_world]. rewrite H.
  unfold bind, gets, runCommand, modify, update_call. cbn [the_state the_world].
  destruct s as [st [sc sp cl fs wr hd th lg]].
  unfold tick, reading. cbn [the_state the_world clock].
  destruct cl as [|t later];
    cbn [with_clock with_spawned with_script script spawned clock files
         writable homedir tinyclaw_home log_lines].
  all: destruct sc as [|[code out err | msg | ] rest];
    try destruct (bool_decide (code = Some 0%Z));
    (eexists _, _; split; [reflexivity|];
     cbn [the_state the_world with_clock with_spawned with_script script
          spawned clock];
     repeat split; eauto).
Qed.

(** [n] calls in a row, each with its exception caught by the caller. *)
Fixpoint refresh_many (n : nat) (name : jsstring) (iv : number) : M unit :=
  match n with
  | O => ret tt
  | S k =>
      try_catch (maybeUpdateCollection name iv) (fun _ => ret tt) ;;
      refresh_many k name iv
  end.

Lemma refresh_many_throttled n name iv s :
  (n <= length (clock (the_world s)))%nat ->
  Forall (fun now =>
            PrimFloat.ltb (now - last_update (the_state s) name) (iv * 1000) = true)
    (take n (clock (the_world s))) ->
  exists w',
    refresh_many n name iv s = (Ok tt, Env (the_state s) w')
    /\ spawned w' = spawned (the_world s).
Proof.
  revert s. induction n as [|n IH]; intros s Hlen Hall.
  - exists (the_world s). destruct s. split; reflexivity.
  - destruct s as [st w]. cbn [the_state the_world] in *.
    destruct (clock w) as [|t later] eqn:Ec; [cbn in Hlen; lia|].
    cbn [take] in Hall. apply Forall_cons in Hall as [Ht Hrest].
    cbn [refresh_many].
    assert (E : maybeUpdateCollection name iv (Env st w) = (Ok tt, Env st (tick w))).
    { apply refresh_throttled. unfold reading. cbn [the_world the_state].
      rewrite Ec. exact Ht. }
    rewrite (bind_ok _ _ _ _ _ (try_catch_ok _ _ _ _ _ E)).
    assert (Ec' : clock (tick w) = later) by (unfold tick; rewrite Ec; reflexivity).
    destruct (IH (Env st (tick w))) as (w' & E' & Hs).
    + cbn [the_world]. rewrite Ec'. cbn in Hlen. lia.
    + cbn [the_world the_state]. rewrite Ec'. exact Hrest.
    + exists w'. split; [exact E'|]. rewrite Hs. cbn [the_world].
      unfold tick. rewrite Ec. reflexivity.
Qed.

Lemma last_update_insert st name (t : number) :
  truthy (VNum t) = true ->
  last_update
    (set_lastCollectionUpdateMs (<[name := t]> (lastCollectionUpdateMs st)) st) name
  = t.
Proof.
  intros H. unfold last_update. cbn [lastCollectionUpdateMs set_lastCollectionUpdateMs].
  rewrite lookup_insert_eq. rewrite H. reflexivity.
Qed.

(** C6, as the code has it.  The update call is issued only when the
    interval has passed since the last refresh that succeeded: inside the
    interval a call issues nothing and changes no state; outside it exactly
    one update call is issued, and the time stamp of the collection moves to
    the reading of that call only if the backend call succeeds (a failed
    call leaves the state as it was).  So after a refresh that succeeded at
    time [t0] (a reading of the clock, so not zero), any number of calls
    whose readings are within the interval of [t0] issue no update call at
    all. *)
Theorem refresh_cooldown (name : jsstring) (iv : number) (s : env) :
  (PrimFloat.ltb (reading s - last_update (the_state s) name) (iv * 1000) = true ->
   maybeUpdateCollection name iv s = (Ok tt, Env (the_state s) (tick (the_world s))))
  /\ (PrimFloat.ltb (reading s - last_update (the_state s) name) (iv * 1000) = false ->
      exists r s',
        maybeUpdateCollection name iv s = (r, s')
        /\ spawned (the_world s')
           = update_call (the_state s) name :: spawned (the_world s)
        /\ ((r = Ok tt
             /\ lastCollectionUpdateMs (the_state s') !! name = Some (reading s))
            \/ (exists e, r = Throw e /\ the_state s' = the_state s)))
  /\ (forall s1 n,
        maybeUpdateCollection name iv s = (Ok tt, s1) ->
        PrimFloat.ltb (reading s - last_update (the_state s) name) (iv * 1000) = false ->
        truthy (VNum (reading s)) = true ->
        (n <= length (clock (the_world s1)))%nat ->
        Forall (fun now => PrimFloat.ltb (now - reading s) (iv * 1000) = true)
          (take n (clock (the_world s1))) ->
        exists s2,
          refresh_many n name iv s1 = (Ok tt, s2)
          /\ spawned (the_world s2)
             = update_call (the_state s) name :: spawned (the_world s)).
Proof.
  split; [apply refresh_throttled|]. split.
  - intros H. destruct (refresh_issued name iv s H) as (r & s' & E & Hs & _ & Hr).
    exists r, s'. repeat split; [exact E | exact Hs |].
    destruct Hr as [[-> Hst] | Hr]; [left | right; exact Hr].
    split; [reflexivity|]. rewrite Hst.
    cbn [lastCollectionUpdateMs set_lastCollectionUpdateMs].
    apply lookup_insert_eq.
  - intros s1 n E H Htruthy Hlen Hall.
    destruct (refresh_issued name iv s H) as (r & s' & E' & Hs & _ & Hr).
    rewrite E in E'. injection E' as <- <-.
    destruct Hr as [[_ Hst] | (e & Habs & _)]; [|discriminate].
    destruct (refresh_many_throttled n name iv s1 Hlen) as (w' & E2 & Hs2).
    + rewrite Hst, last_update_insert by exact Htruthy. exact Hall.
    + eexists. split; [exact E2|]. cbn [the_world]. rewrite Hs2. exact Hs.
Qed.

(** C6 as stated fails: the first refresh fails, so the next call, one
    millisecond later and well inside the interval of 120 seconds, issues
    the update again. *)
Lemma refresh_retried_inside_interval :
  let s0 := Env initial_state
              (MkWorld [Closed (Some 1%Z) [] (js "boom"); Closed (Some 0%Z) [] []]
                 [] [1000000%float; 1000001%float] ∅ (fun _ => true)
                 (js "/home/u") (js "/home/u/.tinyclaw") []) in
  let name := js "tinyclaw-bot" in
  spawned (the_world (snd (refresh_many 2 name 120 s0)))
  = [update_call initial_state name; update_call initial_state name]
  /\ PrimFloat.ltb (1000001 - 1000000) (120 * 1000) = true.
Proof. vm_compute. split; reflexivity. Qed.

(** ** Parsing the backend's output (parseQmdResults) *)

Lemma parse_blank raw : trim raw = [] -> parseQmdResults raw = Ok [].
Proof. unfold parseQmdResults. intros ->. reflexivity. Qed.

(** Output that is not JSON parses to no results. *)
Lemma parse_malformed raw e :
  Json.parse (trim raw) = Throw e -> parseQmdResults raw = Ok [].
Proof.
  unfold parseQmdResults. intros ->. destruct (trim raw); reflexivity.
Qed.

(** A JSON array is read row by row. *)
Lemma parse_array raw items :
  Json.parse (trim raw) = Ok (VArr items) ->
  parseQmdResults raw = Ok (omap row_result items).
Proof.
  unfold parseQmdResults. intros E. destruct (trim raw) eqn:Et.
  - vm_compute in E. discriminate.
  - rewrite E. reflexivity.
Qed.

(** So is the array in the [results] field of a JSON object. *)
Lemma parse_results_field raw fields items :
  Json.parse (trim raw) = Ok (VObj fields) ->
  field (js "results") fields = Some (VArr items) ->
  parseQmdResults raw = Ok (omap row_result items).
Proof.
  unfold parseQmdResults. intros E F. destruct (trim raw) eqn:Et.
  - vm_compute in E. discriminate.
  - rewrite E. cbn [get]. rewrite F. reflexivity.
Qed.

(** An object without a truthy [results] field has no rows. *)
Lemma parse_no_results_field raw fields :
  Json.parse (trim raw) = Ok (VObj fields) ->
  match field (js "results") fields with
  | Some v => truthy v
  | None => false
  end = false ->
  parseQmdResults raw = Ok [].
Proof.
  unfold parseQmdResults. intros E F. destruct (trim raw) eqn:Et.
  - vm_compute in E. discriminate.
  - rewrite E. cbn [get]. unfold or_else.
    destruct (field (js "results") fields); [rewrite F|]; reflexivity.
Qed.

(** A row is an object or an array; its score is its [score] when that is
    a number and [0] otherwise; its snippet is the first truthy one of
    [snippet], [context], [text], [content], as a trimmed string; a row
    whose snippet is then empty is dropped. *)
Lemma row_result_spec row :
  row_result row
  = match row with
    | VObj _ | VArr _ =>
        let first_truthy ks :=
          foldr (fun k rest => or_else (get_opt row (js k)) rest) (VStr []) ks in
        let text :=
          trim (to_string (first_truthy ["snippet"; "context"; "text"; "content"]%string)) in
        match text with
        | [] => None
        | _ =>
            Some (MkResult
                    (match get_opt row (js "score") with VNum x => x | _ => 0%float end)
                    text
                    (trim (to_string (first_truthy ["path"; "file"; "source"; "title"]%string))))
        end
    | _ => None
    end.
Proof. destruct row; reflexivity. Qed.

(** C7: the code is not total.  The text [null] is valid JSON, and so is an
    object whose [results] is a number; on both [parseQmdResults] raises a
    [TypeError] instead of returning. *)
Theorem parse_results_raises :
  parseQmdResults (js "null")
  = Throw (Err TypeError (js "Cannot read properties of null (reading 'results')"))
  /\ parseQmdResults (js "{" ++ [34] ++ js "results" ++ [34] ++ js ": 5}")
     = Throw (Err TypeError (js "rows is not iterable")).
Proof. vm_compute. split; reflexivity. Qed.

(** ** Ranking and hydration (rerankAndHydrateResults) *)

Lemma insert_sorted_perm x l : insert_sorted x l ≡ₚ x :: l.
Proof.
  induction l as [|y l IH]; cbn [insert_sorted]; [reflexivity|].
  destruct (comes_after x y); [|reflexivity].
  rewrite IH. apply Permutation_swap.
Qed.

Lemma sort_by_score_perm l : sort_by_score l ≡ₚ l.
Proof.
  unfold sort_by_score. induction l as [|x l IH]; cbn [foldr]; [reflexivity|].
  rewrite insert_sorted_perm, IH. reflexivity.
Qed.

Lemma map_res_Forall2 {A B} (f : A -> res B) xs ys :
  map_res f xs = Ok ys -> Forall2 (fun x y => f x = Ok y) xs ys.
Proof.
  revert ys. induction xs as [|x xs IH]; intros ys; cbn [map_res].
  - intros [= <-]. constructor.
  - destruct (f x) eqn:E; [|discriminate].
    destruct (map_res f xs); [|discriminate].
    intros [= <-]. constructor; auto.
Qed.

(** A hit is hydrated when its source names a turn file on disk whose
    assistant section is not empty. *)
Definition hydratable (w : world) (agentId : jsstring) (hit : QmdResult) : Prop :=
  exists u a0 a,
    loadTurnSectionsFromSource w (source hit) agentId = Ok (Some (MkSections u (a0 :: a))).

Lemma hydrate_source w terms agentId hit out :
  hydrate w terms agentId hit = Ok out -> source out = source hit.
Proof.
  unfold hydrate. destruct (loadTurnSectionsFromSource _ _ _) as [[[u [|a0 a]]|]|];
    intros [= <-]; reflexivity.
Qed.

Lemma hydrate_unhydratable w terms agentId hit out :
  hydrate w terms agentId hit = Ok out -> ~ hydratable w agentId hit -> out = hit.
Proof.
  unfold hydrate, hydratable.
  destruct (loadTurnSectionsFromSource _ _ _) as [[[u [|a0 a]]|]|];
    intros [= <-] H; try (destruct hit; reflexivity).
  exfalso. apply H. eauto.
Qed.

(** When it returns, [rerankAndHydrateResults] returns as many hits as it
    was given, with the same sources, and each hit that is not hydrated is
    among them with its score and snippet as they were. *)
Lemma rerank_frame w hits message agentId out :
  rerankAndHydrateResults w hits message agentId = Ok out ->
  length out = length hits
  /\ map source out ≡ₚ map source hits
  /\ (forall hit, hit ∈ hits -> ~ hydratable w agentId hit -> hit ∈ out).
Proof.
  unfold rerankAndHydrateResults. destruct hits as [|h hs].
  { intros [= <-]. repeat split; auto. }
  set (terms := dedupe [] _). generalize (h :: hs). clear h hs. intros hits.
  destruct (map_res (hydrate w terms agentId) hits) as [mapped|] eqn:E;
    [|discriminate].
  intros [= <-]. apply map_res_Forall2 in E.
  assert (Hsrc : map source mapped = map source hits).
  { induction E as [|x y xs ys Hxy _ IH]; [reflexivity|].
    cbn [map]. rewrite IH, (hydrate_source _ _ _ _ _ Hxy). reflexivity. }
  split; [|split].
  - rewrite (Permutation_length (sort_by_score_perm mapped)).
    symmetry. eapply Forall2_length. exact E.
  - rewrite (sort_by_score_perm mapped), Hsrc. reflexivity.
  - intros hit Hin Hno. rewrite (sort_by_score_perm mapped). clear Hsrc.
    induction E as [|x y xs ys Hxy _ IH]; [inversion Hin|].
    apply elem_of_cons in Hin as [-> | Hin].
    + rewrite (hydrate_unhydratable _ _ _ _ _ Hxy Hno). left.
    + right. apply IH. exact Hin.
Qed.

(** C9: the code does not return for every list of hits.  A hit whose source
    has the [qmd://collection/path] form and a malformed percent escape makes
    [decodeURIComponent] raise outside any [try], so the whole call raises
    a [URIError] instead of passing the hit through, in every world. *)
Theorem rerank_raises_on_malformed_source (w : world) (message agentId : jsstring) :
  rerankAndHydrateResults w [MkResult 1 (js "s") (js "qmd://c/%")] message agentId
  = Throw Uri.uri_error.
Proof.
  unfold rerankAndHydrateResults. cbn [map_res].
  assert (E : forall terms,
             hydrate w terms agentId (MkResult 1 (js "s") (js "qmd://c/%"))
             = Throw Uri.uri_error).
  { intros terms. unfold hydrate, loadTurnSectionsFromSource. cbn [source].
    assert (exec false re_qmd_source (js "qmd://c/%")
            = Some (Pos (rev (js "qmd://c/%")) [] (Some (js "%")))) as ->
        by (vm_compute; reflexivity).
    cbn [capture].
    assert (Uri.decodeURIComponent (js "%") = Throw Uri.uri_error) as ->
        by (vm_compute; reflexivity).
    reflexivity. }
  rewrite E. reflexivity.
Qed.

(** ** Turn files (saveTurnToMemory, parseTurnSections) *)

Lemma starts_with_self p t : starts_with p (p ++ t) = true.
Proof.
  induction p as [|c p IH]; cbn [starts_with app]; [reflexivity|].
  rewrite N.eqb_refl. exact IH.
Qed.

Lemma starts_with_long p s t :
  (length p <= length s)%nat -> starts_with p (s ++ t) = starts_with p s.
Proof.
  revert s. induction p as [|c p IH]; intros s Hlen; [reflexivity|].
  destruct s as [|x s]; [cbn in Hlen; lia|].
  cbn [starts_with app]. rewrite IH by (cbn in Hlen; lia). reflexivity.
Qed.

Lemma index_from_lower p s i : (0 <= i)%Z -> (index_from p s i = -1 \/ i <= index_from p s i)%Z.
Proof.
  revert i. induction s as [|c s IH]; intros i Hi; cbn [index_from].
  - destruct (starts_with p []); lia.
  - destruct (starts_with p (c :: s)); [lia|].
    destruct (IH (i + 1)%Z); lia.
Qed.

Lemma index_from_unfold p s i :
  index_from p s i
  = if starts_with p s then i
    else match s with [] => (-1)%Z | _ :: r => index_from p r (i + 1)%Z end.
Proof. destruct s; reflexivity. Qed.

(** The first occurrence of [p] in [X ++ p ++ Y] is at [length X] when [p]
    does not occur earlier, that is, nowhere in [X] followed by all of [p]
    but its last character. *)
Lemma index_from_first X p Y i :
  p <> [] -> (0 <= i)%Z ->
  (index_from p (X ++ removelast p) i < 0)%Z ->
  index_from p (X ++ p ++ Y) i = (i + Z.of_nat (length X))%Z.
Proof.
  intros Hp. revert i. induction X as [|x X IH]; intros i Hi Hno.
  - cbn [app length]. rewrite index_from_unfold, starts_with_self. lia.
  - cbn [app] in *. rewrite index_from_unfold in Hno. rewrite index_from_unfold.
    assert (Hsplit : x :: X ++ p ++ Y
                     = (x :: X ++ removelast p) ++ [List.last p 0] ++ Y).
    { rewrite (app_removelast_last 0 Hp) at 1.
      cbn [app]. rewrite <- !app_assoc. reflexivity. }
    destruct (starts_with p (x :: X ++ removelast p)) eqn:E; [lia|].
    rewrite Hsplit, starts_with_long, E.
    2:{ cbn [length]. rewrite length_app.
        rewrite (app_removelast_last 0 Hp) at 1. rewrite length_app. cbn. lia. }
    rewrite IH by (lia || exact Hno). cbn [length]. lia.
Qed.

Lemma indexOf_first X p Y :
  p <> [] -> includes (X ++ removelast p) p = false ->
  indexOf (X ++ p ++ Y) p = Z.of_nat (length X).
Proof.
  unfold includes, indexOf. intros Hp H.
  rewrite index_from_first; [lia | exact Hp | lia | lia].
Qed.

Lemma trim_start_snoc_space l c :
  is_space c = true ->
  trim_start (l ++ [c]) = match trim_start l with [] => [] | t => t ++ [c] end.
Proof.
  intros H. induction l as [|x l IH]; cbn [app trim_start].
  - rewrite H. reflexivity.
  - destruct (is_space x); [exact IH | reflexivity].
Qed.

Lemma trim_end_snoc_space l c : is_space c = true -> trim_end (l ++ [c]) = trim_end l.
Proof.
  intros H. unfold trim_end. rewrite rev_app_distr. cbn [rev app trim_start].
  rewrite H. reflexivity.
Qed.

(** The line breaks around a section do not survive [trim]. *)
Lemma trim_between_newlines text : trim (newline ++ text ++ newline) = trim text.
Proof.
  unfold trim, newline. cbn [app trim_start].
  change (is_space 10) with true. cbn iota.
  rewrite trim_start_snoc_space by reflexivity.
  destruct (trim_start text) as [|c t]; [reflexivity|].
  rewrite trim_end_snoc_space by reflexivity. reflexivity.
Qed.

(** Parsing a text laid out as header, user section, assistant section,
    when neither marker occurs before its own place. *)
Lemma parse_sections_layout H M T :
  includes (H ++ removelast userMarker) userMarker = false ->
  includes ((H ++ userMarker ++ M) ++ removelast assistantMarker) assistantMarker = false ->
  parseTurnSections (H ++ userMarker ++ M ++ assistantMarker ++ T)
  = MkSections (trim M) (trim T).
Proof.
  intros HU HA. unfold parseTurnSections.
  rewrite (indexOf_first H userMarker (M ++ assistantMarker ++ T))
    by (discriminate || exact HU).
  replace (H ++ userMarker ++ M ++ assistantMarker ++ T)
    with ((H ++ userMarker ++ M) ++ assistantMarker ++ T)
    by (rewrite <- !app_assoc; reflexivity).
  rewrite (indexOf_first (H ++ userMarker ++ M) assistantMarker T)
    by (discriminate || exact HA).
  rewrite !length_app.
  change (length userMarker) with 9%nat.
  assert ((Z.of_nat (length H) <? 0)%Z = false) as -> by (apply Z.ltb_ge; lia).
  assert ((Z.of_nat (length H + (9 + length M)) <? 0)%Z = false) as ->
      by (apply Z.ltb_ge; lia).
  assert ((Z.of_nat (length H + (9 + length M)) <=? Z.of_nat (length H))%Z = false)
    as -> by (apply Z.leb_gt; lia).
  cbn [orb]. unfold slice, slice_from, slen.
  change (length userMarker) with 9%nat.
  change (length assistantMarker) with 14%nat.
  rewrite <- !Nat2Z.inj_add, !Nat2Z.id.
  f_equal.
  - f_equal.
    replace ((H ++ userMarker ++ M) ++ assistantMarker ++ T)
      with ((H ++ userMarker) ++ M ++ assistantMarker ++ T)
      by (rewrite <- !app_assoc; reflexivity).
    rewrite drop_app_length' by (rewrite length_app; reflexivity).
    replace (length H + (9 + length M) - (length H + 9))%nat with (length M) by lia.
    apply take_app_length.
  - f_equal.
    replace ((H ++ userMarker ++ M) ++ assistantMarker ++ T)
      with (((H ++ userMarker ++ M) ++ assistantMarker) ++ T)
      by (rewrite <- !app_assoc; reflexivity).
    apply drop_app_length'. rewrite !length_app. reflexivity.
Qed.

(** The header of a turn file: the lines before the user section. *)
Definition turn_header (params : TurnParams) (iso : jsstring) : jsstring :=
  js "# Turn for @" ++ p_agentId params ++ js " (" ++ p_agentName params ++ js ")"
  ++ newline ++ newline
  ++ js "- Timestamp: " ++ iso ++ newline
  ++ js "- Channel: " ++ p_channel params ++ newline
  ++ js "- Sender: " ++ p_sender params ++ newline
  ++ js "- Message ID: " ++ p_messageId params ++ newline.

Lemma turn_text_layout params iso :
  join newline (turn_lines params iso)
  = turn_header params iso
    ++ userMarker ++ (newline ++ truncate (p_userMessage params) ++ newline)
    ++ assistantMarker ++ (newline ++ truncate (p_agentResponse params) ++ newline).
Proof.
  unfold turn_lines, turn_header, userMarker, assistantMarker.
  cbn [join]. rewrite <- !app_assoc. cbn [app]. reflexivity.
Qed.

(** A code unit that is not a surrogate. *)
Definition plain (c : N) : bool := negb (is_high_surrogate c || is_low_surrogate c).

Lemma toWellFormed_plain_cons c s :
  plain c = true -> toWellFormed (c :: s) = c :: toWellFormed s.
Proof.
  unfold plain. intros H. apply negb_true_iff, orb_false_iff in H as [H1 H2].
  cbn [toWellFormed]. rewrite H1, H2. reflexivity.
Qed.

(** Making a text well formed works on each side of a plain code unit. *)
Lemma toWellFormed_split a c b :
  plain c = true ->
  toWellFormed (a ++ c :: b) = toWellFormed a ++ c :: toWellFormed b.
Proof.
  intros Hc. remember (length a) as n eqn:Hn. revert a Hn.
  induction n as [n IH] using lt_wf_ind. intros a Hn.
  destruct a as [|h tl]; [apply toWellFormed_plain_cons, Hc|].
  assert (Hlow : is_low_surrogate c = false).
  { unfold plain in Hc. apply negb_true_iff, orb_false_iff in Hc as [_ H]. exact H. }
  cbn [app toWellFormed].
  destruct (is_high_surrogate h).
  - destruct tl as [|l rest]; cbn [app].
    + rewrite Hlow. rewrite toWellFormed_plain_cons by exact Hc. reflexivity.
    + destruct (is_low_surrogate l).
      * rewrite (IH (length rest)) by (subst n; cbn [length]; lia || reflexivity).
        reflexivity.
      * change (l :: rest ++ c :: b) with ((l :: rest) ++ c :: b).
        rewrite (IH (length (l :: rest))) by (subst n; cbn [length]; lia || reflexivity).
        reflexivity.
  - destruct (is_low_surrogate h);
      rewrite (IH (length tl)) by (subst n; cbn [length]; lia || reflexivity);
      reflexivity.
Qed.

Lemma toWellFormed_plain_prefix p b :
  forallb plain p = true -> toWellFormed (p ++ b) = p ++ toWellFormed b.
Proof.
  induction p as [|c p IH]; cbn [forallb app]; [reflexivity|].
  intros H. apply andb_true_iff in H as [Hc Hp].
  rewrite toWellFormed_plain_cons by exact Hc. rewrite IH by exact Hp. reflexivity.
Qed.

Lemma toWellFormed_around a p b :
  p <> [] -> forallb plain p = true ->
  toWellFormed (a ++ p ++ b) = toWellFormed a ++ p ++ toWellFormed b.
Proof.
  intros Hne Hp. destruct p as [|c p]; [congruence|].
  cbn [forallb] in Hp. apply andb_true_iff in Hp as [Hc Hp].
  cbn [app]. rewrite toWellFormed_split by exact Hc.
  rewrite toWellFormed_plain_prefix by exact Hp. reflexivity.
Qed.

Lemma toWellFormed_snoc_newline text :
  toWellFormed (text ++ newline) = toWellFormed text ++ newline.
Proof. apply (toWellFormed_split text 10 []). reflexivity. Qed.

(** The text of a turn as it is read back from its file. *)
Lemma turn_text_on_disk params iso :
  toWellFormed (join newline (turn_lines params iso))
  = toWellFormed (turn_header params iso)
    ++ userMarker
    ++ (newline ++ toWellFormed (truncate (p_userMessage params)) ++ newline)
    ++ assistantMarker
    ++ (newline ++ toWellFormed (truncate (p_agentResponse params)) ++ newline).
Proof.
  rewrite turn_text_layout.
  rewrite (toWellFormed_around (turn_header params iso) userMarker)
    by (discriminate || reflexivity).
  do 2 f_equal.
  transitivity
    (toWellFormed
       (newline ++ truncate (p_userMessage params)
        ++ (newline ++ assistantMarker ++ newline)
        ++ (truncate (p_agentResponse params) ++ newline))).
  { f_equal. rewrite <- !app_assoc. reflexivity. }
  rewrite (toWellFormed_plain_prefix newline) by reflexivity.
  rewrite (toWellFormed_around (truncate (p_userMessage params))
             (newline ++ assistantMarker ++ newline))
    by (discriminate || reflexivity).
  rewrite toWellFormed_snoc_newline.
  rewrite <- !app_assoc. reflexivity.
Qed.

(** Neither marker occurs in the file before its own section header. *)
Definition markers_in_place (params : TurnParams) (iso : jsstring) : bool :=
  let header := toWellFormed (turn_header params iso) in
  let userText := toWellFormed (truncate (p_userMessage params)) in
  negb (includes (header ++ removelast userMarker) userMarker)
  && negb (includes
             ((header ++ userMarker ++ (newline ++ userText ++ newline))
              ++ removelast assistantMarker)
             assistantMarker).

Lemma turn_text_parses params iso :
  markers_in_place params iso = true ->
  parseTurnSections (toWellFormed (join newline (turn_lines params iso)))
  = MkSections (trim (toWellFormed (truncate (p_userMessage params))))
      (trim (toWellFormed (truncate (p_agentResponse params)))).
Proof.
  unfold markers_in_place. cbv zeta. intros H.
  apply andb_true_iff in H as [H1 H2].
  apply negb_true_iff in H1, H2.
  rewrite turn_text_on_disk, parse_sections_layout by assumption.
  rewrite !trim_between_newlines. reflexivity.
Qed.

(** [s'] holds no file content that [s] did not hold. *)
Definition no_new_file (s s' : env) : Prop :=
  forall path c,
    files (the_world s') !! path = Some (File c) ->
    files (the_world s) !! path = Some (File c).

Lemma no_new_file_refl s : no_new_file s s.
Proof. intros path c H. exact H. Qed.

Lemma no_new_file_trans s1 s2 s3 :
  no_new_file s1 s2 -> no_new_file s2 s3 -> no_new_file s1 s3.
Proof. intros H12 H23 path c H. apply H12, H23, H. Qed.

Lemma no_new_file_same s s' :
  files (the_world s') = files (the_world s) -> no_new_file s s'.
Proof. intros E path c H. rewrite <- E. exact H. Qed.

Lemma mkdir_fold_keeps_files (fs : gmap jsstring fs_entry) ds path c :
  foldr (fun d fs => match fs !! d with
                     | Some _ => fs
                     | None => <[d := Directory]> fs
                     end) fs ds !! path = Some (File c) ->
  fs !! path = Some (File c).
Proof.
  induction ds as [|d ds IH]; cbn [foldr]; [auto|].
  destruct (_ !! d) eqn:E; [exact IH|].
  intros H. apply IH. apply lookup_insert_Some in H as [[_ [=]] | [_ H]]. exact H.
Qed.

Lemma ensureDir_no_new_file dir s :
  exists r s', ensureDir dir s = (r, s') /\ no_new_file s s'.
Proof.
  unfold ensureDir, bind, asks, mkdirSync, ret. cbn [the_world the_state].
  destruct (existsSync (the_world s) dir); cbn [negb].
  - eexists _, _. split; [reflexivity | apply no_new_file_refl].
  - destruct (writable (the_world s) dir).
    + eexists _, _. split; [reflexivity|].
      intros path c H. cbn [the_world files with_files] in H.
      destruct (the_world s); cbn [the_world files with_files] in *.
      eapply mkdir_fold_keeps_files, H.
    + eexists _, _. split; [reflexivity | apply no_new_file_refl].
Qed.

Lemma log_no_new_file level msg s :
  exists s', log level msg s = (Ok tt, s') /\ no_new_file s s'.
Proof.
  eexists. split; [reflexivity|]. apply no_new_file_same.
  cbn. destruct (the_world s); reflexivity.
Qed.

(** What [saveTurnToMemory] leaves on disk: nothing new, or one file with
    the text of the turn. *)
Lemma save_turn_body_files params s :
  exists r s',
    save_turn_body params s = (r, s')
    /\ (no_new_file s s'
        \/ exists ts iso p s1,
             r = Ok tt
             /\ Date.toISOString ts = Ok iso
             /\ no_new_file s s1
             /\ files (the_world s')
                = <[p := File (toWellFormed (join newline (turn_lines params iso)))]>
                    (files (the_world s1))).
Proof.
  unfold save_turn_body.
  (* the time stamp *)
  assert (Hts : exists ts s0,
             (match p_timestampMs params with
              | Some t => if truthy (VNum t) then ret t else date_now
              | None => date_now
              end) s = (Ok ts, s0) /\ no_new_file s s0).
  { destruct (p_timestampMs params) as [t|]; [destruct (truthy (VNum t))|].
    - eexists _, _. split; [reflexivity | apply no_new_file_refl].
    - rewrite date_now_run. eexists _, _. split; [reflexivity|].
      apply no_new_file_same. cbn. unfold tick.
      destruct (the_world s) as [? ? [|? ?] ? ? ? ? ?]; reflexivity.
    - rewrite date_now_run. eexists _, _. split; [reflexivity|].
      apply no_new_file_same. cbn. unfold tick.
      destruct (the_world s) as [? ? [|? ?] ? ? ? ? ?]; reflexivity. }
  destruct Hts as (ts & s0 & Ets & H0).
  rewrite (bind_ok _ _ _ _ _ Ets).
  unfold bind at 1. unfold asks at 1.
  destruct (ensureDir_no_new_file (getAgentTurnsDir (the_world s0) (p_agentId params)) s0)
    as (r1 & s1 & E1 & H1).
  unfold bind at 1. rewrite E1.
  assert (H01 : no_new_file s s1) by (eapply no_new_file_trans; eauto).
  destruct r1 as [[]|e]; [|eexists _, _; split; [reflexivity | left; exact H01]].
  unfold bind at 1. unfold lift at 1.
  destruct (timestampFilename ts) as [stamp|e];
    [|eexists _, _; split; [reflexivity | left; exact H01]].
  unfold bind at 1. unfold asks at 1.
  unfold bind at 1. unfold lift at 1.
  destruct (Date.toISOString ts) as [iso|e] eqn:Eiso;
    [|eexists _, _; split; [reflexivity | left; exact H01]].
  unfold writeFileSync.
  destruct (files (the_world s1) !! _) as [[| |]|];
    try (destruct (writable (the_world s1) _));
    try (eexists _, _; split; [reflexivity | left; exact H01]).
  all: eexists _, _; (split; [reflexivity|]); right;
    exists ts, iso; eexists _, s1;
    (split; [reflexivity|]; split; [exact Eiso|]; split; [exact H01|]);
    reflexivity.
Qed.

(** What [saveTurnToMemory] leaves on disk: nothing new, or one file with
    the text of the turn. *)
Lemma saveTurn_files params s :
  no_new_file s (snd (saveTurnToMemory params s))
  \/ exists ts iso p s1,
       Date.toISOString ts = Ok iso
       /\ no_new_file s s1
       /\ files (the_world (snd (saveTurnToMemory params s)))
          = <[p := File (toWellFormed (join newline (turn_lines params iso)))]> (files (the_world s1)).
Proof.
  unfold saveTurnToMemory, try_catch.
  destruct (save_turn_body_files params s) as (r & s' & E & H). rewrite E.
  destruct H as [H | (ts & iso & p & s1 & -> & Eiso & H1 & Ef)].
  - destruct r as [a|e]; [left; exact H|].
    destruct (log_no_new_file (js "WARN")
       (js "Failed to persist memory turn for @" ++ p_agentId params
        ++ js ": " ++ message_of e) s') as (s2 & E2 & Hn).
    rewrite E2. left. eapply no_new_file_trans; eauto.
  - right. exists ts, iso, p, s1. auto.
Qed.

(** C8, as the code has it.  The file [saveTurnToMemory] writes, read
    back, parses to the user text and the assistant text, each cut at its
    cap with the truncation marker, made well formed by the UTF-8 encoding
    of the file (an unpaired surrogate becomes U+FFFD) and stripped of
    leading and trailing white space, provided neither section marker occurs
    in the file before its own section header (which is so when the header
    fields hold no line break and the user text holds no line reading
    [## Assistant]). *)
Theorem turn_roundtrip (params : TurnParams) (s : env) (path content : jsstring) :
  files (the_world (snd (saveTurnToMemory params s))) !! path = Some (File content) ->
  files (the_world s) !! path <> Some (File content) ->
  exists ts iso,
    Date.toISOString ts = Ok iso
    /\ content = toWellFormed (join newline (turn_lines params iso))
    /\ (markers_in_place params iso = true ->
        parseTurnSections content
        = MkSections (trim (toWellFormed (truncate (p_userMessage params))))
            (trim (toWellFormed (truncate (p_agentResponse params))))).
Proof.
  intros Hnew Hold.
  destruct (saveTurn_files params s) as [H | (ts & iso & p & s1 & Eiso & H1 & E)].
  - exfalso. apply Hold. apply H. exact Hnew.
  - rewrite E in Hnew.
    apply lookup_insert_Some in Hnew as [[_ [= <-]] | [_ Hnew]].
    + exists ts, iso. split; [exact Eiso|]. split; [reflexivity|].
      apply turn_text_parses.
    + exfalso. apply Hold. apply H1. exact Hnew.
Qed.

(** C8 as stated fails on three counts.  White space at either end of a
    text is lost: a user text [" hi"], far below the cap, comes back as
    ["hi"].  A text that holds a section marker is cut there: the user text
    ["a\n## Assistant\nb"] comes back as ["a"], and the assistant text
    ["ok"] as ["b\n\n## Assistant\n\nok"].  And half a surrogate pair does
    not survive the file: the user text of the one code unit U+D83D comes
    back as U+FFFD. *)
Lemma turn_roundtrip_loses_text :
  let w := MkWorld [] [] [] ∅ (fun _ => true) (js "/home/u") (js "/home/u/.tinyclaw") [] in
  let path := js "/home/u/.tinyclaw/memory/turns/bot/2023-11-14T22-13-20-123Z-m1.md" in
  let save user :=
    saveTurnToMemory
      (MkTurn (js "bot") (js "Bot") (js "telegram") (js "me") (js "m1") user (js "ok")
         (Some 1700000000123%float)) (Env initial_state w) in
  let read_back user :=
    match files (the_world (snd (save user))) !! path with
    | Some (File c) => Some (parseTurnSections c)
    | _ => None
    end in
  read_back (js " hi") = Some (MkSections (js "hi") (js "ok"))
  /\ truncate (js " hi") = js " hi"
  /\ read_back (js "a" ++ assistantMarker ++ js "b")
     = Some (MkSections (js "a")
               (js "b" ++ newline ++ assistantMarker ++ newline ++ js "ok"))
  /\ read_back [0xD83D] = Some (MkSections [0xFFFD] (js "ok")).
Proof. vm_compute. repeat split. Qed.

(** ** The enrichment entry point (enrichMessageWithMemory) *)

Lemma safe_run {A} (m : M A) s :
  safe m -> exists a, m s = (Ok a, after m s).
Proof.
  intros H. destruct (H s) as (a & s' & E). exists a.
  unfold after. rewrite E. reflexivity.
Qed.

Lemma logQmdDebug_run agentId cfg stage details s :
  logQmdDebug agentId cfg stage details s
  = (Ok tt, after (logQmdDebug agentId cfg stage details) s).
Proof.
  destruct (safe_run _ s (safe_logQmdDebug agentId cfg stage details)) as ([] & E).
  exact E.
Qed.

Lemma log_run level msg s : log level msg s = (Ok tt, after (log level msg) s).
Proof. reflexivity. Qed.

Lemma safe_probe_candidates cs : safe (probe_candidates cs).
Proof.
  induction cs as [|c cs IH]; cbn [probe_candidates]; [apply safe_ret|].
  apply safe_bind; [apply safe_try_catch; intros; apply safe_ret|].
  intros []; [apply safe_ret | exact IH].
Qed.

Lemma safe_isQmdAvailable preferred : safe (isQmdAvailable preferred).
Proof.
  unfold isQmdAvailable.
  pose proof safe_probe_candidates.
  repeat (first [ apply safe_bind; [|intros] | apply safe_if
                | apply safe_gets | apply safe_asks | apply safe_modify
                | apply safe_ret | solve [auto] ]).
Qed.

Lemma safe_resolveRetrievalMode cfg : safe (resolveRetrievalMode cfg).
Proof.
  intros s. destruct (resolveRetrievalMode_run cfg s) as (s' & E). eauto.
Qed.

Lemma safe_debug_qmd a c x : safe (debug_qmd a c x).
Proof. apply safe_logQmdDebug. Qed.
Lemma safe_debug_collection a c x : safe (debug_collection a c x).
Proof. apply safe_logQmdDebug. Qed.
Lemma safe_debug_update a c : safe (debug_update a c).
Proof. apply safe_logQmdDebug. Qed.
Lemma safe_debug_precheck a m c : safe (debug_precheck a m c).
Proof. apply safe_logQmdDebug. Qed.
Lemma safe_debug_query a c v l : safe (debug_query a c v l).
Proof. apply safe_logQmdDebug. Qed.
Lemma safe_debug_query_used a c l u : safe (debug_query_used a c l u).
Proof. apply safe_logQmdDebug. Qed.

#[local] Hint Resolve safe_debug_qmd safe_debug_collection safe_debug_update
  safe_debug_precheck safe_debug_query safe_debug_query_used : safe_db.

(** A computation that returns [tt] runs to its own after-state. *)
Lemma unit_run (m : M unit) s : safe m -> m s = (Ok tt, after m s).
Proof. intros H. destruct (safe_run m s H) as ([] & E). exact E. Qed.

Lemma safe_precheck_gate agentId message name cfg :
  safe (precheck_gate agentId message name cfg).
Proof.
  unfold precheck_gate. apply safe_if; [|apply safe_ret].
  apply safe_try_catch. intros e. safe_tac.
Qed.

(** How the [try] block ends once the query has returned. *)
Lemma compose_result agentId message label cfg found s r s' :
  compose agentId message label cfg found s = (Ok r, s') ->
  r = message
  \/ exists ranked,
       formatMemoryPrompt ranked (maxChars cfg) <> []
       /\ r = message ++ formatMemoryPrompt ranked (maxChars cfg).
Proof.
  unfold compose. destruct found as [|hit hits].
  { rewrite (bind_ok _ _ _ _ _ (log_run _ _ _)). intros [= <- _]. left. reflexivity. }
  unfold bind at 1. unfold asks at 1. unfold bind at 1. unfold lift at 1.
  destruct (rerankAndHydrateResults _ _ _ _) as [ranked|e]; [|discriminate].
  destruct (formatMemoryPrompt ranked (maxChars cfg)) as [|c block] eqn:Eb.
  { rewrite (bind_ok _ _ _ _ _ (log_run _ _ _)). intros [= <- _]. left. reflexivity. }
  rewrite (bind_ok _ _ _ _ _ (log_run _ _ _)).
  rewrite (bind_ok _ _ _ _ _ (log_run _ _ _)).
  intros [= <- _]. right. exists ranked. rewrite Eb. split; [discriminate | reflexivity].
Qed.

(** How the retrieval after the precheck ends. *)
Lemma retrieve_result agentId message name cfg s r s' :
  retrieve agentId message name cfg s = (Ok r, s') ->
  r = message
  \/ exists ranked,
       formatMemoryPrompt ranked (maxChars cfg) <> []
       /\ r = message ++ formatMemoryPrompt ranked (maxChars cfg).
Proof.
  unfold retrieve.
  destruct (safe_resolveRetrievalMode cfg s) as (mode & s1 & E1).
  rewrite (bind_ok _ _ _ _ _ E1).
  rewrite (bind_ok _ _ _ _ _ (unit_run _ _ (safe_debug_query _ _ _ _))).
  unfold bind at 1. destruct (run_query _ message name cfg _) as [[qr|e] s2];
    [|discriminate].
  rewrite (bind_ok _ _ _ _ _ (unit_run _ _ (safe_debug_query_used _ _ _ _))).
  apply compose_result.
Qed.

Lemma enrich_body_result agentId message cfg s r s' :
  enrich_body agentId message cfg s = (Ok r, s') ->
  r = message
  \/ exists ranked,
       formatMemoryPrompt ranked (maxChars cfg) <> []
       /\ r = message ++ formatMemoryPrompt ranked (maxChars cfg).
Proof.
  unfold enrich_body.
  unfold bind at 1. destruct (ensureCollection agentId s) as [[name|e] s1];
    [|discriminate].
  rewrite (bind_ok _ _ _ _ _ (unit_run _ _ (safe_debug_collection _ _ _))).
  unfold bind at 1. destruct (maybeUpdateCollection name _ _) as [[[]|e] s2];
    [|discriminate].
  rewrite (bind_ok _ _ _ _ _ (unit_run _ _ (safe_debug_update _ _))).
  unfold bind at 1. destruct (precheck_gate agentId message name cfg _) as [[[]|e] s3];
    [| |discriminate]; cbn [negb].
  - apply retrieve_result.
  - intros [= <- _]. left. reflexivity.
Qed.

(** The run of [enrichMessageWithMemory]: it returns, and what it returns
    is the message, or the message followed by a composed memory block. *)
Lemma enrich_result agentId message settings channel s :
  exists r s',
    enrichMessageWithMemory agentId message settings channel s = (Ok r, s')
    /\ (r = message
        \/ exists ranked,
             formatMemoryPrompt ranked (maxChars (getQmdConfig settings)) <> []
             /\ r = message
                    ++ formatMemoryPrompt ranked (maxChars (getQmdConfig settings))).
Proof.
  unfold enrichMessageWithMemory. set (cfg := getQmdConfig settings).
  destruct (enabled cfg); cbn [negb]; [|eexists _, _; split; [reflexivity | left; reflexivity]].
  destruct (shouldUseMemoryForChannel channel); cbn [negb];
    [|eexists _, _; split; [reflexivity | left; reflexivity]].
  destruct (safe_isQmdAvailable (command cfg) s) as (b & s1 & E1).
  rewrite (bind_ok _ _ _ _ _ E1). destruct b; cbn [negb].
  - unfold bind at 1. unfold gets at 1.
    rewrite (bind_ok _ _ _ _ _ (unit_run _ _ (safe_debug_qmd _ _ _))).
    unfold try_catch.
    destruct (enrich_body agentId message cfg _) as [[r|e] s2] eqn:Eb.
    + exists r, s2. split; [reflexivity|]. eapply enrich_body_result, Eb.
    + rewrite (bind_ok _ _ _ _ _ (log_run _ _ _)).
      rewrite (bind_ok _ _ _ _ _ (log_run _ _ _)).
      eexists _, _. split; [reflexivity | left; reflexivity].
  - unfold bind at 1. unfold gets at 1.
    destruct (qmdUnavailableLogged (the_state s1)); cbn [negb].
    + unfold bind at 1. unfold ret at 1.
      rewrite (bind_ok _ _ _ _ _ (log_run _ _ _)).
      eexists _, _. split; [reflexivity | left; reflexivity].
    + unfold bind at 1. unfold bind at 1. rewrite log_run. unfold modify at 1.
      rewrite (bind_ok _ _ _ _ _ (log_run _ _ _)).
      eexists _, _. split; [reflexivity | left; reflexivity].
Qed.

(** C10.  The string returned has the original message as a prefix: it is
    the message itself, or the message followed by a memory block that is
    not empty and begins with the fixed separator and preamble (the header
    of [formatMemoryPrompt]), then the snippet blocks. *)
Theorem enrich_extends_message (agentId message : jsstring) (settings : Settings)
    (channel : jsstring) (s : env) :
  exists r s',
    enrichMessageWithMemory agentId message settings channel s = (Ok r, s')
    /\ message `prefix_of` r
    /\ (r = message
        \/ exists blocks,
             blocks <> []
             /\ r = message
                    ++ (prompt_header ++ newline ++ join (newline ++ newline) blocks)
             /\ prompt_header
                = newline ++ js "---" ++ newline
                  ++ js "Retrieved memory snippets (from past conversations):" ++ newline
                  ++ js "Use only if relevant. Prioritize current user instructions over old memory."
                  ++ newline).
Proof.
  destruct (enrich_result agentId message settings channel s)
    as (r & s' & E & [-> | (ranked & Hne & ->)]).
  - exists message, s'. split; [exact E|]. split; [reflexivity | left; reflexivity].
  - eexists _, s'. split; [exact E|]. split; [apply prefix_app_r; reflexivity|].
    right. rewrite formatMemoryPrompt_shape in *.
    destruct (prompt_blocks ranked 0 0 _) as [|b bs]; [congruence|].
    exists (b :: bs). split; [discriminate|]. split; reflexivity.
Qed.

(** *** The stages of the [try] block

    [s] is the state in which the [try] block of [enrichMessageWithMemory]
    starts; each stage below runs in the state its predecessors left. *)
Section Stages.

Variables (agentId message : jsstring) (cfg : QmdConfig) (s : env).

(** Refreshing the collection [name]. *)
Definition s_refresh (name : jsstring) : env :=
  after (debug_collection agentId cfg name) (after (ensureCollection agentId) s).

(** The precheck gate. *)
Definition s_precheck (name : jsstring) : env :=
  after (debug_update agentId cfg)
    (after (maybeUpdateCollection name (updateIntervalSeconds cfg)) (s_refresh name)).

(** The quick lexical search inside the gate. *)
Definition s_quick (name : jsstring) : env :=
  after (debug_precheck agentId message cfg) (s_precheck name).

(** Choosing the retrieval mode. *)
Definition s_mode (name : jsstring) : env :=
  after (precheck_gate agentId message name cfg) (s_precheck name).

Definition mode_at (name : jsstring) : bool * jsstring :=
  match outcome_of (resolveRetrievalMode cfg) (s_mode name) with
  | Ok mode => mode
  | Throw _ => (false, js "qmd-bm25")
  end.

(** The primary query. *)
Definition s_query (name : jsstring) : env :=
  after (debug_query agentId cfg (fst (mode_at name)) (snd (mode_at name)))
    (after (resolveRetrievalMode cfg) (s_mode name)).

Definition query_at (name : jsstring) : res QueryResult :=
  outcome_of (run_query (fst (mode_at name)) message name cfg) (s_query name).

(** Ranking and hydrating the hits [qr]. *)
Definition s_rank (name : jsstring) (qr : QueryResult) : env :=
  after (debug_query_used agentId cfg (snd (mode_at name)) (query qr))
    (after (run_query (fst (mode_at name)) message name cfg) (s_query name)).

Definition ranked_at (name : jsstring) (qr : QueryResult) : res (list QmdResult) :=
  rerankAndHydrateResults (the_world (s_rank name qr)) (results qr) message agentId.

(** The stages before the precheck gate succeeded for collection [name]. *)
Definition refreshed (name : jsstring) : Prop :=
  outcome_of (ensureCollection agentId) s = Ok name
  /\ outcome_of (maybeUpdateCollection name (updateIntervalSeconds cfg))
       (s_refresh name) = Ok tt.

(** ... and the gate let the retrieval go on. *)
Definition gate_passed (name : jsstring) : Prop :=
  refreshed name
  /\ outcome_of (precheck_gate agentId message name cfg) (s_precheck name) = Ok true.

(** The [try] block ends with the original message: it returns it, or it
    throws and the [catch] of [enrichMessageWithMemory] returns it. *)
Definition falls_back : Prop :=
  match outcome_of (enrich_body agentId message cfg) s with
  | Ok r => r = message
  | Throw _ => True
  end.

Lemma gate_run name :
  quickPrecheckEnabled cfg = true ->
  outcome_of (quickHasLexicalHit message name cfg) (s_quick name) <> Ok true ->
  outcome_of (precheck_gate agentId message name cfg) (s_precheck name) = Ok false.
Proof.
  intros Hq Hhit. unfold outcome_of, precheck_gate in *. rewrite Hq.
  unfold try_catch.
  rewrite (bind_ok _ _ _ _ _ (unit_run _ _ (safe_debug_precheck _ _ _))).
  fold (s_quick name). unfold bind at 1.
  destruct (quickHasLexicalHit message name cfg (s_quick name)) as [[[]|e] s1];
    cbn [fst] in Hhit; [congruence | reflexivity | reflexivity].
Qed.

Lemma body_after_refresh name :
  refreshed name ->
  enrich_body agentId message cfg s
  = (let* proceed := precheck_gate agentId message name cfg in
     if negb proceed then ret message
     else retrieve agentId message name cfg) (s_precheck name).
Proof.
  intros [H1 H2]. unfold enrich_body.
  rewrite (bind_ok _ _ _ _ _ (eq_trans (run_eq _ _) (f_equal (fun r => (r, _)) H1))).
  rewrite (bind_ok _ _ _ _ _ (unit_run _ _ (safe_debug_collection _ _ _))).
  fold (s_refresh name).
  rewrite (bind_ok _ _ _ _ _ (eq_trans (run_eq _ _) (f_equal (fun r => (r, _)) H2))).
  rewrite (bind_ok _ _ _ _ _ (unit_run _ _ (safe_debug_update _ _))).
  reflexivity.
Qed.

Lemma body_after_gate name :
  gate_passed name ->
  enrich_body agentId message cfg s
  = (let* queryResult := run_query (fst (mode_at name)) message name cfg in
     debug_query_used agentId cfg (snd (mode_at name)) (query queryResult) ;;
     compose agentId message (snd (mode_at name)) cfg (results queryResult))
      (s_query name).
Proof.
  intros [Hr Hg]. rewrite (body_after_refresh name Hr).
  rewrite (bind_ok _ _ _ _ _ (eq_trans (run_eq _ _) (f_equal (fun r => (r, _)) Hg))).
  cbn [negb]. fold (s_mode name). unfold retrieve.
  destruct (safe_run _ (s_mode name) (safe_resolveRetrievalMode cfg)) as (mode & E).
  assert (Hm : mode_at name = mode).
  { unfold mode_at, outcome_of. rewrite E. reflexivity. }
  rewrite (bind_ok _ _ _ _ _ E).
  rewrite (bind_ok _ _ _ _ _ (unit_run _ _ (safe_debug_query _ _ _ _))).
  unfold s_query. rewrite Hm. reflexivity.
Qed.

(** Whatever stage fails, the [try] block ends with the original message. *)
Lemma stages_fall_back :
  (is_throw (outcome_of (ensureCollection agentId) s) = true -> falls_back)
  /\ (forall name,
        outcome_of (ensureCollection agentId) s = Ok name ->
        is_throw (outcome_of (maybeUpdateCollection name (updateIntervalSeconds cfg))
                    (s_refresh name)) = true ->
        falls_back)
  /\ (forall name,
        refreshed name -> quickPrecheckEnabled cfg = true ->
        outcome_of (quickHasLexicalHit message name cfg) (s_quick name) <> Ok true ->
        falls_back)
  /\ (forall name,
        gate_passed name -> is_throw (query_at name) = true -> falls_back)
  /\ (forall name qr,
        gate_passed name -> query_at name = Ok qr ->
        (results qr = [] -> falls_back)
        /\ (is_throw (ranked_at name qr) = true -> falls_back)
        /\ (forall ranked,
              ranked_at name qr = Ok ranked ->
              formatMemoryPrompt ranked (maxChars cfg) = [] -> falls_back)).
Proof.
  unfold falls_back. repeat split.
  - unfold outcome_of, enrich_body, bind. intros H.
    destruct (ensureCollection agentId s) as [[name|e] s1]; [discriminate | exact I].
  - intros name H1 H2. unfold outcome_of in *. unfold enrich_body.
    rewrite (bind_ok _ _ _ _ _ (eq_trans (run_eq _ _) (f_equal (fun r => (r, _)) H1))).
    rewrite (bind_ok _ _ _ _ _ (unit_run _ _ (safe_debug_collection _ _ _))).
    fold (s_refresh name). unfold bind at 1.
    destruct (maybeUpdateCollection name _ (s_refresh name)) as [[[]|e] s1];
      [discriminate | exact I].
  - intros name Hr Hq Hhit. unfold outcome_of. rewrite (body_after_refresh name Hr).
    pose proof (gate_run name Hq Hhit) as Hg. unfold outcome_of in *.
    rewrite (bind_ok _ _ _ _ _ (eq_trans (run_eq _ _) (f_equal (fun r => (r, _)) Hg))).
    reflexivity.
  - intros name Hg Hq. unfold outcome_of. rewrite (body_after_gate name Hg).
    unfold query_at, outcome_of in *. unfold bind at 1.
    destruct (run_query _ message name cfg (s_query name)) as [[qr|e] s1];
      [discriminate | exact I].
  - intros Hnil. unfold outcome_of. rewrite (body_after_gate name H).
    unfold query_at in H0.
    rewrite (bind_ok _ _ _ _ _ (eq_trans (run_eq _ _) (f_equal (fun r => (r, _)) H0))).
    rewrite (bind_ok _ _ _ _ _ (unit_run _ _ (safe_debug_query_used _ _ _ _))).
    unfold compose. rewrite Hnil. reflexivity.
  - intros Hthrow. unfold outcome_of. rewrite (body_after_gate name H).
    unfold query_at in H0.
    rewrite (bind_ok _ _ _ _ _ (eq_trans (run_eq _ _) (f_equal (fun r => (r, _)) H0))).
    rewrite (bind_ok _ _ _ _ _ (unit_run _ _ (safe_debug_query_used _ _ _ _))).
    fold (s_rank name qr). unfold compose.
    destruct (results qr) as [|hit hits] eqn:Er; [reflexivity|].
    unfold bind at 1. unfold asks at 1. unfold bind at 1. unfold lift at 1.
    unfold ranked_at in Hthrow. rewrite Er in Hthrow.
    destruct (rerankAndHydrateResults _ _ _ _); [discriminate | exact I].
  - intros ranked Hrank Hempty. unfold outcome_of. rewrite (body_after_gate name H).
    unfold query_at in H0.
    rewrite (bind_ok _ _ _ _ _ (eq_trans (run_eq _ _) (f_equal (fun r => (r, _)) H0))).
    rewrite (bind_ok _ _ _ _ _ (unit_run _ _ (safe_debug_query_used _ _ _ _))).
    fold (s_rank name qr). unfold compose.
    destruct (results qr) as [|hit hits] eqn:Er; [reflexivity|].
    unfold bind at 1. unfold asks at 1. unfold bind at 1. unfold lift at 1.
    unfold ranked_at in Hrank. rewrite Er in Hrank. rewrite Hrank, Hempty.
    reflexivity.
Qed.

End Stages.

(** The state in which the [try] block of [enrichMessageWithMemory] starts:
    after the probe for the backend and the debug line. *)
Definition s_try (agentId : jsstring) (cfg : QmdConfig) (s : env) : env :=
  let s1 := after (isQmdAvailable (command cfg)) s in
  after (debug_qmd agentId cfg (qmd_command (the_state s1))) s1.

(** With memory enabled, an eligible channel and the backend found, the
    entry point returns what the [try] block returns, and the message when
    it throws. *)
Lemma enrich_run_available agentId message settings channel s :
  let cfg := getQmdConfig settings in
  enabled cfg = true -> shouldUseMemoryForChannel channel = true ->
  outcome_of (isQmdAvailable (command cfg)) s = Ok true ->
  exists s',
    enrichMessageWithMemory agentId message settings channel s
    = (Ok match outcome_of (enrich_body agentId message cfg) (s_try agentId cfg s) with
          | Ok r => r
          | Throw _ => message
          end, s').
Proof.
  cbv zeta. intros He Hc Ha. unfold enrichMessageWithMemory. rewrite He, Hc.
  cbn [negb].
  rewrite (bind_ok _ _ _ _ _ (eq_trans (run_eq _ _) (f_equal (fun r => (r, _)) Ha))).
  cbn [negb]. unfold bind at 1. unfold gets at 1.
  rewrite (bind_ok _ _ _ _ _ (unit_run _ _ (safe_debug_qmd _ _ _))).
  fold (s_try agentId (getQmdConfig settings) s).
  unfold try_catch, outcome_of.
  destruct (enrich_body agentId message _ _) as [[r|e] s2].
  - eexists. reflexivity.
  - rewrite (bind_ok _ _ _ _ _ (log_run _ _ _)).
    rewrite (bind_ok _ _ _ _ _ (log_run _ _ _)).
    eexists. reflexivity.
Qed.

Lemma enrich_run_unavailable agentId message settings channel s :
  let cfg := getQmdConfig settings in
  outcome_of (isQmdAvailable (command cfg)) s = Ok false ->
  exists s',
    enrichMessageWithMemory agentId message settings channel s = (Ok message, s').
Proof.
  cbv zeta. intros Ha. unfold enrichMessageWithMemory.
  destruct (enabled _); cbn [negb]; [|eexists; reflexivity].
  destruct (shouldUseMemoryForChannel channel); cbn [negb]; [|eexists; reflexivity].
  rewrite (bind_ok _ _ _ _ _ (eq_trans (run_eq _ _) (f_equal (fun r => (r, _)) Ha))).
  cbn [negb]. unfold bind at 1. unfold gets at 1.
  destruct (qmdUnavailableLogged _); cbn [negb].
  - unfold bind at 1. unfold ret at 1.
    rewrite (bind_ok _ _ _ _ _ (log_run _ _ _)). eexists. reflexivity.
  - unfold bind at 1. unfold bind at 1. rewrite log_run. unfold modify at 1.
    rewrite (bind_ok _ _ _ _ _ (log_run _ _ _)). eexists. reflexivity.
Qed.

(** C1.  [enrichMessageWithMemory] always returns a string and never
    throws.  It returns the original message, unmodified, when memory is
    disabled, when the channel is not memory-eligible, when the backend is
    unavailable, and whenever a stage of the [try] block fails: any
    exception at all in the block, and in particular a failure to register
    the collection, a failure to refresh it, a precheck that errs or finds
    nothing, a search that fails (non-zero exit, time-out, unreadable
    output), no hit, a failure while ranking, and no snippet within the
    budget. *)
Theorem enrich_fails_open (agentId message : jsstring) (settings : Settings)
    (channel : jsstring) (s : env) :
  let cfg := getQmdConfig settings in
  let s0 := s_try agentId cfg s in
  exists r s',
    enrichMessageWithMemory agentId message settings channel s = (Ok r, s')
    /\ (enabled cfg = false -> r = message)
    /\ (shouldUseMemoryForChannel channel = false -> r = message)
    /\ (outcome_of (isQmdAvailable (command cfg)) s = Ok false -> r = message)
    /\ (enabled cfg = true -> shouldUseMemoryForChannel channel = true ->
        outcome_of (isQmdAvailable (command cfg)) s = Ok true ->
        (is_throw (outcome_of (enrich_body agentId message cfg) s0) = true ->
         r = message)
        /\ (is_throw (outcome_of (ensureCollection agentId) s0) = true -> r = message)
        /\ (forall name,
              outcome_of (ensureCollection agentId) s0 = Ok name ->
              is_throw (outcome_of
                          (maybeUpdateCollection name (updateIntervalSeconds cfg))
                          (s_refresh agentId cfg s0 name)) = true ->
              r = message)
        /\ (forall name,
              refreshed agentId cfg s0 name -> quickPrecheckEnabled cfg = true ->
              outcome_of (quickHasLexicalHit message name cfg)
                (s_quick agentId message cfg s0 name) <> Ok true ->
              r = message)
        /\ (forall name,
              gate_passed agentId message cfg s0 name ->
              is_throw (query_at agentId message cfg s0 name) = true ->
              r = message)
        /\ (forall name qr,
              gate_passed agentId message cfg s0 name ->
              query_at agentId message cfg s0 name = Ok qr ->
              (results qr = [] -> r = message)
              /\ (is_throw (ranked_at agentId message cfg s0 name qr) = true ->
                  r = message)
              /\ (forall ranked,
                    ranked_at agentId message cfg s0 name qr = Ok ranked ->
                    formatMemoryPrompt ranked (maxChars cfg) = [] ->
                    r = message))).
Proof.
  cbv zeta.
  destruct (enrich_result agentId message settings channel s) as (r & s' & E & _).
  exists r, s'. split; [exact E|].
  split.
  { intros He. unfold enrichMessageWithMemory in E. rewrite He in E.
    cbn [negb] in E. injection E as <- _. reflexivity. }
  split.
  { intros Hc. unfold enrichMessageWithMemory in E. rewrite Hc in E.
    destruct (enabled _); cbn [negb] in E; injection E as <- _; reflexivity. }
  split.
  { intros Ha.
    destruct (enrich_run_unavailable agentId message settings channel s Ha) as (s2 & E2).
    rewrite E in E2. injection E2 as -> _. reflexivity. }
  intros He Hc Ha.
  destruct (enrich_run_available agentId message settings channel s He Hc Ha)
    as (s2 & E2).
  rewrite E in E2. injection E2 as Hr _.
  set (cfg := getQmdConfig settings) in *. set (s0 := s_try agentId cfg s) in *.
  assert (Hfall : falls_back agentId message cfg s0 -> r = message).
  { unfold falls_back. rewrite Hr.
    destruct (outcome_of (enrich_body agentId message cfg) s0); auto. }
  destruct (stages_fall_back agentId message cfg s0) as (F1 & F2 & F3 & F4 & F5).
  split.
  { intros Ht. rewrite Hr.
    destruct (outcome_of (enrich_body agentId message cfg) s0);
      [discriminate | reflexivity]. }
  split; [auto|]. split; [eauto|]. split; [eauto|]. split; [eauto|].
  intros name qr Hg Hq. destruct (F5 name qr Hg Hq) as (G1 & G2 & G3).
  split; [auto|]. split; [auto|]. eauto.
Qed.

(* ===================================================================== *)
(** * The theorems at concrete inputs *)
(* ===================================================================== *)

(** A world with the backend installed at its default place; every process
    succeeds unless the script says otherwise. *)
Definition demo_world (sc : list outcome) (times : list number) : world :=
  MkWorld sc [] times ∅ (fun _ => true) (js "/home/u") (js "/home/u/.tinyclaw") [].

Definition demo_settings : Settings :=
  [(js "memory", VObj [(js "enabled", VBool true)])].

(** Semantic search asked for with expansion left on and no override:
    [resolveRetrievalMode] picks lexical search. *)
Lemma retrieval_mode_policy_witness :
  let cfg := getQmdConfig
               [(js "memory",
                 VObj [(js "enabled", VBool true);
                       (js "qmd", VObj [(js "use_semantic_search", VBool true);
                                        (js "disable_query_expansion", VBool false)])])] in
  exists s', resolveRetrievalMode cfg (Env initial_state (demo_world [] []))
             = (Ok (false, js "qmd-bm25"), s').
Proof.
  cbv zeta.
  destruct (retrieval_mode_policy
              (getQmdConfig
                 [(js "memory",
                   VObj [(js "enabled", VBool true);
                         (js "qmd", VObj [(js "use_semantic_search", VBool true);
                                          (js "disable_query_expansion", VBool false)])])])
              (Env initial_state (demo_world [] [])))
    as (v & label & s' & E & Hl & _ & H1 & _).
  exists s'. rewrite E, Hl.
  rewrite (H1 eq_refl eq_refl eq_refl). reflexivity.
Defined.

(** Three snippets of a thousand characters each under the default budget
    of 2500: the blocks of the first two are included, and that of the third
    is not. *)
Definition demo_hit : QmdResult := MkResult 0 (replicate 1000 120) [].

Lemma prompt_blocks_within_budget_witness :
  maxChars (getQmdConfig demo_settings) = 2500%float
  /\ prompt_blocks [demo_hit; demo_hit; demo_hit] 0 0 2500
     = [block_of 0 demo_hit; block_of 1 demo_hit].
Proof.
  split; [vm_compute; reflexivity|].
  destruct (prompt_blocks_within_budget [demo_hit; demo_hit; demo_hit] 2500)
    as ((k & Hk & Eb & Hin & Hnext) & _).
  destruct k as [|[|[|[|k]]]].
  - specialize (Hnext demo_hit eq_refl). rewrite Eb in Hnext.
    vm_compute in Hnext. discriminate Hnext.
  - specialize (Hnext demo_hit eq_refl). rewrite Eb in Hnext.
    vm_compute in Hnext. discriminate Hnext.
  - rewrite Eb. reflexivity.
  - specialize (Hin 2%nat ltac:(lia)). rewrite Eb in Hin.
    vm_compute in Hin. discriminate Hin.
  - cbn [length] in Hk. lia.
Defined.

(** C3 as stated fails under the default configuration.  A search that
    returns one snippet of 2400 characters gives a block of 2441, within
    the budget of 2500; the string composed from it is 2576 characters long,
    and it is what [enrichMessageWithMemory] appends to the message. *)
Definition long_rows : jsstring :=
  js "[{" ++ [34] ++ js "snippet" ++ [34] ++ js ":" ++ [34] ++ replicate 2400 120
  ++ [34] ++ js "}]".

Lemma prompt_exceeds_budget :
  let cfg := getQmdConfig demo_settings in
  let hit := MkResult 0 (replicate 2400 120) [] in
  let out := formatMemoryPrompt [hit] (maxChars cfg) in
  let w := demo_world
             [Closed (Some 0%Z) [] []; Closed (Some 0%Z) [] [];
              Closed (Some 0%Z) [] []; Closed (Some 0%Z) long_rows [];
              Closed (Some 0%Z) long_rows []] [1000000%float] in
  maxChars cfg = 2500%float
  /\ parseQmdResults long_rows = Ok [hit]
  /\ slen (block_of 0 hit) = 2441%Z
  /\ slen out = 2576%Z
  /\ PrimFloat.ltb (maxChars cfg) (of_Z (slen out)) = true
  /\ fst (enrichMessageWithMemory (js "bot") (js "what is the code?") demo_settings
            (js "telegram") (Env initial_state w))
     = Ok (js "what is the code?" ++ out).
Proof. vm_compute. repeat split; reflexivity. Qed.

(** The first variant of the question of the specification. *)
Lemma lexical_variants_normalized_witness :
  head (buildLexicalQueryVariants (js "what is the api key?"))
  = Some (cleaned (js "what is the api key?")).
Proof.
  destruct (lexical_variants_normalized (js "what is the api key?")) as (H & _).
  apply H. vm_compute. discriminate.
Defined.

(** A refresh that succeeds at [1000000] ms, then two calls one and two
    seconds later with an interval of 120 s: one update call in all. *)
Lemma refresh_cooldown_witness :
  let s := Env initial_state
             (demo_world [Closed (Some 0%Z) [] []] [1000000; 1001000; 1002000]%float) in
  let name := js "tinyclaw-bot" in
  exists s1 s2,
    maybeUpdateCollection name 120 s = (Ok tt, s1)
    /\ refresh_many 2 name 120 s1 = (Ok tt, s2)
    /\ spawned (the_world s2) = [update_call initial_state name].
Proof.
  cbv zeta.
  destruct (refresh_cooldown (js "tinyclaw-bot") 120
              (Env initial_state
                 (demo_world [Closed (Some 0%Z) [] []] [1000000; 1001000; 1002000]%float)))
    as (_ & _ & H).
  eexists. 
  destruct (H _ 2%nat ltac:(vm_compute; reflexivity)) as (s2 & E2 & Hs).
  - vm_compute. reflexivity.
  - vm_compute. reflexivity.
  - vm_compute. lia.
  - vm_compute. repeat constructor.
  - exists s2. split; [vm_compute; reflexivity|]. split; [exact E2 | exact Hs].
Defined.

(** A turn saved in an empty world and parsed back. *)
Lemma turn_roundtrip_witness :
  let params := MkTurn (js "bot") (js "Bot") (js "telegram") (js "me") (js "m1")
                  (js "what is the code?") (js "The key is ABC-123-XYZ")
                  (Some 1700000000123%float) in
  let content := join newline (turn_lines params (js "2023-11-14T22:13:20.123Z")) in
  exists ts iso,
    Date.toISOString ts = Ok iso
    /\ content = toWellFormed (join newline (turn_lines params iso))
    /\ (markers_in_place params iso = true ->
        parseTurnSections content
        = MkSections (js "what is the code?") (js "The key is ABC-123-XYZ")).
Proof.
  cbv zeta.
  apply (turn_roundtrip
           (MkTurn (js "bot") (js "Bot") (js "telegram") (js "me") (js "m1")
              (js "what is the code?") (js "The key is ABC-123-XYZ")
              (Some 1700000000123%float))
           (Env initial_state (demo_world [] []))
           (js "/home/u/.tinyclaw/memory/turns/bot/2023-11-14T22-13-20-123Z-m1.md")).
  - vm_compute. reflexivity.
  - vm_compute. discriminate.
Defined.

(** The backend answers the probe and then fails to register the
    collection: the message comes back as it was sent. *)
Lemma enrich_fails_open_witness :
  let s := Env initial_state
             (demo_world [Closed (Some 0%Z) [] []; Closed (Some 1%Z) [] (js "boom")]
                [1000000%float]) in
  exists s',
    enrichMessageWithMemory (js "bot") (js "what is the code?") demo_settings
      (js "telegram") s
    = (Ok (js "what is the code?"), s').
Proof.
  cbv zeta.
  destruct (enrich_fails_open (js "bot") (js "what is the code?") demo_settings
              (js "telegram")
              (Env initial_state
                 (demo_world [Closed (Some 0%Z) [] []; Closed (Some 1%Z) [] (js "boom")]
                    [1000000%float])))
    as (r & s' & E & _ & _ & _ & H).
  exists s'. rewrite E.
  destruct H as (_ & Hc & _);
    [vm_compute; reflexivity | vm_compute; reflexivity | vm_compute; reflexivity |].
  rewrite Hc; [reflexivity | vm_compute; reflexivity].
Defined.

(* ===================================================================== *)
(** * Further properties of [memory.ts] *)
(* ===================================================================== *)

(** Comparisons of code units as propositions. *)
Ltac units :=
  repeat match goal with
    | H : _ && _ = true |- _ => apply andb_true_iff in H as [? ?]
    | H : _ || _ = true |- _ => apply orb_true_iff in H as [?|?]
    | H : _ && _ = false |- _ => apply andb_false_iff in H as [?|?]
    | H : _ || _ = false |- _ => apply orb_false_iff in H as [? ?]
    | H : negb _ = true |- _ => apply negb_true_iff in H
    | H : negb _ = false |- _ => apply negb_false_iff in H
    | H : (_ <=? _) = true |- _ => apply N.leb_le in H
    | H : (_ <=? _) = false |- _ => apply N.leb_gt in H
    | H : (_ <? _) = true |- _ => apply N.ltb_lt in H
    | H : (_ <? _) = false |- _ => apply N.ltb_ge in H
    | H : (_ =? _) = true |- _ => apply N.eqb_eq in H
    | H : (_ =? _) = false |- _ => apply N.eqb_neq in H
    end.

(** ** White space at the ends of a string *)

(** A string of white space only. *)
Definition blank (s : jsstring) : Prop := Forall (fun c => is_space c = true) s.

(** A string that neither starts nor ends with white space. *)
Definition tight (s : jsstring) : Prop :=
  (forall c r, s = c :: r -> is_space c = false)
  /\ (forall l c, s = l ++ [c] -> is_space c = false).

Lemma trim_start_blank_app a s : blank a -> trim_start (a ++ s) = trim_start s.
Proof.
  induction 1 as [|c a Hc _ IH]; [reflexivity|].
  cbn [app trim_start]. rewrite Hc. exact IH.
Qed.

Lemma trim_start_split s : exists a, blank a /\ s = a ++ trim_start s.
Proof.
  induction s as [|c s (a & Ha & E)]; cbn [trim_start].
  - exists []. split; [constructor | reflexivity].
  - destruct (is_space c) eqn:Hc.
    + exists (c :: a). split; [constructor; assumption|].
      cbn [app]. f_equal. exact E.
    + exists []. split; [constructor | reflexivity].
Qed.

Lemma blank_rev a : blank a -> blank (rev a).
Proof. apply Forall_rev. Qed.

Lemma trim_end_blank_app s b : blank b -> trim_end (s ++ b) = trim_end s.
Proof.
  intros Hb. unfold trim_end. rewrite rev_app_distr.
  rewrite trim_start_blank_app by (apply blank_rev, Hb). reflexivity.
Qed.

Lemma trim_end_split s : exists b, blank b /\ s = trim_end s ++ b.
Proof.
  unfold trim_end. destruct (trim_start_split (rev s)) as (a & Ha & E).
  exists (rev a). split; [apply blank_rev, Ha|].
  rewrite <- rev_app_distr, <- E, rev_involutive. reflexivity.
Qed.

Lemma trim_end_last s :
  trim_end s = [] \/ exists l c, trim_end s = l ++ [c] /\ is_space c = false.
Proof.
  unfold trim_end. destruct (trim_start_head (rev s)) as [-> | (c & r & -> & H)].
  - left. reflexivity.
  - right. exists (rev r), c. split; [reflexivity | exact H].
Qed.

Lemma tight_nil : tight [].
Proof. split; intros ? ? E; [discriminate | destruct l; discriminate]. Qed.

Lemma snoc_inj {A} (l l' : list A) c c' : l ++ [c] = l' ++ [c'] -> l = l' /\ c = c'.
Proof. intros E. apply app_inj_tail in E. exact E. Qed.

(** What [trim] returns is tight. *)
Lemma trim_tight s : tight (trim s).
Proof.
  split.
  - intros c r E. destruct (trim_head s) as [E' | (c' & r' & E' & H)]; congruence.
  - intros l c E. unfold trim in *.
    destruct (trim_end_last (trim_start s)) as [E' | (l' & c' & E' & H)].
    + rewrite E' in E. destruct l; discriminate.
    + rewrite E' in E. apply snoc_inj in E as [_ <-]. exact H.
Qed.

(** [trim] leaves a tight string as it is. *)
Lemma trim_of_tight s : tight s -> trim s = s.
Proof.
  intros [Hh Hl]. unfold trim.
  assert (trim_start s = s) as ->.
  { destruct s as [|c r]; [reflexivity|]. cbn [trim_start].
    rewrite (Hh c r eq_refl). reflexivity. }
  destruct (trim_end_split s) as (b & Hb & E).
  destruct b as [|x b _] using rev_ind.
  - rewrite app_nil_r in E. symmetry. exact E.
  - exfalso. rewrite app_assoc in E. apply Hl in E.
    unfold blank in Hb. rewrite Forall_app, Forall_singleton in Hb. destruct Hb. congruence.
Qed.

Lemma trim_idempotent s : trim (trim s) = trim s.
Proof. apply trim_of_tight, trim_tight. Qed.

(** [trim] strips blank text around a tight core. *)
Lemma trim_padded a core b : blank a -> blank b -> tight core -> trim (a ++ core ++ b) = core.
Proof.
  intros Ha Hb Hc. unfold trim. rewrite trim_start_blank_app by exact Ha.
  destruct core as [|c r].
  - cbn [app]. destruct (trim_start_split b) as (a' & _ & E).
    assert (trim_start b = []) as ->; [|reflexivity].
    clear E a'. induction Hb as [|x b Hx _ IH]; [reflexivity|].
    cbn [trim_start]. rewrite Hx. exact IH.
  - cbn [app trim_start]. rewrite (proj1 Hc c r eq_refl).
    change (c :: r ++ b) with ((c :: r) ++ b).
    rewrite trim_end_blank_app by exact Hb.
    change (trim_end (c :: r)) with (trim_end (c :: r)).
    pose proof (trim_of_tight (c :: r) Hc) as E. unfold trim in E.
    cbn [trim_start] in E. rewrite (proj1 Hc c r eq_refl) in E. exact E.
Qed.

Lemma trim_split s : exists a b, blank a /\ blank b /\ s = a ++ trim s ++ b.
Proof.
  destruct (trim_start_split s) as (a & Ha & Ea).
  destruct (trim_end_split (trim_start s)) as (b & Hb & Eb).
  exists a, b. split; [exact Ha|]. split; [exact Hb|].
  unfold trim. rewrite <- Eb. exact Ea.
Qed.

Lemma trim_blank s : blank s -> trim s = [].
Proof.
  intros H. rewrite <- (app_nil_r s). change (s ++ []) with (s ++ [] ++ []).
  apply (trim_padded s [] []); [exact H | constructor | apply tight_nil].
Qed.

(** ** Replacing the matches of one character class *)

Lemma replace_go_class ci p by_ bef s :
  replace_go ci (Cls p) by_ bef s 0
  = flat_map (fun c => if p c then by_ else [c]) s.
Proof.
  revert bef. induction s as [|c s IH]; intros bef; [reflexivity|].
  cbn [replace_go flat_map]. unfold match_at. cbn [rmatch step Regex.after].
  destruct (p c); cbn [head].
  - cbn [Regex.after length]. rewrite Nat.sub_succ_l, Nat.sub_diag by lia.
    rewrite IH. reflexivity.
  - rewrite IH. reflexivity.
Qed.

Lemma replace_all_class ci p by_ s :
  replace_all ci (Cls p) by_ s = flat_map (fun c => if p c then by_ else [c]) s.
Proof. apply replace_go_class. Qed.

Lemma replace_go_chr x by_ bef s :
  replace_go false (Chr x) by_ bef s 0
  = flat_map (fun c => if c =? x then by_ else [c]) s.
Proof.
  revert bef. induction s as [|c s IH]; intros bef; [reflexivity|].
  cbn [replace_go flat_map]. unfold match_at. cbn [rmatch step Regex.after same_char].
  destruct (c =? x); cbn [head].
  - cbn [Regex.after length]. rewrite Nat.sub_succ_l, Nat.sub_diag by lia.
    rewrite IH. reflexivity.
  - rewrite IH. reflexivity.
Qed.

(** ** Identifiers (sanitizeId, getCollectionName) *)

(** The characters [sanitizeId] lets through: [a-z0-9_-]. *)
Definition is_id_char (c : N) : bool :=
  is_lower c || is_digit c || (c =? 95) || (c =? 45).

Lemma sanitizeId_scan raw :
  sanitizeId raw
  = flat_map (fun c => if is_id_char c then [c] else js "-") (toLowerCase raw).
Proof.
  unfold sanitizeId, re_unsafe_id. rewrite replace_all_class.
  apply flat_map_ext. intros c. unfold is_id_char.
  destruct (is_lower c || is_digit c || (c =? 95) || (c =? 45)); reflexivity.
Qed.

Lemma lower_unit_id_char c : is_id_char c = true -> lower_unit c = [c].
Proof.
  unfold is_id_char, is_lower, is_digit, lower_unit. intros H.
  destruct ((65 <=? c) && (c <=? 90)) eqn:E1; [exfalso; units; lia|].
  destruct (c =? 0x212A) eqn:E2; [exfalso; units; lia|].
  destruct (c =? 0x0130) eqn:E3; [exfalso; units; lia|]. reflexivity.
Qed.

Lemma sanitizeId_fixed s :
  Forall (fun c => is_id_char c = true) s -> sanitizeId s = s.
Proof.
  intros H. rewrite sanitizeId_scan. unfold toLowerCase.
  induction H as [|c s Hc _ IH]; [reflexivity|].
  cbn [flat_map]. rewrite (lower_unit_id_char c Hc). cbn [app flat_map].
  rewrite Hc. cbn [app]. f_equal. exact IH.
Qed.

Lemma sanitizeId_chars raw : Forall (fun c => is_id_char c = true) (sanitizeId raw).
Proof.
  rewrite sanitizeId_scan. generalize (toLowerCase raw). intros s.
  induction s as [|c s IH]; [constructor|].
  cbn [flat_map]. destruct (is_id_char c) eqn:E.
  - constructor; assumption.
  - constructor; [reflexivity | exact IH].
Qed.

(** X1.  Whatever the agent id, [sanitizeId] returns a string over
    [a-z0-9_-] only (so it holds no path separator, no dot and no upper-case
    letter); an id that already is such a string is returned as it is, and
    sanitizing twice is sanitizing once.  The collection name is
    ["tinyclaw-"] followed by that string, so it is over the same
    characters. *)
Theorem sanitizeId_safe (raw : jsstring) :
  (forall c, c ∈ sanitizeId raw ->
     (97 <= c <= 122) \/ (48 <= c <= 57) \/ c = 95 \/ c = 45)
  /\ sanitizeId (sanitizeId raw) = sanitizeId raw
  /\ ((forall c, c ∈ raw -> is_id_char c = true) -> sanitizeId raw = raw)
  /\ (forall c, c ∈ getCollectionName raw -> is_id_char c = true).
Proof.
  pose proof (sanitizeId_chars raw) as H.
  split; [|split; [|split]].
  - intros c Hc. rewrite Forall_forall in H. specialize (H c Hc).
    unfold is_id_char, is_lower, is_digit in H. units; lia.
  - apply sanitizeId_fixed, H.
  - intros Hraw. apply sanitizeId_fixed. rewrite Forall_forall. exact Hraw.
  - intros c Hc. unfold getCollectionName in Hc.
    apply elem_of_app in Hc as [Hc | Hc].
    + revert c Hc. apply Forall_forall. vm_compute. repeat constructor.
    + rewrite Forall_forall in H. exact (H c Hc).
Qed.

(** ** Length caps (truncate, truncateInline) *)

(** X2.  [truncate] returns a text within the cap as it is and cuts a longer
    one to its first 16000 code units followed by the 13 code units of the
    marker; so the result never exceeds 16013 code units, it keeps the first
    16000 code units of the text, and truncating twice is truncating once. *)
Theorem truncate_cap (text : jsstring) :
  (slen (truncate text) <= 16013)%Z
  /\ ((slen text <= 16000)%Z -> truncate text = text)
  /\ ((16000 < slen text)%Z ->
      truncate text
      = take (Z.to_nat 16000) text ++ newline ++ newline ++ js "[truncated]")
  /\ take (Z.to_nat 16000) (truncate text) = take (Z.to_nat 16000) text
  /\ truncate (truncate text) = truncate text.
Proof.
  unfold truncate, slen.
  remember (Z.to_nat 16000) as cap eqn:Ecap.
  assert (Hcap : Z.of_nat cap = 16000%Z) by (subst; apply Z2Nat.id; lia).
  clear Ecap.
  set (marker := newline ++ newline ++ js "[truncated]").
  assert (Hm : length marker = 13%nat) by reflexivity.
  destruct (Z.leb_spec (Z.of_nat (length text)) 16000) as [Hle | Hgt].
  - repeat split; try lia; try reflexivity.
    destruct (Z.leb_spec (Z.of_nat (length text)) 16000); [reflexivity | lia].
  - assert (Hlen : length (take cap text) = cap) by (rewrite length_take; lia).
    repeat split; try lia.
    + rewrite length_app, Hlen, Hm. lia.
    + rewrite take_app_length'; [reflexivity | symmetry; exact Hlen].
    + destruct (Z.leb_spec (Z.of_nat (length (take cap text ++ marker))) 16000) as [H | H].
      * rewrite length_app, Hlen, Hm in H. lia.
      * rewrite take_app_length' by (symmetry; exact Hlen). reflexivity.
Qed.

(** X3.  [truncateInline] returns a text of at most [max] code units as it
    is and cuts a longer one to its first [max] code units followed by three
    dots; the result is at most [max + 3] code units long and cutting twice
    is cutting once. *)
Theorem truncateInline_cap (text : jsstring) (max : nat) :
  (length (truncateInline text max) <= max + 3)%nat
  /\ ((length text <= max)%nat -> truncateInline text max = text)
  /\ ((max < length text)%nat ->
      truncateInline text max = take max text ++ js "...")
  /\ take max (truncateInline text max) = take max text
  /\ truncateInline (truncateInline text max) max = truncateInline text max.
Proof.
  unfold truncateInline.
  destruct (Nat.leb_spec (length text) max) as [Hle | Hgt].
  - repeat split; try lia; try reflexivity.
    destruct (Nat.leb_spec (length text) max); [reflexivity | lia].
  - assert (Hlen : length (take max text) = max) by (rewrite length_take; lia).
    repeat split; try lia.
    + rewrite length_app, Hlen. change (length (js "...")) with 3%nat. lia.
    + rewrite take_app_length'; [reflexivity | symmetry; exact Hlen].
    + destruct (Nat.leb_spec (length (take max text ++ js "...")) max) as [H | H].
      * rewrite length_app, Hlen in H. change (length (js "...")) with 3%nat in H. lia.
      * rewrite take_app_length' by (symmetry; exact Hlen). reflexivity.
Qed.

(** ** Greedy repetition of a character class *)

(** How many leading code units of [s] are in the class [p]. *)
Fixpoint run_length (p : N -> bool) (s : jsstring) : nat :=
  match s with
  | c :: r => if p c then S (run_length p r) else 0
  | [] => 0
  end.

(** The iteration of [rmatch] on a repetition [Rep lo None (Cls p)]. *)
Section RepClass.

Variables (ci : bool) (p : N -> bool) (lo : nat).

Fixpoint rep_class (fuel count : nat) (z : pos) {struct fuel} : list pos :=
  let stop := if (lo <=? count)%nat then [z] else [] in
  match fuel with
  | O => stop
  | S f =>
      flat_map (rep_class f (S count))
        (filter (fun z' => progressed z z') (rmatch ci (Cls p) z)) ++ stop
  end.

End RepClass.

Lemma rmatch_rep_class ci p lo z :
  rmatch ci (Rep lo None (Cls p)) z = rep_class ci p lo (S (length (Regex.after z))) 0 z.
Proof. reflexivity. Qed.

Lemma run_length_le p s : (run_length p s <= length s)%nat.
Proof. induction s as [|c s IH]; cbn; [lia|]. destruct (p c); cbn; lia. Qed.

(** The first match of the repetition takes the whole run. *)
Lemma rep_class_head ci p lo aft :
  forall fuel count bef cap,
    (length aft < fuel)%nat -> (lo <= count + run_length p aft)%nat ->
    exists tl,
      rep_class ci p lo fuel count (Pos bef aft cap)
      = Pos (rev (take (run_length p aft) aft) ++ bef)
          (drop (run_length p aft) aft) cap :: tl.
Proof.
  induction aft as [|c r IH]; intros fuel count bef cap Hfuel Hlo.
  - destruct fuel as [|f]; [cbn in Hfuel; lia|].
    cbn [rep_class rmatch step Regex.after run_length] in *.
    rewrite filter_nil. cbn [flat_map app].
    destruct (Nat.leb_spec lo count); [|lia]. eexists. reflexivity.
  - destruct fuel as [|f]; [cbn in Hfuel; lia|].
    cbn [rep_class rmatch step Regex.after Regex.before Regex.capture run_length] in *.
    destruct (p c) eqn:Hp.
    + rewrite filter_cons_True
        by (unfold progressed; cbn [Regex.after length];
            apply Is_true_true, Nat.ltb_lt; lia).
      rewrite filter_nil. cbn [flat_map]. rewrite app_nil_r.
      destruct (IH f (S count) (c :: bef) cap) as (tl & ->);
        [cbn [length] in Hfuel; lia | lia |].
      cbn [take drop rev]. rewrite <- app_assoc. cbn [app].
      eexists. reflexivity.
    + rewrite filter_nil. cbn [flat_map app take drop rev].
      destruct (Nat.leb_spec lo count); [|lia]. eexists. reflexivity.
Qed.

(** The repetition does not match where the run is shorter than [lo]. *)
Lemma rep_class_none ci p lo aft :
  forall fuel count bef cap,
    (count + run_length p aft < lo)%nat ->
    rep_class ci p lo fuel count (Pos bef aft cap) = [].
Proof.
  induction aft as [|c r IH]; intros fuel count bef cap Hlo.
  - destruct fuel as [|f];
      cbn [rep_class rmatch step Regex.after run_length] in *;
      rewrite ?filter_nil; cbn [flat_map app];
      destruct (Nat.leb_spec lo count); try lia; reflexivity.
  - destruct fuel as [|f];
      cbn [rep_class rmatch step Regex.after Regex.before Regex.capture run_length] in *.
    + destruct (Nat.leb_spec lo count); [|reflexivity]. destruct (p c); lia.
    + destruct (p c) eqn:Hp.
      * rewrite filter_cons_True
          by (unfold progressed; cbn [Regex.after length];
              apply Is_true_true, Nat.ltb_lt; lia).
        rewrite filter_nil. cbn [flat_map]. rewrite app_nil_r.
        rewrite IH by lia. destruct (Nat.leb_spec lo count); [lia | reflexivity].
      * rewrite filter_nil. cbn [flat_map app].
        destruct (Nat.leb_spec lo count); [lia | reflexivity].
Qed.

(** ** Collapsing white space ([replace(/\s+/g, ' ')]) *)

(** The replacement read as a scan: a run of white space gives one space.
    [in_run] says that the code unit before was white space. *)
Fixpoint squeeze (in_run : bool) (s : jsstring) : jsstring :=
  match s with
  | [] => []
  | c :: r =>
      if is_space c
      then (if in_run then squeeze true r else 32 :: squeeze true r)
      else c :: squeeze false r
  end.

Lemma replace_go_skip ci r by_ run :
  forall bef rest,
    replace_go ci r by_ bef (run ++ rest) (length run)
    = replace_go ci r by_ (rev run ++ bef) rest 0.
Proof.
  induction run as [|c run IH]; intros bef rest; [reflexivity|].
  cbn [app length replace_go rev]. rewrite IH, <- app_assoc. reflexivity.
Qed.

Lemma squeeze_run r :
  squeeze true r = squeeze false (drop (run_length is_space r) r).
Proof.
  induction r as [|x r IH]; [reflexivity|].
  cbn [squeeze run_length]. destruct (is_space x) eqn:E.
  - cbn [drop]. exact IH.
  - cbn [drop squeeze]. rewrite E. reflexivity.
Qed.

Lemma replace_spaces_go n :
  forall s bef, (length s <= n)%nat ->
    replace_go false re_spaces (js " ") bef s 0 = squeeze false s.
Proof.
  induction n as [|n IH]; intros s bef Hn.
  - destruct s; [reflexivity | cbn in Hn; lia].
  - destruct s as [|c r]; [reflexivity|]. cbn [length] in Hn.
    cbn [replace_go squeeze]. destruct (is_space c) eqn:Hc.
    + unfold match_at, re_spaces. rewrite rmatch_rep_class. cbn [Regex.after].
      destruct (rep_class_head false is_space 1 (c :: r)
                  (S (length (c :: r))) 0 bef None) as (tl & ->);
        [lia | cbn [run_length]; rewrite Hc; lia |].
      cbn [head Regex.after run_length]. rewrite Hc. cbn [drop length].
      pose proof (run_length_le is_space r) as Hle.
      rewrite length_drop.
      replace (S (length r) - (length r - run_length is_space r))%nat
        with (S (run_length is_space r)) by lia.
      change (js " ") with [32]. cbn [app]. f_equal.
      rewrite <- (take_drop (run_length is_space r) r) at 1.
      replace (run_length is_space r)
        with (length (take (run_length is_space r) r)) at 3
        by (rewrite length_take; lia).
      rewrite replace_go_skip.
      change [32] with (js " ").
      rewrite IH by (rewrite length_drop; lia).
      symmetry. apply squeeze_run.
    + rewrite spaces_no_match_at_nonspace by exact Hc.
      f_equal. apply IH. lia.
Qed.

(** Replacing every run of white space by one space is the scan. *)
Lemma replace_spaces_squeeze s :
  replace_all false re_spaces (js " ") s = squeeze false s.
Proof. apply (replace_spaces_go (length s)). lia. Qed.

Lemma squeeze_blank f s : blank s -> blank (squeeze f s).
Proof.
  intros H. revert f. induction H as [|c s Hc _ IH]; intros f; [constructor|].
  cbn [squeeze]. rewrite Hc. destruct f; [apply IH|].
  constructor; [reflexivity | apply IH].
Qed.

Lemma squeeze_blank_app f a x :
  blank a -> (forall c r, x = c :: r -> is_space c = false) ->
  squeeze f (a ++ x) = squeeze f a ++ squeeze false x.
Proof.
  intros H Hx. revert f. induction H as [|y a Hy _ IH]; intros f.
  - cbn [app squeeze]. destruct x as [|c r]; [reflexivity|].
    cbn [squeeze]. rewrite (Hx c r eq_refl). reflexivity.
  - cbn [app squeeze]. rewrite Hy. destruct f; rewrite IH; reflexivity.
Qed.

Lemma squeeze_around f l d y :
  is_space d = false ->
  squeeze f (l ++ d :: y) = squeeze f l ++ d :: squeeze false y.
Proof.
  intros Hd. revert f. induction l as [|x l IH]; intros f.
  - cbn [app squeeze]. rewrite Hd. reflexivity.
  - cbn [app squeeze]. destruct (is_space x); [destruct f|]; rewrite IH; reflexivity.
Qed.

Lemma squeeze_true_head s c r : squeeze true s = c :: r -> is_space c = false.
Proof.
  induction s as [|x s IH]; [discriminate|].
  cbn [squeeze]. destruct (is_space x) eqn:E; [exact IH|].
  intros [= <- _]. exact E.
Qed.

(** A text in which white space only occurs as single spaces between
    other characters. *)
Definition single_spaced (s : jsstring) : Prop :=
  tight s
  /\ (forall c, c ∈ s -> is_space c = true -> c = 32)
  /\ (forall l a b r, s = l ++ a :: b :: r -> is_space a = true -> is_space b = false).

Lemma squeeze_spaces f s c : c ∈ squeeze f s -> is_space c = true -> c = 32.
Proof.
  revert f. induction s as [|x s IH]; intros f; cbn [squeeze].
  - intros H. apply elem_of_nil in H. contradiction.
  - destruct (is_space x) eqn:E; [destruct f|].
    + apply IH.
    + intros H Hc. apply elem_of_cons in H as [-> | H]; [reflexivity | eauto].
    + intros H Hc. apply elem_of_cons in H as [-> | H]; [congruence | eauto].
Qed.

Lemma squeeze_apart f s l a b r :
  squeeze f s = l ++ a :: b :: r -> is_space a = true -> is_space b = false.
Proof.
  revert f l. induction s as [|x s IH]; intros f l; cbn [squeeze].
  - destruct l; discriminate.
  - destruct (is_space x) eqn:E; [destruct f|].
    + apply IH.
    + destruct l as [|y l]; cbn [app].
      * intros [= <- H] _. eapply squeeze_true_head, H.
      * intros [= _ H]. eapply IH, H.
    + destruct l as [|y l]; cbn [app].
      * intros [= <- _] Ha. congruence.
      * intros [= _ H]. eapply IH, H.
Qed.

Lemma squeeze_of_tight core : tight core -> single_spaced (squeeze false core).
Proof.
  intros [Hh Hl]. split; [split|split].
  - intros c r E. destruct core as [|x core]; [discriminate|].
    cbn [squeeze] in E. rewrite (Hh x core eq_refl) in E.
    injection E as <- _. exact (Hh x core eq_refl).
  - intros l c E. destruct core as [|d core _] using rev_ind.
    + destruct l; discriminate.
    + pose proof (Hl core d eq_refl) as Hd.
      rewrite (squeeze_around false core d [] Hd) in E. cbn [squeeze] in E.
      apply snoc_inj in E as [_ <-]. exact Hd.
  - intros c. apply squeeze_spaces.
  - intros l a b r. apply squeeze_apart.
Qed.

Lemma squeeze_single_spaced s :
  (forall c, c ∈ s -> is_space c = true -> c = 32) ->
  (forall l a b r, s = l ++ a :: b :: r -> is_space a = true -> is_space b = false) ->
  squeeze false s = s.
Proof.
  induction s as [|x s IH]; intros H1 H2; [reflexivity|].
  assert (IH' : squeeze false s = s).
  { apply IH.
    - intros c Hc. apply H1. right. exact Hc.
    - intros l a b r E. apply (H2 (x :: l) a b r). rewrite E. reflexivity. }
  cbn [squeeze]. destruct (is_space x) eqn:E.
  - rewrite (H1 x (list_elem_of_here _ _) E). f_equal.
    destruct s as [|y s]; [reflexivity|].
    pose proof (H2 [] x y s eq_refl E) as Hy.
    cbn [squeeze] in *. rewrite Hy in *. exact IH'.
  - f_equal. exact IH'.
Qed.

(** Collapsing and trimming commute. *)
Lemma trim_squeeze t : trim (squeeze false t) = squeeze false (trim t).
Proof.
  destruct (trim_split t) as (a & b & Ha & Hb & E).
  pose proof (trim_tight t) as Ht.
  destruct (trim t) as [|d core _] using rev_ind.
  - cbn [app] in E. cbn [squeeze]. apply trim_blank. apply squeeze_blank.
    rewrite E. apply Forall_app. split; assumption.
  - rewrite E at 1.
    pose proof (proj2 Ht core d eq_refl) as Hd.
    rewrite (squeeze_blank_app false a ((core ++ [d]) ++ b) Ha).
    2:{ intros c r Ec. destruct core as [|x core]; cbn [app] in Ec.
        - injection Ec as <- _. exact Hd.
        - injection Ec as <- _. exact (proj1 Ht x (core ++ [d]) eq_refl). }
    rewrite <- app_assoc. cbn [app].
    rewrite (squeeze_around false core d b Hd).
    change (squeeze false core ++ d :: squeeze false b)
      with (squeeze false core ++ [d] ++ squeeze false b).
    rewrite (app_assoc (squeeze false core) [d]).
    replace (squeeze false core ++ [d]) with (squeeze false (core ++ [d]))
      by (rewrite (squeeze_around false core d [] Hd); reflexivity).
    apply trim_padded; [apply squeeze_blank, Ha | apply squeeze_blank, Hb |].
    apply squeeze_of_tight, Ht.
Qed.

(** ** One-line text (normalizeInline) *)

Lemma cleaned_squeeze value : cleaned value = squeeze false (trim value).
Proof. apply replace_spaces_squeeze. Qed.

Lemma normalizeInline_cleaned text : normalizeInline text = cleaned text.
Proof.
  unfold normalizeInline. rewrite replace_spaces_squeeze, cleaned_squeeze.
  apply trim_squeeze.
Qed.

Lemma cleaned_single_spaced value : single_spaced (cleaned value).
Proof. rewrite cleaned_squeeze. apply squeeze_of_tight, trim_tight. Qed.

Lemma cleaned_fixed s : single_spaced s -> cleaned s = s.
Proof.
  intros (Ht & H1 & H2). rewrite cleaned_squeeze, (trim_of_tight s Ht).
  apply squeeze_single_spaced; assumption.
Qed.

Lemma trim_nil_blank s : trim s = [] -> blank s.
Proof.
  intros E. destruct (trim_split s) as (a & b & Ha & Hb & Es).
  rewrite E in Es. rewrite Es. apply Forall_app. split; assumption.
Qed.

Lemma cleaned_nil value : cleaned value = [] <-> blank value.
Proof.
  rewrite cleaned_squeeze. split.
  - intros E. apply trim_nil_blank.
    destruct (trim_head value) as [Et | (c & r & Et & Hc)]; [exact Et|].
    rewrite Et in E. cbn [squeeze] in E. rewrite Hc in E. discriminate.
  - intros H. rewrite (trim_blank value H). reflexivity.
Qed.

(** X4.  [normalizeInline] returns a text with no white space at either
    end, in which every white-space character is a space (U+0020) and no
    two of them are adjacent: tabs and line breaks are gone.  It is empty
    exactly for a text of white space only, it leaves a text of that form as
    it is (so normalizing twice is normalizing once), and it is what [push]
    of [buildLexicalQueryVariants] computes by trimming first and collapsing
    second. *)
Theorem normalizeInline_single_spaced (text : jsstring) :
  let out := normalizeInline text in
  (trim out = out
   /\ (forall c, c ∈ out -> is_space c = true -> c = 32)
   /\ (forall l a b r, out = l ++ a :: b :: r ->
         is_space a = true -> is_space b = false))
  /\ (out = [] <-> forall c, c ∈ text -> is_space c = true)
  /\ normalizeInline out = out
  /\ out = replace_all false re_spaces (js " ") (trim text).
Proof.
  cbv zeta. rewrite !normalizeInline_cleaned.
  pose proof (cleaned_single_spaced text) as H.
  split; [|split; [|split]].
  - destruct H as (Ht & H1 & H2). split; [apply trim_of_tight, Ht | split; assumption].
  - rewrite cleaned_nil. unfold blank. rewrite Forall_forall. reflexivity.
  - apply cleaned_fixed, H.
  - reflexivity.
Qed.

(** ** Lexical variants (buildLexicalQueryVariants), continued *)

Lemma push_length vs value : (length (push vs value) <= S (length vs))%nat.
Proof.
  destruct (push_cases vs value) as [[-> _] | (-> & _)]; [lia|].
  rewrite length_app. cbn. lia.
Qed.

Lemma variants_at_most_five message :
  (length (buildLexicalQueryVariants message) <= 5)%nat.
Proof.
  unfold buildLexicalQueryVariants.
  repeat (etransitivity; [apply push_length | apply le_n_S]). cbn. lia.
Qed.

Lemma push_single_spaced vs value :
  Forall single_spaced vs -> Forall single_spaced (push vs value).
Proof.
  intros H. destruct (push_cases vs value) as [[-> _] | (-> & _)]; [exact H|].
  apply Forall_app. split; [exact H|].
  constructor; [apply cleaned_single_spaced | constructor].
Qed.

Lemma push_blank vs value : blank value -> push vs value = vs.
Proof.
  intros H. unfold push. fold (cleaned value).
  rewrite (proj2 (cleaned_nil value) H). reflexivity.
Qed.

(** Replacing matches by a space keeps a blank text blank. *)
Lemma replace_go_blank ci r s :
  forall bef skip, blank s -> blank (replace_go ci r (js " ") bef s skip).
Proof.
  induction s as [|c s IH]; intros bef skip H.
  - cbn [replace_go]. destruct skip; [|constructor].
    destruct (match_at _ _ _); [|constructor].
    constructor; [reflexivity | constructor].
  - inversion H as [|? ? Hc Hs]; subst. cbn [replace_go].
    destruct skip as [|k]; [|apply IH, Hs].
    destruct (match_at _ _ _) as [z'|].
    + destruct (_ - _)%nat.
      * apply Forall_app. split; [constructor; [reflexivity | constructor]|].
        constructor; [exact Hc | apply IH, Hs].
      * apply Forall_app. split; [constructor; [reflexivity | constructor]|].
        apply IH, Hs.
    + constructor; [exact Hc | apply IH, Hs].
Qed.

Lemma replace_all_blank ci r s : blank s -> blank (replace_all ci r (js " ") s).
Proof. apply replace_go_blank. Qed.

Lemma variants_blank message :
  blank message -> buildLexicalQueryVariants message = [].
Proof.
  intros H. unfold buildLexicalQueryVariants.
  assert (Hp : blank (replace_all false re_punctuation (js " ") message))
    by (apply replace_all_blank, H).
  rewrite (push_blank [] message H).
  rewrite (push_blank [] _ Hp).
  rewrite (push_blank [] _) by (do 2 apply replace_all_blank; exact Hp).
  rewrite (push_blank [] _) by (do 2 apply replace_all_blank; exact Hp).
  apply push_blank. apply replace_all_blank, Hp.
Qed.

(** X5.  [buildLexicalQueryVariants] returns at most five variants.  Each
    has no white space at either end and no white space inside other than
    single spaces.  There is no variant at all exactly when the message is
    white space only (or empty). *)
Theorem lexical_variants_shape (message : jsstring) :
  let vs := buildLexicalQueryVariants message in
  (length vs <= 5)%nat
  /\ (forall v, v ∈ vs ->
        trim v = v
        /\ (forall c, c ∈ v -> is_space c = true -> c = 32)
        /\ (forall l a b r, v = l ++ a :: b :: r ->
              is_space a = true -> is_space b = false))
  /\ (vs = [] <-> forall c, c ∈ message -> is_space c = true).
Proof.
  cbv zeta. split; [|split].
  - apply variants_at_most_five.
  - assert (H : Forall single_spaced (buildLexicalQueryVariants message))
      by (unfold buildLexicalQueryVariants; do 5 apply push_single_spaced; constructor).
    intros v Hv. rewrite Forall_forall in H. destruct (H v Hv) as (Ht & H1 & H2).
    split; [apply trim_of_tight, Ht | split; assumption].
  - change (forall c, c ∈ message -> is_space c = true)
      with (forall c, c ∈ message -> (fun c => is_space c = true) c).
    rewrite <- Forall_forall. fold (blank message). split.
    + intros E. apply cleaned_nil.
      destruct (cleaned message) as [|c r] eqn:Ec; [reflexivity|].
      exfalso.
      assert (Hh : head (buildLexicalQueryVariants message) = Some (c :: r)).
      { unfold buildLexicalQueryVariants. do 4 apply push_head.
        destruct (push_cases [] message) as [[_ [E' | Hin]] | (-> & _)].
        - congruence.
        - apply elem_of_nil in Hin. contradiction.
        - rewrite Ec. reflexivity. }
      rewrite E in Hh. discriminate.
    + apply variants_blank.
Qed.

(** ** Turn files (parseTurnSections), continued *)

(** X6.  Whatever the content, the two sections [parseTurnSections] returns
    have no white space at either end.  Both are empty when the content
    lacks the user marker or the assistant marker, and when the first
    assistant marker does not come after the first user marker. *)
Theorem parseTurnSections_sections (content : jsstring) :
  let sections := parseTurnSections content in
  trim (user sections) = user sections
  /\ trim (assistant sections) = assistant sections
  /\ (includes content userMarker = false -> sections = MkSections [] [])
  /\ (includes content assistantMarker = false -> sections = MkSections [] [])
  /\ ((indexOf content assistantMarker <= indexOf content userMarker)%Z ->
      sections = MkSections [] []).
Proof.
  cbv zeta. unfold parseTurnSections, includes.
  destruct (Z.ltb_spec (indexOf content userMarker) 0) as [Hu | Hu];
    cbn [orb user assistant].
  { repeat split; intros; reflexivity. }
  destruct (Z.ltb_spec (indexOf content assistantMarker) 0) as [Ha | Ha];
    cbn [orb user assistant].
  { repeat split; intros; reflexivity. }
  destruct (Z.leb_spec (indexOf content assistantMarker) (indexOf content userMarker))
    as [Hau | Hau]; cbn [orb user assistant].
  { repeat split; intros; reflexivity. }
  split; [apply trim_idempotent|]. split; [apply trim_idempotent|].
  split; [|split].
  - intros H. apply Z.leb_gt in H. lia.
  - intros H. apply Z.leb_gt in H. lia.
  - intros H. lia.
Qed.

(** ** Parsing the backend's output (parseQmdResults), continued *)

Lemma row_result_text row r :
  row_result row = Some r ->
  snippet r <> [] /\ trim (snippet r) = snippet r /\ trim (source r) = source r.
Proof.
  unfold row_result.
  destruct row; try discriminate;
    (destruct (trim (to_string (or_else _ _))) as [|c t] eqn:E; [discriminate|];
     intros [= <-]; cbn [snippet source];
     split; [discriminate|]; split;
     [rewrite <- E; apply trim_idempotent | apply trim_idempotent]).
Qed.

Lemma parse_results_text raw found r :
  parseQmdResults raw = Ok found -> r ∈ found ->
  snippet r <> [] /\ trim (snippet r) = snippet r /\ trim (source r) = source r.
Proof.
  intros Hp. revert r. revert Hp.
  unfold parseQmdResults.
  destruct (trim raw) as [|c t].
  { intros [= <-] r Hr. apply elem_of_nil in Hr. contradiction. }
  destruct (Json.parse (c :: t)) as [parsed|e].
  2:{ intros [= <-] r Hr. apply elem_of_nil in Hr. contradiction. }
  assert (H : forall (items : list value) r, r ∈ omap row_result items ->
              snippet r <> [] /\ trim (snippet r) = snippet r
              /\ trim (source r) = source r).
  { intros items r Hr. apply list_elem_of_omap in Hr as (row & _ & Hrow).
    eapply row_result_text, Hrow. }
  destruct parsed as [| |b|x|str|items|fields]; cbn [get]; try discriminate.
  1-3: unfold or_else; cbn [truthy iterate]; intros [= <-]; apply (H []).
  - cbn [iterate]. intros [= <-]. apply H.
  - destruct (iterate (js "rows") _) as [rows|e]; [|discriminate].
    intros [= <-]. apply H.
Qed.

(** X7.  Every result [parseQmdResults] returns carries text: its snippet
    is not empty and has no white space at either end, and its source has
    no white space at either end. *)
Theorem parse_results_carry_text (raw : jsstring) (found : list QmdResult) :
  parseQmdResults raw = Ok found ->
  forall r, r ∈ found ->
    snippet r <> [] /\ trim (snippet r) = snippet r /\ trim (source r) = source r.
Proof. intros H r Hr. eapply parse_results_text; eassumption. Qed.


(** ** What a computation leaves alone *)

(** [keeps R m]: whatever [m] does, returning or throwing, the state it
    leaves is related by [R] to the one it started in. *)
Definition keeps (R : env -> env -> Prop) {A} (m : M A) : Prop :=
  forall s, R s (after m s).

Section Frames.

Variable R : env -> env -> Prop.
Hypothesis R_refl : forall s, R s s.
Hypothesis R_trans : forall a b c, R a b -> R b c -> R a c.

Lemma keeps_ret {A} (a : A) : keeps R (ret a).
Proof using R_refl. intros s. apply R_refl. Qed.

Lemma keeps_throw {A} e : keeps R (throw (A := A) e).
Proof using R_refl. intros s. apply R_refl. Qed.

Lemma keeps_lift {A} (r : res A) : keeps R (lift r).
Proof using R_refl. intros s. apply R_refl. Qed.

Lemma keeps_gets {A} (f : state -> A) : keeps R (gets f).
Proof using R_refl. intros s. apply R_refl. Qed.

Lemma keeps_asks {A} (f : world -> A) : keeps R (asks f).
Proof using R_refl. intros s. apply R_refl. Qed.

Lemma keeps_bind {A B} (m : M A) (k : A -> M B) :
  keeps R m -> (forall a, keeps R (k a)) -> keeps R (bind m k).
Proof using R_trans.
  intros Hm Hk s. specialize (Hm s). unfold after, bind in *.
  destruct (m s) as [[a|e] s1]; cbn [snd] in *; [|exact Hm].
  eapply R_trans; [exact Hm | apply Hk].
Qed.

Lemma keeps_try_catch {A} (m : M A) h :
  keeps R m -> (forall e, keeps R (h e)) -> keeps R (try_catch m h).
Proof using R_trans.
  intros Hm Hh s. specialize (Hm s). unfold after, try_catch in *.
  destruct (m s) as [[a|e] s1]; cbn [snd] in *; [exact Hm|].
  eapply R_trans; [exact Hm | apply Hh].
Qed.

Lemma keeps_if {A} (b : bool) (m1 m2 : M A) :
  keeps R m1 -> keeps R m2 -> keeps R (if b then m1 else m2).
Proof. destruct b; auto. Qed.

End Frames.

(** Composite computations are taken apart; what is left are the
    primitive steps. *)
Ltac frame_step Rrefl Rtrans :=
  first [ apply (keeps_ret _ Rrefl)
        | apply (keeps_throw _ Rrefl)
        | apply (keeps_lift _ Rrefl)
        | apply (keeps_gets _ Rrefl)
        | apply (keeps_asks _ Rrefl)
        | apply (keeps_bind _ Rtrans); [|intros ?]
        | apply (keeps_try_catch _ Rtrans); [|intros ?]
        | apply keeps_if ].

(** ** Processes started *)

(** How many processes have been started. *)
Definition spawns (s : env) : nat := length (spawned (the_world s)).

(** [starts n m]: [m] starts at most [n] processes. *)
Definition starts (n : nat) {A} (m : M A) : Prop :=
  forall s, (spawns (after m s) <= spawns s + n)%nat.

Lemma starts_weaken {A} n n' (m : M A) : (n <= n')%nat -> starts n m -> starts n' m.
Proof. intros Hn H s. specialize (H s). lia. Qed.

Lemma starts_none {A} (m : M A) :
  (forall s, spawned (the_world (after m s)) = spawned (the_world s)) -> starts 0 m.
Proof. intros H s. unfold spawns. rewrite H. lia. Qed.

Lemma starts_bind {A B} n1 n2 (m : M A) (k : A -> M B) :
  starts n1 m -> (forall a, starts n2 (k a)) -> starts (n1 + n2) (bind m k).
Proof.
  intros Hm Hk s. specialize (Hm s). unfold after, bind in *.
  destruct (m s) as [[a|e] s1]; cbn [snd] in *; [|lia].
  specialize (Hk a s1). unfold after in Hk. lia.
Qed.

Lemma starts_try_catch {A} n1 n2 (m : M A) h :
  starts n1 m -> (forall e, starts n2 (h e)) -> starts (n1 + n2) (try_catch m h).
Proof.
  intros Hm Hh s. specialize (Hm s). unfold after, try_catch in *.
  destruct (m s) as [[a|e] s1]; cbn [snd] in *; [lia|].
  specialize (Hh e s1). unfold after in Hh. lia.
Qed.

Lemma starts_if {A} n1 n2 (b : bool) (m1 m2 : M A) :
  starts n1 m1 -> starts n2 m2 -> starts (Nat.max n1 n2) (if b then m1 else m2).
Proof.
  intros H1 H2. destruct b; (eapply starts_weaken; [|eassumption]); lia.
Qed.

Lemma starts_ret {A} (a : A) : starts 0 (ret a).
Proof. apply starts_none. reflexivity. Qed.

Lemma starts_throw {A} e : starts 0 (throw (A := A) e).
Proof. apply starts_none. reflexivity. Qed.

Lemma starts_lift {A} (r : res A) : starts 0 (lift r).
Proof. apply starts_none. reflexivity. Qed.

Lemma starts_gets {A} (f : state -> A) : starts 0 (gets f).
Proof. apply starts_none. reflexivity. Qed.

Lemma starts_asks {A} (f : world -> A) : starts 0 (asks f).
Proof. apply starts_none. reflexivity. Qed.

Lemma starts_modify f : starts 0 (modify f).
Proof. apply starts_none. reflexivity. Qed.

Lemma starts_log level msg : starts 0 (log level msg).
Proof. apply starts_none. intros s. destruct s as [st []]. reflexivity. Qed.

Lemma starts_logQmdDebug agentId cfg stage details :
  starts 0 (logQmdDebug agentId cfg stage details).
Proof.
  unfold logQmdDebug. change 0%nat with (Nat.max 0 0).
  apply starts_if; [apply starts_ret | apply starts_log].
Qed.

Lemma starts_date_now : starts 0 date_now.
Proof.
  apply starts_none. intros s. unfold after. rewrite date_now_run.
  destruct s as [st [? ? [|] ? ? ? ? ?]]; reflexivity.
Qed.

Lemma starts_ensureDir dir : starts 0 (ensureDir dir).
Proof.
  apply starts_none. intros s. unfold after, ensureDir, bind, asks, mkdirSync, ret.
  destruct s as [st w]. cbn [the_world the_state].
  destruct (existsSync w dir); cbn [negb snd the_world]; [reflexivity|].
  destruct (writable w dir); destruct w; reflexivity.
Qed.

Lemma starts_runCommand command args timeoutMs env :
  starts 1 (runCommand command args timeoutMs env).
Proof.
  intros s. unfold after, runCommand, spawns. destruct s as [st w].
  cbn [the_world the_state].
  destruct (script w) as [|[code out err|msg|] later]; cbn [snd the_world];
    try destruct (bool_decide _); destruct w; cbn; lia.
Qed.

(** A bound is found for a composite computation by adding up its
    parts. *)
Ltac starts_step :=
  first [ apply starts_ret | apply starts_throw | apply starts_lift
        | apply starts_gets | apply starts_asks | apply starts_modify
        | apply starts_log | apply starts_logQmdDebug | apply starts_date_now
        | apply starts_ensureDir | apply starts_runCommand
        | eapply starts_bind; [|intros ?]
        | eapply starts_try_catch; [|intros ?]
        | eapply starts_if ].

Ltac starts_tac := eapply starts_weaken; [|repeat starts_step]; [cbn; lia].

(** *** Probing for the backend (isQmdAvailable) *)

Lemma starts_probe_candidates cs : starts (length cs) (probe_candidates cs).
Proof.
  induction cs as [|c cs IH]; cbn [probe_candidates length]; [apply starts_ret|].
  change (S (length cs)) with (1 + length cs)%nat.
  apply starts_bind.
  - change 1%nat with (1 + 0)%nat. apply starts_try_catch; [|intros; apply starts_ret].
    starts_tac.
  - intros []; [eapply starts_weaken; [|apply starts_ret]; lia | exact IH].
Qed.

Lemma starts_isQmdAvailable preferred : starts 2 (isQmdAvailable preferred).
Proof.
  unfold isQmdAvailable.
  eapply starts_weaken;
    [|repeat first
        [ eapply (starts_weaken _ 2); [|apply starts_probe_candidates];
          [destruct preferred as [[|]|]; cbn; lia]
        | starts_step ]].
  cbn. lia.
Qed.

Lemma starts_bind_le {A B} n1 n2 n (m : M A) (k : A -> M B) :
  (n1 + n2 <= n)%nat ->
  starts n1 m -> (forall a, starts n2 (k a)) -> starts n (bind m k).
Proof.
  intros Hn Hm Hk. eapply starts_weaken; [exact Hn|]. apply starts_bind; assumption.
Qed.

(** *** The collection (ensureCollection, maybeUpdateCollection) *)

Lemma starts_ensureCollection agentId : starts 1 (ensureCollection agentId).
Proof. unfold ensureCollection. starts_tac. Qed.

Lemma starts_maybeUpdateCollection name iv : starts 1 (maybeUpdateCollection name iv).
Proof. unfold maybeUpdateCollection. starts_tac. Qed.

(** *** The query loops (quickHasLexicalHit, runBm25WithVariants) *)

Lemma starts_quick_hit_loop variants name cfg :
  starts (length variants) (quick_hit_loop variants name cfg).
Proof.
  induction variants as [|q rest IH]; cbn [quick_hit_loop length]; [apply starts_ret|].
  apply (starts_bind_le 0 (S (length rest))); [lia | apply starts_gets | intros cmd].
  apply (starts_bind_le 1 (length rest)); [lia | apply starts_runCommand | intros out].
  apply (starts_bind_le 0 (length rest)); [lia | apply starts_lift | intros hits].
  destruct hits; [exact IH | eapply starts_weaken; [|apply starts_ret]; lia].
Qed.

Lemma starts_bm25_loop variants lastQuery name cfg :
  starts (length variants) (bm25_loop variants lastQuery name cfg).
Proof.
  revert lastQuery.
  induction variants as [|q rest IH]; intros lastQuery; cbn [bm25_loop length];
    [apply starts_ret|].
  apply (starts_bind_le 0 (S (length rest))); [lia | apply starts_gets | intros cmd].
  apply (starts_bind_le 1 (length rest)); [lia | apply starts_runCommand | intros out].
  apply (starts_bind_le 0 (length rest)); [lia | apply starts_lift | intros hits].
  destruct hits; [apply IH | eapply starts_weaken; [|apply starts_ret]; lia].
Qed.

Lemma starts_quickHasLexicalHit message name cfg :
  starts 5 (quickHasLexicalHit message name cfg).
Proof.
  eapply starts_weaken; [apply (variants_at_most_five message)|].
  apply starts_quick_hit_loop.
Qed.

Lemma starts_runBm25WithVariants message name cfg :
  starts 5 (runBm25WithVariants message name cfg).
Proof.
  eapply starts_weaken; [apply (variants_at_most_five message)|].
  apply starts_bm25_loop.
Qed.

(** *** The whole retrieval (enrichMessageWithMemory) *)

Lemma starts_resolveRetrievalMode cfg : starts 0 (resolveRetrievalMode cfg).
Proof.
  unfold resolveRetrievalMode, warn_once, isDisableExpansionSupported. starts_tac.
Qed.

Lemma starts_run_query useVsearch message name cfg :
  starts 5 (run_query useVsearch message name cfg).
Proof.
  unfold run_query.
  eapply starts_weaken;
    [|repeat first [ apply starts_runBm25WithVariants | starts_step ]].
  cbn. lia.
Qed.

Lemma starts_compose agentId message label cfg found :
  starts 0 (compose agentId message label cfg found).
Proof.
  unfold compose. destruct found as [|hit hits]; [starts_tac|].
  apply (starts_bind_le 0 0); [lia | apply starts_asks | intros ranked].
  apply (starts_bind_le 0 0); [lia | apply starts_lift | intros rankedResults].
  destruct (formatMemoryPrompt rankedResults (maxChars cfg)); starts_tac.
Qed.

Lemma starts_precheck_gate agentId message name cfg :
  starts 5 (precheck_gate agentId message name cfg).
Proof.
  unfold precheck_gate, debug_precheck.
  eapply starts_weaken;
    [|repeat first [ apply starts_quickHasLexicalHit | starts_step ]].
  cbn. lia.
Qed.

Lemma starts_retrieve agentId message name cfg :
  starts 5 (retrieve agentId message name cfg).
Proof.
  unfold retrieve, debug_query, debug_query_used.
  eapply starts_weaken;
    [|repeat first [ apply starts_resolveRetrievalMode | apply starts_run_query
                   | apply starts_compose | starts_step ]].
  cbn. lia.
Qed.

Lemma starts_enrich_body agentId message cfg :
  starts 12 (enrich_body agentId message cfg).
Proof.
  unfold enrich_body, debug_collection, debug_update.
  eapply starts_weaken;
    [|repeat first [ apply starts_ensureCollection | apply starts_maybeUpdateCollection
                   | apply starts_precheck_gate | apply starts_retrieve
                   | starts_step ]].
  cbn. lia.
Qed.

Lemma starts_enrichMessageWithMemory agentId message settings channel :
  starts 14 (enrichMessageWithMemory agentId message settings channel).
Proof.
  unfold enrichMessageWithMemory, debug_qmd.
  eapply starts_weaken;
    [|repeat first [ apply starts_isQmdAvailable | apply starts_enrich_body
                   | starts_step ]].
  cbn. lia.
Qed.

(** X8.  One call of [enrichMessageWithMemory] starts at most fourteen
    processes: two to probe for the backend, one to add the collection, one
    to refresh it, five for the quick precheck and five for the query (one
    per lexical variant).  The precheck and the lexical query start at most
    five each, and none for a message of white space only. *)
Theorem enrich_starts_few_processes (agentId message : jsstring) (settings : Settings)
    (channel name : jsstring) (cfg : QmdConfig) (s : env) :
  let started (s' : env) :=
    (length (spawned (the_world s')) - length (spawned (the_world s)))%nat in
  (started (snd (enrichMessageWithMemory agentId message settings channel s)) <= 14)%nat
  /\ (started (snd (quickHasLexicalHit message name cfg s)) <= 5)%nat
  /\ (started (snd (runBm25WithVariants message name cfg s)) <= 5)%nat
  /\ ((forall c, c ∈ message -> is_space c = true) ->
      quickHasLexicalHit message name cfg s = (Ok false, s)
      /\ runBm25WithVariants message name cfg s = (Ok (MkQueryResult [] message), s)).
Proof.
  cbv zeta.
  pose proof (starts_enrichMessageWithMemory agentId message settings channel s) as H1.
  pose proof (starts_quickHasLexicalHit message name cfg s) as H2.
  pose proof (starts_runBm25WithVariants message name cfg s) as H3.
  unfold after, spawns in *.
  split; [lia|]. split; [lia|]. split; [lia|].
  intros Hblank.
  assert (E : buildLexicalQueryVariants message = [])
    by (apply variants_blank, Forall_forall; exact Hblank).
  unfold quickHasLexicalHit, runBm25WithVariants. rewrite E. split; reflexivity.
Qed.

(** ** Files left alone *)



















(** ** Saving a turn (saveTurnToMemory), continued *)

(** [s'] differs from [s] in the clock and the file system at most. *)
Definition quiet (s s' : env) : Prop :=
  the_state s' = the_state s
  /\ spawned (the_world s') = spawned (the_world s)
  /\ script (the_world s') = script (the_world s)
  /\ log_lines (the_world s') = log_lines (the_world s).

Lemma quiet_refl s : quiet s s.
Proof. repeat split. Qed.

Lemma quiet_trans a b c : quiet a b -> quiet b c -> quiet a c.
Proof.
  intros (H1 & H2 & H3 & H4) (K1 & K2 & K3 & K4).
  repeat split; etransitivity; eassumption.
Qed.

Lemma quiet_date_now : keeps quiet date_now.
Proof.
  intros s. unfold after. rewrite date_now_run.
  destruct s as [st [? ? [|] ? ? ? ? ?]]; repeat split.
Qed.

Lemma quiet_ensureDir dir : keeps quiet (ensureDir dir).
Proof.
  intros [st w]. unfold quiet, after, ensureDir, bind, asks, mkdirSync, ret.
  cbv beta iota delta [the_world the_state].
  destruct (existsSync w dir); cbn [negb snd]; [repeat split|].
  destruct (writable w dir); cbn [snd]; [|repeat split].
  destruct w; repeat split.
Qed.

Lemma quiet_writeFileSync p content : keeps quiet (writeFileSync p content).
Proof.
  intros [st w]. unfold quiet, after, writeFileSync.
  cbv beta iota delta [the_world the_state].
  destruct (files w !! p) as [[| |]|]; try destruct (writable w p); cbn [snd];
    destruct w; repeat split.
Qed.

Lemma quiet_save_turn_body params : keeps quiet (save_turn_body params).
Proof.
  unfold save_turn_body.
  apply (keeps_bind _ quiet_trans).
  { destruct (p_timestampMs params) as [t|]; [destruct (truthy (VNum t))|];
      first [ apply quiet_date_now | apply (keeps_ret _ quiet_refl) ]. }
  intros ts.
  repeat first [ apply quiet_ensureDir | apply quiet_writeFileSync
               | frame_step quiet_refl quiet_trans ].
Qed.

(** X10.  [saveTurnToMemory] never throws, starts no process and leaves the
    module's variables as they are.  When the turn is written nothing is
    logged; when anything fails on the way (the directory cannot be made,
    the time stamp is not a valid time, the file cannot be written) the
    failure is logged as one warning that carries the error's message, and
    no file has been written or changed. *)
Theorem saveTurn_fails_quietly (params : TurnParams) (s : env) :
  exists s',
    saveTurnToMemory params s = (Ok tt, s')
    /\ the_state s' = the_state s
    /\ spawned (the_world s') = spawned (the_world s)
    /\ match fst (save_turn_body params s) with
       | Ok _ => log_lines (the_world s') = log_lines (the_world s)
       | Throw e =>
           log_lines (the_world s')
           = (js "WARN",
              js "Failed to persist memory turn for @" ++ p_agentId params
              ++ js ": " ++ message e) :: log_lines (the_world s)
           /\ forall path c,
                files (the_world s') !! path = Some (File c) ->
                files (the_world s) !! path = Some (File c)
       end.
Proof.
  pose proof (quiet_save_turn_body params s) as (Q1 & Q2 & Q3 & Q4).
  destruct (save_turn_body_files params s) as (r & s1 & E & Hf).
  unfold saveTurnToMemory, try_catch, after in *. rewrite E in *. cbn [fst snd] in *.
  destruct r as [[]|e].
  - exists s1. repeat split; assumption.
  - eexists. split; [reflexivity|]. unfold log, modify_world.
    cbn [the_state the_world]. split; [exact Q1|].
    destruct Hf as [Hf | (ts & iso & p & s2 & [=] & _)].
    destruct s1 as [st1 w1]; destruct w1; cbn in *.
    repeat split; try assumption.
    unfold message_of. rewrite Q4. reflexivity.
Qed.

(** ** The backend probe (isQmdAvailable), continued *)

(** The key under which [isQmdAvailable] remembers its answer. *)
Definition check_key (preferredCommand : option jsstring) : jsstring :=
  match preferredCommand with
  | Some (c :: p) => c :: p
  | _ => js "__auto__"
  end.

(** The probe loop leaves the check flag and key alone. *)
Definition same_check (s s' : env) : Prop :=
  qmdChecked (the_state s') = qmdChecked (the_state s)
  /\ qmdCheckKey (the_state s') = qmdCheckKey (the_state s).

Lemma same_check_refl s : same_check s s.
Proof. split; reflexivity. Qed.

Lemma same_check_trans a b c : same_check a b -> same_check b c -> same_check a c.
Proof. intros [H1 H2] [K1 K2]. split; etransitivity; eassumption. Qed.

Lemma same_check_runCommand command args timeoutMs env :
  keeps same_check (runCommand command args timeoutMs env).
Proof.
  intros [st w]. unfold same_check, after, runCommand.
  cbv beta iota delta [the_world the_state].
  destruct (script w) as [|[code out err|msg|] later]; cbn [snd the_state];
    try destruct (bool_decide _); split; reflexivity.
Qed.

Lemma same_check_probe_candidates cs : keeps same_check (probe_candidates cs).
Proof.
  induction cs as [|c cs IH]; cbn [probe_candidates];
    [apply (keeps_ret _ same_check_refl)|].
  apply (keeps_bind _ same_check_trans).
  - repeat first [ apply same_check_runCommand
                 | frame_step same_check_refl same_check_trans
                 | (intros s; split; reflexivity) ].
  - intros []; [apply (keeps_ret _ same_check_refl) | exact IH].
Qed.

(** How a call of [isQmdAvailable] ends: it returns what [qmdAvailable] then
    holds, and the answer is remembered under the key of the call. *)
Lemma isQmdAvailable_run preferred s :
  exists b s1,
    isQmdAvailable preferred s = (Ok b, s1)
    /\ qmdChecked (the_state s1) = true
    /\ qmdCheckKey (the_state s1) = check_key preferred
    /\ qmdAvailable (the_state s1) = b.
Proof.
  unfold isQmdAvailable. fold (check_key preferred).
  unfold bind at 1, gets at 1. unfold bind at 1, gets at 1.
  destruct (qmdChecked (the_state s)) eqn:Ec; cbn [andb].
  - destruct (bool_decide_reflect (qmdCheckKey (the_state s) = check_key preferred))
      as [Ek | Ek].
    + eexists _, s. repeat split; auto.
    + set (s0 := Env (set_qmdCommandPath None
                        (set_qmdAvailable false
                           (set_qmdCheckKey (check_key preferred)
                              (set_qmdChecked true (the_state s))))) (the_world s)).
      set (cs := match preferred with
                 | Some (c :: p) => [c :: p]
                 | _ => [Path.path_join [homedir (the_world s); js ".bun/bin/qmd"]; js "qmd"]
                 end).
      pose proof (same_check_probe_candidates cs s0) as [H1 H2].
      pose proof (unit_run _ s0 (safe_probe_candidates cs)) as Ep.
      unfold bind, modify, asks, gets. cbn [the_state the_world].
      fold s0. fold cs. rewrite Ep.
      destruct (qmdAvailable (the_state (after (probe_candidates cs) s0))) eqn:Ea;
        cbn [negb ret the_state]; eexists _, _;
        (split; [reflexivity|]); cbn [the_state qmdChecked qmdCheckKey qmdAvailable
                                       set_qmdCommandPath];
        rewrite ?H1, ?H2, ?Ea; repeat split; reflexivity.
  - set (s0 := Env (set_qmdCommandPath None
                      (set_qmdAvailable false
                         (set_qmdCheckKey (check_key preferred)
                            (set_qmdChecked true (the_state s))))) (the_world s)).
    set (cs := match preferred with
               | Some (c :: p) => [c :: p]
               | _ => [Path.path_join [homedir (the_world s); js ".bun/bin/qmd"]; js "qmd"]
               end).
    pose proof (same_check_probe_candidates cs s0) as [H1 H2].
    pose proof (unit_run _ s0 (safe_probe_candidates cs)) as Ep.
    unfold bind, modify, asks, gets. cbn [the_state the_world].
    fold s0. fold cs. rewrite Ep.
    destruct (qmdAvailable (the_state (after (probe_candidates cs) s0))) eqn:Ea;
      cbn [negb ret the_state]; eexists _, _;
      (split; [reflexivity|]); cbn [the_state qmdChecked qmdCheckKey qmdAvailable
                                     set_qmdCommandPath];
      rewrite ?H1, ?H2, ?Ea; repeat split; reflexivity.
Qed.

(** X11.  [isQmdAvailable] remembers its answer: a call never throws, and a
    second call with the same preferred command, made in the state the
    first one left, returns the same answer, starts no process and changes
    nothing. *)
Theorem availability_is_cached (preferred : option jsstring) (s : env) :
  exists b s1,
    isQmdAvailable preferred s = (Ok b, s1)
    /\ isQmdAvailable preferred s1 = (Ok b, s1).
Proof.
  destruct (isQmdAvailable_run preferred s) as (b & s1 & E & Hc & Hk & Ha).
  exists b, s1. split; [exact E|].
  unfold isQmdAvailable. fold (check_key preferred).
  unfold bind at 1, gets at 1. unfold bind at 1, gets at 1.
  rewrite Hc, Hk. cbn [andb].
  rewrite bool_decide_eq_true_2 by reflexivity.
  unfold gets. rewrite Ha. reflexivity.
Qed.

(** ** Running a command (runCommand), continued *)

(** The world once a process has been started and has ended. *)
Definition ran (call : spawn_call) (later : list outcome) (s : env) : env :=
  Env (the_state s)
    (with_script later (with_spawned (call :: spawned (the_world s)) (the_world s))).

Lemma runCommand_run command args timeoutMs env s o later :
  script (the_world s) = o :: later ->
  exists r,
    runCommand command args timeoutMs env s
    = (r, ran (Spawn command args timeoutMs env) later s)
    /\ (succeeded o = true ->
        exists out err, o = Closed (Some 0%Z) out err /\ r = Ok (MkCommandResult out err))
    /\ (succeeded o = false -> exists e, r = Throw e).
Proof.
  intros Hs. unfold runCommand, ran. rewrite Hs.
  destruct o as [code out err|msg|]; cbn [succeeded].
  - destruct (bool_decide_reflect (code = Some 0%Z)) as [-> | Hc].
    + eexists. split; [reflexivity|]. split; [eauto | discriminate].
    + eexists. split; [reflexivity|]. split; [discriminate | eauto].
  - eexists. split; [reflexivity|]. split; [discriminate | eauto].
  - eexists. split; [reflexivity|]. split; [discriminate | eauto].
Qed.

(** ** The query loops (runBm25WithVariants), continued *)

Lemma last_cons {A} (q : A) rest d : List.last (q :: rest) d = List.last rest q.
Proof.
  revert q d. induction rest as [|x rest IH]; intros q d; [reflexivity|].
  change (List.last (q :: x :: rest) d) with (List.last (x :: rest) d).
  rewrite !IH. reflexivity.
Qed.

Lemma bm25_loop_result variants :
  forall lastQuery name cfg s qr s1,
    bm25_loop variants lastQuery name cfg s = (Ok qr, s1) ->
    ((results qr <> [] /\ query qr ∈ variants)
     \/ (results qr = [] /\ query qr = List.last variants lastQuery))
    /\ forall r, r ∈ results qr -> snippet r <> [].
Proof.
  induction variants as [|q rest IH]; intros lastQuery name cfg s qr s1;
    cbn [bm25_loop].
  - intros [= <- _]. split; [right; split; reflexivity|].
    intros r Hr. apply elem_of_nil in Hr. contradiction.
  - unfold bind at 1, gets at 1.
    unfold bind at 1. destruct (runCommand _ _ _ _ _) as [[out|e] s2]; [|discriminate].
    unfold bind at 1, lift at 1.
    destruct (parseQmdResults (stdout out)) as [[|hit hits]|e] eqn:Ep;
      [| |discriminate].
    + intros H. destruct (IH _ _ _ _ _ _ H) as [[[H1 H2] | [H1 H2]] H3].
      * split; [|exact H3]. left. split; [exact H1 | right; exact H2].
      * split; [|exact H3]. right. split; [exact H1|].
        rewrite H2. symmetry. apply last_cons.
    + intros [= <- _]. cbn [results query]. split.
      * left. split; [discriminate | left].
      * intros r Hr. eapply parse_results_text; eassumption.
Qed.

(** The lexical search [runBm25WithVariants] starts for a variant. *)
Definition bm25_call (st : state) (query name : jsstring) (cfg : QmdConfig)
  : spawn_call :=
  Spawn (qmd_command st)
    (search_args (js "search") query name (number_to_string (topK cfg)) cfg)
    (searchTimeoutMs cfg) [].

(** What a search that ended as [o] found: nothing to go on when the
    process failed or its output could not be used. *)
Definition found_by (o : outcome) : option (list QmdResult) :=
  match o with
  | Closed code out _ =>
      if bool_decide (code = Some 0%Z)
      then match parseQmdResults out with
           | Ok found => Some found
           | Throw _ => None
           end
      else None
  | _ => None
  end.

Lemma runCommand_ok command args timeoutMs env s out s1 :
  runCommand command args timeoutMs env s = (Ok out, s1) ->
  exists o later,
    script (the_world s) = o :: later
    /\ o = Closed (Some 0%Z) (stdout out) (stderr out)
    /\ s1 = ran (Spawn command args timeoutMs env) later s.
Proof.
  unfold runCommand, ran.
  destruct (script (the_world s)) as [|[code o e|msg|] later]; try discriminate.
  destruct (bool_decide_reflect (code = Some 0%Z)) as [-> | Hc]; [|discriminate].
  intros [= <- <-]. exists (Closed (Some 0%Z) o e), later. repeat split.
Qed.

(** How the loop of [runBm25WithVariants] has run when it returns: the
    variants before the one reported were searched in turn and each search
    ended well and found nothing. *)
Lemma bm25_loop_run variants :
  forall lastQuery name cfg s qr s1,
    bm25_loop variants lastQuery name cfg s = (Ok qr, s1) ->
    the_state s1 = the_state s
    /\ exists tried missed,
         length missed = length tried
         /\ Forall (fun o => found_by o = Some []) missed
         /\ match results qr with
            | [] =>
                tried = variants
                /\ query qr = List.last variants lastQuery
                /\ script (the_world s) = missed ++ script (the_world s1)
                /\ spawned (the_world s1)
                   = rev (map (fun q => bm25_call (the_state s) q name cfg) tried)
                     ++ spawned (the_world s)
            | _ =>
                exists rest o,
                  variants = tried ++ query qr :: rest
                  /\ found_by o = Some (results qr)
                  /\ script (the_world s) = missed ++ o :: script (the_world s1)
                  /\ spawned (the_world s1)
                     = bm25_call (the_state s) (query qr) name cfg
                       :: rev (map (fun q => bm25_call (the_state s) q name cfg) tried)
                       ++ spawned (the_world s)
            end.
Proof.
  induction variants as [|q rest IH]; intros lastQuery name cfg s qr s1;
    cbn [bm25_loop].
  - intros [= <- <-]. split; [reflexivity|]. exists [], []. cbn [results query].
    repeat split; constructor.
  - unfold bind at 1, gets at 1.
    unfold bind at 1.
    destruct (runCommand _ _ _ _ _) as [[out|e] s2] eqn:Er; [|discriminate].
    apply runCommand_ok in Er as (o & later & Hs & Ho & ->).
    unfold bind at 1, lift at 1.
    destruct (parseQmdResults (stdout out)) as [[|hit hits]|e] eqn:Ep;
      [| |discriminate].
    + intros H. destruct (IH _ _ _ _ _ _ H) as (Hst & tried & missed & Hl & Hm & Hr).
      cbn [ran the_state the_world] in Hst, Hr.
      split; [exact Hst|].
      assert (Ho' : found_by o = Some []).
      { rewrite Ho. cbn [found_by]. rewrite bool_decide_eq_true_2 by reflexivity.
        rewrite Ep. reflexivity. }
      exists (q :: tried), (o :: missed).
      split; [cbn [length]; congruence|].
      split; [constructor; assumption|].
      destruct (results qr) as [|r rs].
      * destruct Hr as (-> & Hq & Hsc & Hsp).
        split; [reflexivity|]. split; [rewrite Hq; symmetry; apply last_cons|].
        destruct s as [st [sc sp cl fs wr hd th lg]]; cbn in *.
        split; [rewrite Hs, Hsc; reflexivity|].
        rewrite Hsp, <- app_assoc. reflexivity.
      * destruct Hr as (rest' & o' & -> & Hf & Hsc & Hsp).
        exists rest', o'. split; [reflexivity|]. split; [exact Hf|].
        destruct s as [st [sc sp cl fs wr hd th lg]]; cbn in *.
        split; [rewrite Hs, Hsc; reflexivity|].
        rewrite Hsp, <- app_assoc. reflexivity.
    + intros [= <- <-]. split; [reflexivity|]. exists [], [].
      split; [reflexivity|]. split; [constructor|].
      cbn [results query]. exists rest, o.
      split; [reflexivity|]. split.
      { rewrite Ho. cbn [found_by]. rewrite bool_decide_eq_true_2 by reflexivity.
        rewrite Ep. reflexivity. }
      destruct s as [st [sc sp cl fs wr hd th lg]]; cbn in *.
      split; [exact Hs | reflexivity].
Qed.

(** X12.  When [runBm25WithVariants] returns, it has searched the lexical
    variants of the message in their order, one process for each, with the
    module's variables left as they are.  If it returns results, they are
    what the latest search found, the query it reports is the variant that
    search was for, every search before it ended well and found nothing,
    and the variants after it were not searched.  If it returns none, every
    variant was searched, each search ended well and found nothing, and the
    query reported is the last variant (the message itself when there was
    no variant to try).  The results it returns all carry text. *)
Theorem bm25_reports_query (message name : jsstring) (cfg : QmdConfig) (s s1 : env)
    (qr : QueryResult) :
  runBm25WithVariants message name cfg s = (Ok qr, s1) ->
  (exists tried missed,
     length missed = length tried
     /\ Forall (fun o => found_by o = Some []) missed
     /\ match results qr with
        | [] =>
            tried = buildLexicalQueryVariants message
            /\ query qr = List.last (buildLexicalQueryVariants message) message
            /\ script (the_world s) = missed ++ script (the_world s1)
            /\ spawned (the_world s1)
               = rev (map (fun q => bm25_call (the_state s) q name cfg) tried)
                 ++ spawned (the_world s)
        | _ =>
            exists rest o,
              buildLexicalQueryVariants message = tried ++ query qr :: rest
              /\ found_by o = Some (results qr)
              /\ script (the_world s) = missed ++ o :: script (the_world s1)
              /\ spawned (the_world s1)
                 = bm25_call (the_state s) (query qr) name cfg
                   :: rev (map (fun q => bm25_call (the_state s) q name cfg) tried)
                   ++ spawned (the_world s)
        end)
  /\ the_state s1 = the_state s
  /\ ((results qr <> [] /\ query qr ∈ buildLexicalQueryVariants message)
      \/ (results qr = []
          /\ query qr = List.last (buildLexicalQueryVariants message) message))
  /\ forall r, r ∈ results qr -> snippet r <> [].
Proof.
  intros H. unfold runBm25WithVariants in H.
  destruct (bm25_loop_run _ _ _ _ _ _ _ H) as (Hst & Hrun).
  destruct (bm25_loop_result _ _ _ _ _ _ _ H) as (Hq & Htext).
  split; [exact Hrun|]. split; [exact Hst|]. split; [exact Hq | exact Htext].
Qed.

(** ** The backend probe (isQmdAvailable): the order of the candidates *)

(** The [qmd] that bun installs for the user. *)
Definition bundled_qmd (w : world) : jsstring :=
  Path.path_join [homedir w; js ".bun/bin/qmd"].

Definition probe (command : jsstring) : spawn_call :=
  Spawn command [js "--help"] 5000 [].

Lemma probe_step candidate rest s o later :
  script (the_world s) = o :: later ->
  probe_candidates (candidate :: rest) s
  = if succeeded o
    then (Ok tt,
          Env (set_qmdAvailable true
                 (set_qmdCommandPath (Some candidate) (the_state s)))
            (the_world (ran (probe candidate) later s)))
    else probe_candidates rest (ran (probe candidate) later s).
Proof.
  intros Hs. cbn [probe_candidates].
  destruct (runCommand_run candidate [js "--help"] 5000 [] s o later Hs)
    as (r & E & Hok & Hno).
  unfold bind at 1, try_catch. unfold bind at 1. rewrite E.
  destruct (succeeded o).
  - destruct (Hok eq_refl) as (out & err & _ & ->). reflexivity.
  - destruct (Hno eq_refl) as (e & ->). reflexivity.
Qed.

(** The state in which the probe loop starts. *)
Definition probing (key : jsstring) (s : env) : env :=
  Env (set_qmdCommandPath None
         (set_qmdAvailable false
            (set_qmdCheckKey key (set_qmdChecked true (the_state s)))))
    (the_world s).

(** The [finally] clause and the answer, from the state the loop left. *)
Definition probed (sp : env) : res bool * env :=
  (Ok (qmdAvailable (the_state sp)),
   if qmdAvailable (the_state sp) then sp
   else Env (set_qmdCommandPath None (the_state sp)) (the_world sp)).

Lemma isQmdAvailable_fresh s :
  qmdChecked (the_state s) = false ->
  isQmdAvailable None s
  = probed (after (probe_candidates [bundled_qmd (the_world s); js "qmd"])
              (probing (js "__auto__") s)).
Proof.
  intros Hc. unfold isQmdAvailable, bundled_qmd, probed, probing.
  unfold bind at 1, gets at 1. unfold bind at 1, gets at 1. rewrite Hc. cbn [andb].
  unfold bind at 1, modify at 1. unfold bind at 1, modify at 1.
  unfold bind at 1, modify at 1. unfold bind at 1, modify at 1.
  unfold bind at 1, asks at 1. cbn [the_state the_world].
  rewrite (bind_ok _ _ _ _ _ (unit_run _ _ (safe_probe_candidates _))).
  unfold bind, gets, modify, ret.
  destruct (qmdAvailable (the_state (after _ _))) eqn:E; cbn [negb]; rewrite ?E;
    cbn [the_state qmdAvailable set_qmdCommandPath]; rewrite ?E; reflexivity.
Qed.

(** X13.  With no preferred command, a call of [isQmdAvailable] that has
    to probe tries the bundled [~/.bun/bin/qmd] first and [qmd] from the
    search path second, each with [--help] and a time-out of five seconds,
    and settles on the first that ends well: if the bundled one does, the
    second is not started.  If neither does, the answer is [false] and no
    command path is kept. *)
Theorem probe_prefers_bundled (s : env) (o1 : outcome) (later : list outcome) :
  qmdChecked (the_state s) = false ->
  script (the_world s) = o1 :: later ->
  let bundled := bundled_qmd (the_world s) in
  let s1 := snd (isQmdAvailable None s) in
  (succeeded o1 = true ->
   fst (isQmdAvailable None s) = Ok true
   /\ qmdCommandPath (the_state s1) = Some bundled
   /\ spawned (the_world s1) = probe bundled :: spawned (the_world s)
   /\ script (the_world s1) = later)
  /\ (succeeded o1 = false ->
      forall o2 later2, later = o2 :: later2 ->
        spawned (the_world s1)
        = probe (js "qmd") :: probe bundled :: spawned (the_world s)
        /\ script (the_world s1) = later2
        /\ (succeeded o2 = true ->
            fst (isQmdAvailable None s) = Ok true
            /\ qmdCommandPath (the_state s1) = Some (js "qmd"))
        /\ (succeeded o2 = false ->
            fst (isQmdAvailable None s) = Ok false
            /\ qmdCommandPath (the_state s1) = None)).
Proof.
  intros Hc Hs. cbv zeta. rewrite (isQmdAvailable_fresh s Hc).
  assert (Hs0 : script (the_world (probing (js "__auto__") s)) = o1 :: later)
    by exact Hs.
  unfold after. rewrite (probe_step _ _ _ o1 later Hs0).
  split.
  - intros ->. destruct s as [st []]. cbn in Hs. subst. repeat split.
  - intros -> o2 later2 ->.
    assert (Hs1 : script (the_world (ran (probe (bundled_qmd (the_world s)))
                                       (o2 :: later2) (probing (js "__auto__") s)))
                  = o2 :: later2) by (destruct s as [st []]; reflexivity).
    rewrite (probe_step _ _ _ o2 later2 Hs1).
    destruct (succeeded o2); destruct s as [st []]; cbn in Hs; subst;
      repeat split; discriminate.
Qed.

(** ** Support for suppressing query expansion (isDisableExpansionSupported) *)

Lemma normalize_nonempty p : Path.normalize p <> [].
Proof.
  unfold Path.normalize. destruct p as [|first rest]; [discriminate|].
  destruct (join [47] _) as [|b body].
  - destruct (first =? 47); [discriminate|].
    destruct (match rev (first :: rest) with [] => false | c :: _ => c =? 47 end);
      discriminate.
  - destruct (first =? 47); discriminate.
Qed.

Lemma path_join_nonempty parts : Path.path_join parts <> [].
Proof. apply normalize_nonempty. Qed.

(** The key under which [isDisableExpansionSupported] remembers its
    answer. *)
Definition support_key (st : state) : jsstring :=
  match qmdCommandPath st with
  | Some (c :: p) => c :: p
  | _ => js "__unknown__"
  end.

(** The file in which the patch is looked for. *)
Definition patched_store (w : world) : jsstring :=
  Path.path_join [homedir w; js ".bun/install/global/node_modules/qmd/src/store.ts"].

Lemma patched_iff w commandPath :
  isDisableExpansionPatchedQmd w commandPath = true
  <-> commandPath = Some (bundled_qmd w)
      /\ exists src,
           files w !! patched_store w = Some (File src)
           /\ includes src (js "QMD_VSEARCH_DISABLE_EXPANSION") = true.
Proof.
  unfold isDisableExpansionPatchedQmd, bundled_qmd, patched_store, existsSync,
    readFileSync.
  destruct commandPath as [[|c p]|].
  - split; [discriminate|]. intros [[= E] _].
    symmetry in E. apply path_join_nonempty in E. contradiction.
  - destruct (bool_decide_reflect
                (c :: p = Path.path_join [homedir w; js ".bun/bin/qmd"])) as [E | E];
      cbn [negb orb].
    + rewrite E.
      destruct (files w !! _) as [[src| |]|]; cbn [negb]; split;
        try discriminate;
        try (intros [_ (src' & [=] & _)]; fail).
      * intros H. split; [reflexivity|]. exists src. split; [reflexivity | exact H].
      * intros [_ (src' & [= <-] & H)]. exact H.
    + split; [discriminate|]. intros [[= E'] _]. contradiction.
  - split; [discriminate|]. intros [[=] _].
Qed.

(** X14.  [isDisableExpansionSupported] never throws and leaves the world
    alone.  Its answer is remembered for the resolved command path: asked
    again in the state it left, it gives the same answer without looking at
    the file system, whatever the files then hold.  When it has to look,
    the answer is [true] exactly when the resolved command is the bundled
    [~/.bun/bin/qmd] and the installed [store.ts] can be read and mentions
    [QMD_VSEARCH_DISABLE_EXPANSION]; a store file that is missing, is a
    directory or cannot be read gives [false]. *)
Theorem expansion_support_is_cached (s : env) :
  exists b s1,
    isDisableExpansionSupported s = (Ok b, s1)
    /\ the_world s1 = the_world s
    /\ (forall w', isDisableExpansionSupported (Env (the_state s1) w')
                   = (Ok b, Env (the_state s1) w'))
    /\ (qmdDisableExpansionCheckKey (the_state s) <> support_key (the_state s) ->
        (b = true
         <-> qmdCommandPath (the_state s) = Some (bundled_qmd (the_world s))
             /\ exists src,
                  files (the_world s) !! patched_store (the_world s) = Some (File src)
                  /\ includes src (js "QMD_VSEARCH_DISABLE_EXPANSION") = true)).
Proof.
  unfold isDisableExpansionSupported. fold support_key.
  unfold bind at 1, gets at 1. fold (support_key (the_state s)).
  unfold bind at 1, gets at 1.
  destruct (bool_decide_reflect
              (qmdDisableExpansionCheckKey (the_state s) = support_key (the_state s)))
    as [E | E].
  - exists (qmdDisableExpansionSupported (the_state s)), s.
    split; [reflexivity|]. split; [reflexivity|]. split; [|contradiction].
    intros w'. unfold bind, gets. cbn [the_state].
    fold (support_key (the_state s)).
    rewrite bool_decide_eq_true_2 by exact E. reflexivity.
  - unfold bind, modify, asks, gets. cbn [the_state the_world].
    eexists _, _. split; [reflexivity|]. cbn [the_state the_world].
    split; [reflexivity|]. split.
    + intros w'.
      assert (K : support_key
                    (set_qmdDisableExpansionSupported
                       (isDisableExpansionPatchedQmd (the_world s)
                          (qmdCommandPath (the_state s)))
                       (set_qmdDisableExpansionCheckKey (support_key (the_state s))
                          (the_state s)))
                  = support_key (the_state s)) by reflexivity.
      cbn [qmdCommandPath qmdDisableExpansionCheckKey qmdDisableExpansionSupported
           set_qmdDisableExpansionSupported set_qmdDisableExpansionCheckKey].
      fold (support_key (the_state s)).
      rewrite bool_decide_eq_true_2 by reflexivity. reflexivity.
    + intros _. cbn [qmdDisableExpansionSupported set_qmdDisableExpansionSupported].
      apply patched_iff.
Qed.

(** ** The collection (ensureCollection), continued *)

Lemma runCommand_state command args timeoutMs env s :
  the_state (snd (runCommand command args timeoutMs env s)) = the_state s.
Proof.
  unfold runCommand. destruct (script (the_world s)) as [|[code out err|msg|] later];
    try destruct (bool_decide _); reflexivity.
Qed.

Lemma ensureCollection_run agentId s r s1 :
  ensureCollection agentId s = (r, s1) ->
  let name := getCollectionName agentId in
  (forall x, r = Ok x -> x = name /\ name ∈ collectionPrepared (the_state s1))
  /\ (name ∈ collectionPrepared (the_state s) ->
      the_state s1 = the_state s
      /\ spawned (the_world s1) = spawned (the_world s))
  /\ collectionPrepared (the_state s) ⊆ collectionPrepared (the_state s1).
Proof.
  cbv zeta. unfold ensureCollection.
  unfold bind at 1, asks at 1.
  pose proof (quiet_ensureDir (MEMORY_ROOT (the_world s)) s) as (Q1 & Q2 & _).
  unfold after in *. unfold bind at 1.
  destruct (ensureDir (MEMORY_ROOT (the_world s)) s) as [[[]|e] s0]; cbn [fst snd] in *.
  2:{ intros [= <- <-]. split; [discriminate|]. split; [auto|]. rewrite Q1. reflexivity. }
  unfold bind at 1, asks at 1.
  pose proof (quiet_ensureDir (getAgentTurnsDir (the_world s0) agentId) s0)
    as (P1 & P2 & _).
  unfold after in *. unfold bind at 1.
  destruct (ensureDir (getAgentTurnsDir (the_world s0) agentId) s0) as [[[]|e] s2];
    cbn [fst snd] in *.
  2:{ intros [= <- <-]. split; [discriminate|]. split; [intros _; split; congruence|].
      rewrite P1, Q1. reflexivity. }
  unfold bind at 1, gets at 1.
  assert (E2 : the_state s2 = the_state s) by congruence.
  assert (S2 : spawned (the_world s2) = spawned (the_world s)) by congruence.
  destruct (bool_decide_reflect
              (getCollectionName agentId ∈ collectionPrepared (the_state s2)))
    as [Hin | Hnin]; cbn [negb].
  { unfold bind, ret. intros [= <- <-]. split; [intros r [= <-]; auto|].
    split; [auto|]. rewrite E2. reflexivity. }
  unfold bind at 1, try_catch. unfold bind at 1, gets at 1.
  unfold bind at 1.
  pose proof (runCommand_state (qmd_command (the_state s2))
                [js "collection"; js "add"; getAgentTurnsDir (the_world s0) agentId;
                 js "--name"; getCollectionName agentId; js "--mask"; js "**/*.md"]
                10000 [] s2) as E3.
  destruct (runCommand _ _ _ _ s2) as [[out|e] s3]; cbn [fst snd] in *.
  - unfold modify, bind, ret. intros [= <- <-].
    cbn [the_state collectionPrepared set_collectionPrepared].
    split; [intros r [= <-]; split; [reflexivity | set_solver]|].
    split; [intros H; exfalso; apply Hnin; rewrite E2; exact H|].
    rewrite E3, E2. set_solver.
  - destruct (includes _ _ || includes _ _).
    + unfold modify, bind, ret. intros [= <- <-].
      cbn [the_state collectionPrepared set_collectionPrepared].
      split; [intros r [= <-]; split; [reflexivity | set_solver]|].
      split; [intros H; exfalso; apply Hnin; rewrite E2; exact H|].
      rewrite E3, E2. set_solver.
    + unfold throw, bind. intros [= <- <-].
      split; [discriminate|].
      split; [intros H; exfalso; apply Hnin; rewrite E2; exact H|].
      rewrite E3, E2. reflexivity.
Qed.

(** X15.  [ensureCollection] returns the collection name of the agent,
    ["tinyclaw-"] and the sanitized id, and when it returns the collection
    is marked prepared.  For a collection already marked it starts no
    process and leaves the module's variables as they are, so the [add]
    command is issued again only as long as it has not succeeded.  A mark is
    never taken back. *)
Theorem collection_added_once (agentId : jsstring) (s : env) :
  let name := getCollectionName agentId in
  let s1 := snd (ensureCollection agentId s) in
  (forall r, fst (ensureCollection agentId s) = Ok r ->
     r = name /\ name ∈ collectionPrepared (the_state s1))
  /\ (name ∈ collectionPrepared (the_state s) ->
      the_state s1 = the_state s
      /\ spawned (the_world s1) = spawned (the_world s))
  /\ collectionPrepared (the_state s) ⊆ collectionPrepared (the_state s1).
Proof.
  cbv zeta. destruct (ensureCollection agentId s) as [r s1] eqn:E.
  exact (ensureCollection_run agentId s r s1 E).
Qed.

Lemma ensureCollection_failure agentId s e r s1 :
  let w := the_world s in
  let name := getCollectionName agentId in
  let dir := getAgentTurnsDir w agentId in
  existsSync w (MEMORY_ROOT w) = true ->
  existsSync w dir = true ->
  name ∉ collectionPrepared (the_state s) ->
  fst (runCommand (qmd_command (the_state s))
         [js "collection"; js "add"; dir; js "--name"; name; js "--mask"; js "**/*.md"]
         10000 [] s) = Throw e ->
  ensureCollection agentId s = (r, s1) ->
  if includes (toLowerCase (message e)) (js "already")
     || includes (toLowerCase (message e)) (js "exists")
  then r = Ok name /\ name ∈ collectionPrepared (the_state s1)
  else r = Throw e /\ name ∉ collectionPrepared (the_state s1).
Proof.
  cbv zeta. intros Hroot Hdir Hnin Hrun. unfold ensureCollection.
  unfold bind at 1, asks at 1.
  unfold ensureDir at 1. unfold bind at 1 2, asks at 1.
  rewrite Hroot. cbn [negb]. unfold ret at 1.
  unfold bind at 1, asks at 1.
  unfold ensureDir at 1. unfold bind at 1 2, asks at 1.
  rewrite Hdir. cbn [negb]. unfold ret at 1.
  unfold bind at 1, gets at 1.
  rewrite (bool_decide_eq_false_2 _ Hnin). cbn [negb].
  unfold bind at 1, try_catch. unfold bind at 1, gets at 1.
  unfold bind at 1.
  pose proof (runCommand_state (qmd_command (the_state s))
                [js "collection"; js "add"; getAgentTurnsDir (the_world s) agentId;
                 js "--name"; getCollectionName agentId; js "--mask"; js "**/*.md"]
                10000 [] s) as E3.
  destruct (runCommand _ _ _ _ s) as [[out|e'] s3]; cbn [fst snd] in *;
    [discriminate|].
  injection Hrun as ->.
  destruct (includes _ _ || includes _ _).
  - unfold modify, bind, ret. intros [= <- <-].
    cbn [the_state collectionPrepared set_collectionPrepared].
    split; [reflexivity | set_solver].
  - unfold throw, bind. intros [= <- <-]. split; [reflexivity|].
    rewrite E3. exact Hnin.
Qed.

(** X16.  When the directories are in place, the collection is not yet
    marked and the [add] command fails, [ensureCollection] looks at the
    error's message in lower case: if it mentions [already] or [exists] the
    collection counts as prepared and the name is returned; otherwise the
    same error is thrown on and the collection stays unmarked. *)
Theorem collection_add_failure (agentId : jsstring) (s : env) (e : error) :
  let w := the_world s in
  let name := getCollectionName agentId in
  let dir := getAgentTurnsDir w agentId in
  let s1 := snd (ensureCollection agentId s) in
  existsSync w (MEMORY_ROOT w) = true ->
  existsSync w dir = true ->
  name ∉ collectionPrepared (the_state s) ->
  fst (runCommand (qmd_command (the_state s))
         [js "collection"; js "add"; dir; js "--name"; name; js "--mask"; js "**/*.md"]
         10000 [] s) = Throw e ->
  if includes (toLowerCase (message e)) (js "already")
     || includes (toLowerCase (message e)) (js "exists")
  then fst (ensureCollection agentId s) = Ok name
       /\ name ∈ collectionPrepared (the_state s1)
  else fst (ensureCollection agentId s) = Throw e
       /\ name ∉ collectionPrepared (the_state s1).
Proof.
  cbv zeta. intros Hroot Hdir Hnin Hrun.
  destruct (ensureCollection agentId s) as [r s1] eqn:E.
  exact (ensureCollection_failure agentId s e r s1 Hroot Hdir Hnin Hrun E).
Qed.

(** ** The time stamp in a file name (timestampFilename) *)

(** The characters of a stamp: digits, [-], [+], [T] and [Z]. *)
Definition is_stamp_char (c : N) : bool :=
  is_digit c || (c =? 45) || (c =? 43) || (c =? 84) || (c =? 90).

(** The characters of an ISO time: those of a stamp, [:] and [.]. *)
Definition is_iso_char (c : N) : bool :=
  is_stamp_char c || (c =? 58) || (c =? 46).

Lemma digits_fuel_chars fuel n acc :
  Forall (fun c => is_digit c = true) acc ->
  Forall (fun c => is_digit c = true) (digits_fuel fuel n acc).
Proof.
  revert n acc. induction fuel as [|f IH]; intros n acc H; cbn [digits_fuel]; [exact H|].
  assert (Hd : is_digit (Z.to_N (48 + n mod 10)) = true).
  { pose proof (Z.mod_pos_bound n 10 eq_refl) as Hb.
    unfold is_digit. apply andb_true_iff. split; apply N.leb_le; lia. }
  destruct (n <? 10)%Z; [|apply IH]; constructor; assumption.
Qed.

Lemma pad_digits_chars w n : Forall (fun c => is_iso_char c = true) (pad_digits w n).
Proof.
  unfold pad_digits, digits. apply Forall_app. split.
  - apply Forall_forall. intros c Hc. apply list_elem_of_In, repeat_spec in Hc.
    subst. reflexivity.
  - eapply Forall_impl; [apply digits_fuel_chars; constructor|].
    intros c Hc. unfold is_iso_char, is_stamp_char. rewrite Hc. reflexivity.
Qed.

Lemma literal_chars (P : N -> bool) (t : jsstring) :
  forallb P t = true -> Forall (fun c => P c = true) t.
Proof. intros H. apply Forall_forall. intros c Hc. rewrite forallb_forall in H. apply H, list_elem_of_In, Hc. Qed.

Lemma toISOString_chars ts iso :
  Date.toISOString ts = Ok iso -> Forall (fun c => is_iso_char c = true) iso.
Proof.
  unfold Date.toISOString. destruct (Date.time_value ts) as [t|]; [|discriminate].
  destruct (Date.civil_from_days _) as [[y m] d].
  intros [= <-].
  assert (Hy : Forall (fun c => is_iso_char c = true)
                 (if (0 <=? y)%Z && (y <=? 9999)%Z then pad_digits 4 y
                  else (if (y <? 0)%Z then js "-" else js "+") ++ pad_digits 6 (Z.abs y))).
  { destruct ((0 <=? y)%Z && (y <=? 9999)%Z); [apply pad_digits_chars|].
    rewrite Forall_app. split; [|apply pad_digits_chars].
    destruct (y <? 0)%Z; apply literal_chars; reflexivity. }
  repeat first [ rewrite Forall_app | rewrite Forall_cons ].
  repeat split;
    first [ exact Hy | apply pad_digits_chars | apply literal_chars; reflexivity
          | reflexivity ].
Qed.

Lemma timestampFilename_chars ts name :
  timestampFilename ts = Ok name -> Forall (fun c => is_stamp_char c = true) name.
Proof.
  unfold timestampFilename. destruct (Date.toISOString ts) as [iso|e] eqn:E;
    [|discriminate].
  intros [= <-]. unfold re_colon_dot. rewrite replace_all_class.
  pose proof (toISOString_chars ts iso E) as H. clear E.
  induction H as [|c iso Hc _ IH]; [constructor|].
  cbn [flat_map]. destruct ((c =? 58) || (c =? 46)) eqn:Ec.
  - constructor; [reflexivity | exact IH].
  - constructor; [|exact IH].
    unfold is_iso_char in Hc. apply orb_false_iff in Ec as [E1 E2].
    rewrite E1, E2, !orb_false_r in Hc. exact Hc.
Qed.

(** X17.  [timestampFilename] throws a [RangeError] exactly for a time
    stamp that is not a valid time (not finite, or beyond 8.64e15
    milliseconds from the epoch).  Otherwise the stamp it returns holds
    digits, [-], [T] and [Z] only (and [+] for a year beyond 9999): the
    colons and the dot of the ISO time are gone, and there is no path
    separator, percent sign or white space in it. *)
Theorem timestampFilename_is_plain (ts : number) :
  (is_finite ts && PrimFloat.leb (PrimFloat.abs ts) 8.64e15 = false ->
   timestampFilename ts = Throw (Err RangeError (js "Invalid time value")))
  /\ (is_finite ts && PrimFloat.leb (PrimFloat.abs ts) 8.64e15 = true ->
      exists name,
        timestampFilename ts = Ok name
        /\ forall c, c ∈ name ->
             (48 <= c <= 57) \/ c = 45 \/ c = 43 \/ c = 84 \/ c = 90).
Proof.
  split.
  - intros H. unfold timestampFilename, Date.toISOString, Date.time_value.
    rewrite H. reflexivity.
  - intros H.
    destruct (timestampFilename ts) as [name|e] eqn:E.
    + exists name. split; [reflexivity|].
      pose proof (timestampFilename_chars ts name E) as Hc.
      rewrite Forall_forall in Hc. intros c Hin. specialize (Hc c Hin).
      unfold is_stamp_char, is_digit in Hc. units; lia.
    + exfalso. unfold timestampFilename, Date.toISOString, Date.time_value in E.
      rewrite H in E. destruct (Date.civil_from_days _) as [[y m] d]. discriminate.
Qed.

(** ** Matching a literal *)

Lemma rmatch_lit p :
  p <> [] ->
  forall bef aft cap,
    rmatch false (lit p) (Pos bef aft cap)
    = if starts_with p aft
      then [Pos (rev p ++ bef) (drop (length p) aft) cap]
      else [].
Proof.
  induction p as [|c [|c' p] IH]; intros Hne bef aft cap; [congruence| |].
  - destruct aft as [|x aft];
      cbn [lit rmatch step Regex.after Regex.before Regex.capture same_char
           starts_with length drop rev app]; [reflexivity|].
    rewrite (N.eqb_sym c x), andb_true_r. destruct (x =? c) eqn:E; [|reflexivity].
    apply N.eqb_eq in E. subst. reflexivity.
  - change (lit (c :: c' :: p)) with (Seq (Chr c) (lit (c' :: p))).
    destruct aft as [|x aft];
      cbn [rmatch step Regex.after Regex.before Regex.capture same_char flat_map];
      [reflexivity|].
    change (starts_with (c :: c' :: p) (x :: aft))
      with ((c =? x) && starts_with (c' :: p) aft).
    rewrite (N.eqb_sym c x).
    destruct (x =? c) eqn:E; cbn [andb flat_map]; [|reflexivity].
    apply N.eqb_eq in E. subst. rewrite app_nil_r.
    rewrite (IH ltac:(discriminate)).
    destruct (starts_with (c' :: p) aft); [|reflexivity].
    cbn [length drop rev]. rewrite <- !app_assoc. reflexivity.
Qed.

Lemma head_flat_map {A B} (f : A -> list B) x tl y tl' :
  f x = y :: tl' -> head (flat_map f (x :: tl)) = Some y.
Proof. intros E. cbn [flat_map]. rewrite E. reflexivity. Qed.

Lemma run_length_all p s rest :
  Forall (fun c => p c = true) s ->
  match rest with c :: _ => p c = false | [] => True end ->
  run_length p (s ++ rest) = length s.
Proof.
  intros Hs Hr. induction Hs as [|c s Hc _ IH]; cbn [app run_length length].
  - destruct rest as [|c r]; [reflexivity|]. cbn [run_length]. rewrite Hr. reflexivity.
  - rewrite Hc, IH. reflexivity.
Qed.

(** ** Decoding a path without escapes *)

Lemma decode_plain s :
  Forall (fun c => c <> 37) s -> Uri.decodeURIComponent s = Ok s.
Proof.
  unfold Uri.decodeURIComponent.
  induction 1 as [|c s Hc _ IH]; [reflexivity|].
  cbn [Uri.decode]. apply N.eqb_neq in Hc. rewrite Hc, IH. reflexivity.
Qed.

(** ** Sources of hits (loadTurnSectionsFromSource) *)

Definition not_slash (c : N) : bool := negb (c =? 47).
Definition not_line_end (c : N) : bool := negb (is_line_terminator c).

Lemma rmatch_seq ci a b z :
  rmatch ci (Seq a b) z = flat_map (rmatch ci b) (rmatch ci a z).
Proof. reflexivity. Qed.

Lemma rmatch_bol ci bef aft cap :
  rmatch ci Bol (Pos bef aft cap)
  = match bef with [] => [Pos bef aft cap] | _ => [] end.
Proof. reflexivity. Qed.

Lemma rmatch_eol ci bef cap : rmatch ci Eol (Pos bef [] cap) = [Pos bef [] cap].
Proof. reflexivity. Qed.

Lemma rmatch_chr c bef aft cap :
  rmatch false (Chr c) (Pos bef (c :: aft) cap) = [Pos (c :: bef) aft cap].
Proof. cbn [rmatch step Regex.after Regex.before Regex.capture same_char]. rewrite N.eqb_refl. reflexivity. Qed.

Lemma rmatch_grp ci r z :
  rmatch ci (Grp r) z
  = map (fun z' => Pos (before z') (Regex.after z') (Some (consumed z z')))
      (rmatch ci r z).
Proof. reflexivity. Qed.

Lemma consumed_rev x bef aft aft' cap cap' :
  consumed (Pos bef aft cap) (Pos (rev x ++ bef) aft' cap') = x.
Proof.
  unfold consumed. cbn [Regex.before]. rewrite length_app, Nat.add_sub.
  rewrite take_app_length, rev_involutive. reflexivity.
Qed.

(** The pattern of [loadTurnSectionsFromSource], with its classes named. *)
Lemma re_qmd_source_shape :
  re_qmd_source
  = Seq Bol
      (Seq (lit (js "qmd://"))
         (Seq (Rep 1 None (Cls not_slash))
            (Seq (Chr 47)
               (Seq (Grp (Rep 1 None (Cls not_line_end))) Eol)))).
Proof. reflexivity. Qed.

Lemma qmd_source_match coll rel :
  coll <> [] -> Forall (fun c => not_slash c = true) coll ->
  rel <> [] -> Forall (fun c => not_line_end c = true) rel ->
  exists z,
    exec false re_qmd_source (js "qmd://" ++ coll ++ js "/" ++ rel) = Some z
    /\ capture z = Some rel.
Proof.
  intros Hc Hcoll Hr Hrel.
  assert (E : exists z,
             match_at false re_qmd_source
               (Pos [] (js "qmd://" ++ coll ++ js "/" ++ rel) None) = Some z
             /\ capture z = Some rel).
  { unfold match_at. rewrite re_qmd_source_shape.
    rewrite rmatch_seq, rmatch_bol. cbn [flat_map]. rewrite app_nil_r.
    rewrite rmatch_seq, rmatch_lit by discriminate.
    rewrite starts_with_self. cbn [flat_map]. rewrite app_nil_r.
    rewrite drop_app_length.
    set (bef1 := rev (js "qmd://") ++ []).
    rewrite rmatch_seq, rmatch_rep_class. cbn [Regex.after].
    destruct (rep_class_head false not_slash 1 (coll ++ js "/" ++ rel)
                (S (length (coll ++ js "/" ++ rel))) 0 bef1 None) as (tl1 & E1).
    { lia. }
    { rewrite (run_length_all not_slash coll (js "/" ++ rel) Hcoll) by reflexivity.
      destruct coll; [congruence | cbn [length]; lia]. }
    rewrite E1.
    rewrite (run_length_all not_slash coll (js "/" ++ rel) Hcoll) by reflexivity.
    rewrite take_app_length, drop_app_length.
    set (bef2 := rev coll ++ bef1).
    cbn [flat_map].
    change (js "/" ++ rel) with (47 :: rel).
    rewrite rmatch_seq, rmatch_chr. cbn [flat_map]. rewrite app_nil_r.
    rewrite rmatch_seq, rmatch_grp, rmatch_rep_class. cbn [Regex.after].
    assert (Hrun : run_length not_line_end rel = length rel).
    { rewrite <- (app_nil_r rel) at 1.
      apply (run_length_all not_line_end rel [] Hrel). exact I. }
    destruct (rep_class_head false not_line_end 1 rel (S (length rel)) 0
                (47 :: bef2) None) as (tl2 & E2).
    { lia. }
    { rewrite Hrun. destruct rel; [congruence | cbn [length]; lia]. }
    rewrite E2, Hrun, firstn_all, drop_all.
    cbn [map flat_map Regex.after Regex.before Regex.capture].
    rewrite rmatch_eol. cbn [app head].
    eexists. split; [reflexivity|]. cbn [capture]. f_equal.
    apply consumed_rev. }
  destruct E as (z & E & Hz). exists z. unfold exec.
  destruct (js "qmd://" ++ coll ++ js "/" ++ rel); cbn [exec_go]; rewrite E; auto.
Qed.

Lemma qmd_source_no_match_go aft :
  forall bef,
    bef <> [] \/ starts_with (js "qmd://") aft = false ->
    exec_go false re_qmd_source bef aft = None.
Proof.
  assert (Hm : forall bef aft,
             bef <> [] \/ starts_with (js "qmd://") aft = false ->
             match_at false re_qmd_source (Pos bef aft None) = None).
  { intros bef aft' H. unfold match_at. rewrite re_qmd_source_shape.
    rewrite rmatch_seq, rmatch_bol. destruct bef as [|b bef]; [|reflexivity].
    destruct H as [H | H]; [congruence|].
    cbn [flat_map]. rewrite app_nil_r. rewrite rmatch_seq, rmatch_lit by discriminate.
    rewrite H. reflexivity. }
  induction aft as [|c aft IH]; intros bef H; cbn [exec_go]; rewrite (Hm _ _ H).
  - reflexivity.
  - apply IH. left. discriminate.
Qed.

Lemma load_not_qmd w agentId source :
  starts_with (js "qmd://") source = false ->
  loadTurnSectionsFromSource w source agentId = Ok None.
Proof.
  intros H. unfold loadTurnSectionsFromSource, exec.
  rewrite qmd_source_no_match_go by (right; exact H). reflexivity.
Qed.

Lemma load_plain w agentId coll rel :
  coll <> [] -> (forall c, c ∈ coll -> c <> 47) ->
  rel <> [] -> (forall c, c ∈ rel -> is_line_terminator c = false /\ c <> 37) ->
  loadTurnSectionsFromSource w (js "qmd://" ++ coll ++ js "/" ++ rel) agentId
  = Ok match files w !! Path.path_join [getAgentTurnsDir w agentId; rel] with
       | Some (File content) => Some (parseTurnSections content)
       | _ => None
       end.
Proof.
  intros Hc Hcoll Hr Hrel.
  destruct (qmd_source_match coll rel) as (z & E & Hz); [exact Hc | | exact Hr | |].
  - apply Forall_forall. intros c Hin. unfold not_slash.
    apply negb_true_iff, N.eqb_neq, Hcoll, Hin.
  - apply Forall_forall. intros c Hin. unfold not_line_end.
    apply negb_true_iff, Hrel, Hin.
  - unfold loadTurnSectionsFromSource. rewrite E, Hz.
    rewrite decode_plain by (apply Forall_forall; intros c Hin; apply Hrel, Hin).
    unfold existsSync, readFileSync.
    destruct (files w !! _) as [[content| |]|]; reflexivity.
Qed.

(** X18.  [loadTurnSectionsFromSource] on a source without escapes.  A
    source that does not begin with [qmd://] gives [null], whatever is on
    disk.  For a source [qmd://collection/path] whose path holds no percent
    sign, the file looked up is the path joined to the agent's turn
    directory, whatever the collection named: if it is a readable file its
    sections are returned, otherwise (nothing there, a directory, an
    unreadable file) [null]; nothing is thrown. *)
Theorem load_plain_source (w : world) (agentId source coll rel : jsstring) :
  (starts_with (js "qmd://") source = false ->
   loadTurnSectionsFromSource w source agentId = Ok None)
  /\ (coll <> [] -> (forall c, c ∈ coll -> c <> 47) ->
      rel <> [] -> (forall c, c ∈ rel -> is_line_terminator c = false /\ c <> 37) ->
      loadTurnSectionsFromSource w (js "qmd://" ++ coll ++ js "/" ++ rel) agentId
      = Ok match files w !! Path.path_join [getAgentTurnsDir w agentId; rel] with
           | Some (File content) => Some (parseTurnSections content)
           | _ => None
           end).
Proof. split; [apply load_not_qmd | apply load_plain]. Qed.

(** ** A saved turn is found again (saveTurnToMemory, loadTurnSectionsFromSource) *)

(** [s'] has the home directories of [s]. *)
Definition same_home (s s' : env) : Prop :=
  tinyclaw_home (the_world s') = tinyclaw_home (the_world s).

Lemma same_home_refl s : same_home s s.
Proof. reflexivity. Qed.

Lemma same_home_trans a b c : same_home a b -> same_home b c -> same_home a c.
Proof. unfold same_home. congruence. Qed.

Lemma same_home_date_now : keeps same_home date_now.
Proof.
  intros s. unfold same_home, after. rewrite date_now_run.
  destruct s as [st [? ? [|] ? ? ? ? ?]]; reflexivity.
Qed.

Lemma same_home_ensureDir dir : keeps same_home (ensureDir dir).
Proof.
  intros [st w]. unfold same_home, after, ensureDir, bind, asks, mkdirSync, ret.
  cbv beta iota delta [the_world the_state].
  destruct (existsSync w dir); cbn [negb snd]; [reflexivity|].
  destruct (writable w dir); cbn [snd]; destruct w; reflexivity.
Qed.

Lemma turns_dir_home w w' agentId :
  tinyclaw_home w' = tinyclaw_home w ->
  getAgentTurnsDir w' agentId = getAgentTurnsDir w agentId.
Proof.
  intros H. unfold getAgentTurnsDir, MEMORY_TURNS_DIR, MEMORY_ROOT. rewrite H.
  reflexivity.
Qed.

(** The time a turn is stamped with: the one it brings, or the clock's
    when it brings none (or zero). *)
Definition turn_time (params : TurnParams) (s : env) : number :=
  match p_timestampMs params with
  | Some t => if truthy (VNum t) then t else reading s
  | None => reading s
  end.

(** What a successful run of the [try] block leaves on disk. *)
Lemma save_turn_body_ok params s s1 :
  save_turn_body params s = (Ok tt, s1) ->
  exists stamp iso,
    timestampFilename (turn_time params s) = Ok stamp
    /\ Date.toISOString (turn_time params s) = Ok iso
    /\ tinyclaw_home (the_world s1) = tinyclaw_home (the_world s)
    /\ files (the_world s1) !! turn_file (the_world s) params stamp
       = Some (File (toWellFormed (join newline (turn_lines params iso)))).
Proof.
  unfold save_turn_body.
  assert (Hts : exists s0,
             (match p_timestampMs params with
              | Some t => if truthy (VNum t) then ret t else date_now
              | None => date_now
              end) s = (Ok (turn_time params s), s0) /\ same_home s s0).
  { unfold turn_time.
    destruct (p_timestampMs params) as [t|]; [destruct (truthy (VNum t))|].
    - eexists. split; [reflexivity | apply same_home_refl].
    - pose proof (same_home_date_now s) as H. unfold after in H.
      rewrite date_now_run in *. eexists. split; [reflexivity | exact H].
    - pose proof (same_home_date_now s) as H. unfold after in H.
      rewrite date_now_run in *. eexists. split; [reflexivity | exact H]. }
  destruct Hts as (s0 & Ets & H0). set (ts := turn_time params s) in *.
  rewrite (bind_ok _ _ _ _ _ Ets).
  unfold bind at 1, asks at 1.
  pose proof (same_home_ensureDir (getAgentTurnsDir (the_world s0) (p_agentId params)) s0)
    as H1. unfold after in H1.
  unfold bind at 1.
  destruct (ensureDir _ s0) as [[[]|e] s2]; [|discriminate]. cbn [snd] in H1.
  unfold bind at 1, lift at 1.
  destruct (timestampFilename ts) as [stamp|e] eqn:Est; [|discriminate].
  unfold bind at 1, asks at 1. unfold bind at 1, lift at 1.
  destruct (Date.toISOString ts) as [iso|e] eqn:Eiso; [|discriminate].
  assert (Hhome : tinyclaw_home (the_world s2) = tinyclaw_home (the_world s))
    by (unfold same_home in *; congruence).
  assert (Hfile : turn_file (the_world s2) params stamp
                  = turn_file (the_world s) params stamp).
  { unfold turn_file. rewrite (turns_dir_home _ _ _ Hhome). reflexivity. }
  rewrite Hfile. unfold writeFileSync.
  destruct (files (the_world s2) !! turn_file (the_world s) params stamp)
    as [[c| |]|] eqn:Ef;
    destruct (writable (the_world s2) (turn_file (the_world s) params stamp)) eqn:Ew;
    intros H; try (discriminate H).
  all: apply (f_equal snd) in H; cbv beta iota delta [snd] in H; rewrite <- H.
  all: exists stamp, iso.
  all: split; [reflexivity|]; split; [reflexivity|].
  all: split; [destruct s2 as [st2 []]; exact Hhome|].
  all: destruct s2 as [st2 w2]; destruct w2; apply lookup_insert_eq.
Qed.

Lemma stamp_char_plain c :
  is_stamp_char c = true -> is_line_terminator c = false /\ c <> 37.
Proof.
  unfold is_stamp_char, is_digit, is_line_terminator. intros H.
  split.
  - units; repeat (apply orb_false_iff; split); apply N.eqb_neq; lia.
  - units; lia.
Qed.

Lemma cons_neq_self {A} (x : A) l : x :: l <> l.
Proof. intros E. apply (f_equal length) in E. cbn [length] in E. lia. Qed.

Lemma file_name_plain ts stamp messageId :
  timestampFilename ts = Ok stamp ->
  (forall c, c ∈ messageId -> is_line_terminator c = false /\ c <> 37) ->
  forall c, c ∈ stamp ++ js "-" ++ messageId ++ js ".md" ->
    is_line_terminator c = false /\ c <> 37.
Proof.
  intros Est Hid c Hin.
  pose proof (timestampFilename_chars ts stamp Est) as Hst.
  rewrite Forall_forall in Hst.
  apply elem_of_app in Hin as [Hin | Hin]; [apply stamp_char_plain, Hst, Hin|].
  apply elem_of_app in Hin as [Hin | Hin].
  { apply list_elem_of_singleton in Hin. subst. split; [reflexivity | discriminate]. }
  apply elem_of_app in Hin as [Hin | Hin]; [apply Hid, Hin|].
  revert c Hin.
  apply (proj1 (Forall_forall (fun c => is_line_terminator c = false /\ c <> 37)
                  (js ".md"))).
  repeat constructor; discriminate.
Qed.

Lemma save_logged_nothing params s :
  log_lines (the_world (snd (saveTurnToMemory params s))) = log_lines (the_world s) ->
  exists s0,
    save_turn_body params s = (Ok tt, s0) /\ snd (saveTurnToMemory params s) = s0.
Proof.
  pose proof (quiet_save_turn_body params s) as (_ & _ & _ & Q4).
  unfold saveTurnToMemory, try_catch, after in *.
  destruct (save_turn_body params s) as [[[]|e] s0] eqn:E.
  - intros _. exists s0. split; reflexivity.
  - intros Hlog. exfalso. unfold log, modify_world in Hlog.
    destruct s0 as [st0 w0]. destruct w0.
    cbv beta iota delta [snd the_world the_state with_log_lines log_lines]
      in Hlog, Q4.
    rewrite Q4 in Hlog. exact (cons_neq_self _ _ Hlog).
Qed.

Lemma turn_file_eq w params stamp :
  turn_file w params stamp
  = Path.path_join [getAgentTurnsDir w (p_agentId params);
                    stamp ++ js "-" ++ p_messageId params ++ js ".md"].
Proof. reflexivity. Qed.

Lemma load_saved w w' agentId coll ts stamp messageId text :
  coll <> [] -> (forall c, c ∈ coll -> c <> 47) ->
  (forall c, c ∈ messageId -> is_line_terminator c = false /\ c <> 37) ->
  timestampFilename ts = Ok stamp ->
  tinyclaw_home w' = tinyclaw_home w ->
  files w' !! Path.path_join [getAgentTurnsDir w agentId;
                              stamp ++ js "-" ++ messageId ++ js ".md"]
  = Some (File text) ->
  loadTurnSectionsFromSource w'
    (js "qmd://" ++ coll ++ js "/" ++ (stamp ++ js "-" ++ messageId ++ js ".md"))
    agentId
  = Ok (Some (parseTurnSections text)).
Proof.
  intros Hc Hcoll Hid Est Hhome Hfile.
  rewrite load_plain; [| exact Hc | exact Hcoll | | ].
  - rewrite (turns_dir_home _ _ _ Hhome), Hfile. reflexivity.
  - intros E'. apply app_eq_nil in E' as [_ E']. discriminate E'.
  - apply (file_name_plain ts); assumption.
Qed.

(** X19.  A turn that [saveTurnToMemory] saved without logging a warning is
    found again by [loadTurnSectionsFromSource]: under a source
    [qmd://collection/file] that names the written file (the stamp of the
    turn's time, [-], the message id and [.md]), for the same agent and
    whatever the collection, it returns the sections of the text that was
    written; and those are the user text and the assistant text, capped,
    made well formed and trimmed, when no section marker occurs before its
    own header.  The turn's time is the time stamp it brings, or the
    clock's when it brings none.  The message id must hold no percent sign
    and no line break. *)
Theorem saved_turn_is_found (params : TurnParams) (s : env) (coll : jsstring) :
  let s1 := snd (saveTurnToMemory params s) in
  let ts := turn_time params s in
  log_lines (the_world s1) = log_lines (the_world s) ->
  coll <> [] -> (forall c, c ∈ coll -> c <> 47) ->
  (forall c, c ∈ p_messageId params -> is_line_terminator c = false /\ c <> 37) ->
  exists stamp iso,
    timestampFilename ts = Ok stamp
    /\ Date.toISOString ts = Ok iso
    /\ loadTurnSectionsFromSource (the_world s1)
         (js "qmd://" ++ coll ++ js "/"
          ++ (stamp ++ js "-" ++ p_messageId params ++ js ".md"))
         (p_agentId params)
       = Ok (Some (parseTurnSections
                     (toWellFormed (join newline (turn_lines params iso)))))
    /\ (markers_in_place params iso = true ->
        parseTurnSections (toWellFormed (join newline (turn_lines params iso)))
        = MkSections (trim (toWellFormed (truncate (p_userMessage params))))
            (trim (toWellFormed (truncate (p_agentResponse params))))).
Proof.
  cbv zeta. intros Hlog Hc Hcoll Hid.
  destruct (save_logged_nothing params s Hlog) as (s0 & E & E0).
  rewrite E0.
  destruct (save_turn_body_ok params s s0 E)
    as (stamp & iso & Est & Eiso & Hhome & Hfile).
  exists stamp, iso. split; [exact Est|]. split; [exact Eiso|].
  split; [|apply turn_text_parses].
  rewrite turn_file_eq in Hfile.
  exact (load_saved (the_world s) (the_world s0) (p_agentId params) coll
           (turn_time params s) stamp
           (p_messageId params) _ Hc Hcoll Hid Est Hhome Hfile).
Qed.

(** ** The order of the ranked hits (rerankAndHydrateResults) *)

(** A number that is below zero, or a negative zero, or not a number, is not
    above zero. *)
Definition not_positive (x : spec_float) : Prop :=
  match x with
  | S754_zero _ | S754_nan => True
  | S754_infinity s | S754_finite s _ _ => s = true
  end.

Lemma not_positive_ltb x : not_positive x -> SFltb (S754_zero false) x = false.
Proof. destruct x as [[]| [] | | [] m e]; cbn; intros H; congruence. Qed.

Lemma binary_round_sign sx mx ex :
  match binary_round prec emax sx mx ex with
  | S754_zero s | S754_infinity s | S754_finite s _ _ => s = sx
  | S754_nan => True
  end.
Proof.
  unfold binary_round, binary_round_aux.
  destruct (shl_align _ _ _) as [mz ez].
  destruct (shr_fexp _ _ _ _ _) as [mrs' e'].
  destruct (shr_fexp _ _ _ _ _) as [mrs'' e''].
  destruct (shr_m mrs''); [reflexivity | | exact I].
  destruct (_ <=? _)%Z; reflexivity.
Qed.

Lemma binary_normalize_neg m e :
  (m <= 0)%Z -> not_positive (binary_normalize prec emax m e false).
Proof.
  intros H. destruct m as [|p|p]; cbn [binary_normalize]; [exact I | lia |].
  pose proof (binary_round_sign true p e) as Hs.
  destruct (binary_round prec emax true p e); cbn; auto.
Qed.

Lemma binary_normalize_pos m e :
  (0 < m)%Z ->
  match binary_normalize prec emax m e false with
  | S754_zero s | S754_infinity s | S754_finite s _ _ => s = false
  | S754_nan => True
  end.
Proof.
  intros H. destruct m as [|p|p]; cbn [binary_normalize]; [lia | | lia].
  apply binary_round_sign.
Qed.

(** If [x - y] is above zero then [y - x] is not. *)
Lemma SFsub_antisym x y :
  SFltb (S754_zero false) (SFsub prec emax x y) = true ->
  not_positive (SFsub prec emax y x).
Proof.
  destruct x as [sx|sx| |sx mx ex], y as [sy|sy| |sy my ey];
    try (destruct sx, sy; cbn; intros H; congruence || exact I);
    try (destruct sx; cbn; intros H; congruence || exact I);
    try (destruct sy; cbn; intros H; congruence || exact I);
    try (cbn; intros H; congruence || exact I).
  unfold SFsub. rewrite (Z.min_comm ey ex).
  set (ez := Z.min ex ey).
  set (a := cond_Zopp sx (Zpos (fst (shl_align mx ex ez)))).
  set (b := cond_Zopp sy (Zpos (fst (shl_align my ey ez)))).
  intros H.
  destruct (Z.lt_trichotomy (a - b) 0) as [Hlt | [Heq | Hgt]].
  - exfalso. pose proof (binary_normalize_neg (a - b) ez ltac:(lia)) as Hn.
    apply not_positive_ltb in Hn. congruence.
  - exfalso. pose proof (binary_normalize_neg (a - b) ez ltac:(lia)) as Hn.
    apply not_positive_ltb in Hn. congruence.
  - apply binary_normalize_neg. lia.
Qed.

(** The comparator never asks for both orders. *)
Lemma comes_after_antisym a b : comes_after a b = true -> comes_after b a = false.
Proof.
  unfold comes_after. rewrite !FloatAxioms.ltb_spec, !FloatAxioms.sub_spec.
  change (Prim2SF 0) with (S754_zero false).
  intros H. apply not_positive_ltb. apply SFsub_antisym. exact H.
Qed.

(** No hit is directly followed by one the comparator puts before it. *)
Fixpoint in_order (l : list QmdResult) : Prop :=
  match l with
  | x :: (y :: _) as rest => comes_after x y = false /\ in_order rest
  | _ => True
  end.

Lemma insert_sorted_in_order x l : in_order l -> in_order (insert_sorted x l).
Proof.
  induction l as [|y l IH]; intros H; cbn [insert_sorted]; [exact I|].
  destruct (comes_after x y) eqn:E.
  - destruct l as [|z l]; cbn [insert_sorted] in *.
    + split; [apply comes_after_antisym, E | exact I].
    + destruct H as [Hyz H]. specialize (IH H).
      destruct (comes_after x z) eqn:E'.
      * split; [exact Hyz | exact IH].
      * split; [apply comes_after_antisym, E | exact IH].
  - split; [exact E | exact H].
Qed.

Lemma sort_by_score_in_order l : in_order (sort_by_score l).
Proof.
  unfold sort_by_score. induction l as [|x l IH]; cbn [foldr]; [exact I|].
  apply insert_sorted_in_order, IH.
Qed.

Lemma in_order_tail x l : in_order (x :: l) -> in_order l.
Proof. destruct l as [|y l]; [intros; exact I | intros [_ H]; exact H]. Qed.

Lemma in_order_adjacent l1 x y l2 :
  in_order (l1 ++ x :: y :: l2) -> comes_after x y = false.
Proof.
  induction l1 as [|a l1 IH]; cbn [app].
  - intros [H _]. exact H.
  - intros H. apply IH. eapply in_order_tail, H.
Qed.

(** X20.  When [rerankAndHydrateResults] returns, the hits are in the order
    of the comparator [(a, b) => b.score - a.score]: for no hit is
    [next.score - hit.score] above zero for the hit that directly follows
    it.  (The array sort is modelled for comparators that are consistent,
    which this one is when no score is [NaN].) *)
Theorem rerank_sorted (w : world) (hits : list QmdResult) (message agentId : jsstring)
    (out earlier later : list QmdResult) (hit next : QmdResult) :
  rerankAndHydrateResults w hits message agentId = Ok out ->
  (forall r, r ∈ out -> is_nan (score r) = false) ->
  out = earlier ++ hit :: next :: later ->
  PrimFloat.ltb 0 (score next - score hit) = false.
Proof.
  unfold rerankAndHydrateResults. intros H _ E.
  apply (in_order_adjacent earlier hit next later). rewrite <- E.
  destruct hits as [|h hs].
  - injection H as <-. exact I.
  - destruct (map_res _ _) as [mapped|e]; [|discriminate].
    injection H as <-. apply sort_by_score_in_order.
Qed.

(** ** Hydrated snippets (rerankAndHydrateResults), continued *)

(** A one-line text: its white space is single spaces (U+0020) only. *)
Definition one_line (t : jsstring) : Prop :=
  forall c, c ∈ t -> is_space c = true -> c = 32.

Lemma truncateInline_length text max : (length (truncateInline text max) <= max + 3)%nat.
Proof.
  unfold truncateInline. destruct (Nat.leb_spec (length text) max); [lia|].
  rewrite length_app, length_take. change (length (js "...")) with 3%nat. lia.
Qed.

Lemma truncateInline_one_line text max :
  one_line text -> one_line (truncateInline text max).
Proof.
  unfold truncateInline, one_line. intros H c Hc Hs.
  destruct (length text <=? max)%nat; [auto|].
  apply elem_of_app in Hc as [Hc | Hc].
  - apply H; [|exact Hs]. rewrite <- (take_drop max text).
    apply elem_of_app. left. exact Hc.
  - exfalso. revert c Hc Hs.
    apply (proj1 (Forall_forall (fun c => is_space c = true -> False) (js "..."))).
    repeat constructor; discriminate.
Qed.

Lemma normalizeInline_one_line text : one_line (normalizeInline text).
Proof.
  rewrite normalizeInline_cleaned.
  destruct (cleaned_single_spaced text) as (_ & H & _). exact H.
Qed.

(** What a hydrated snippet looks like. *)
Definition hydrated (snippet : jsstring) : Prop :=
  exists u a,
    snippet = js "User: " ++ u ++ newline ++ js "Assistant: " ++ a
    /\ (length u <= 183)%nat /\ (length a <= 263)%nat
    /\ a <> [] /\ one_line u /\ one_line a.

Lemma truncateInline_nonempty text max : text <> [] -> truncateInline text max <> [].
Proof.
  unfold truncateInline. intros H. destruct (length text <=? max)%nat; [exact H|].
  intros E. apply app_eq_nil in E as [_ E]. discriminate.
Qed.

Lemma Ok_inj {A} (a b : A) : Ok a = Ok b -> a = b.
Proof. intros [= ->]. reflexivity. Qed.

Lemma hydrate_snippet w terms agentId hit out :
  hydrate w terms agentId hit = Ok out ->
  source out = source hit
  /\ (snippet out = snippet hit \/ hydrated (snippet out)).
Proof.
  unfold hydrate.
  destruct (loadTurnSectionsFromSource _ _ _) as [[[u [|a0 a]]|]|];
    try discriminate; intros H; apply Ok_inj in H; subst out; cbn [source snippet];
    (split; [reflexivity|]); try (left; reflexivity).
  destruct (normalizeInline (a0 :: a)) as [|c r] eqn:E; [left; reflexivity|].
  right. exists (truncateInline (normalizeInline u) 180), (truncateInline (c :: r) 260).
  split; [reflexivity|].
  split; [apply (truncateInline_length _ 180)|].
  split; [apply (truncateInline_length _ 260)|].
  split; [apply truncateInline_nonempty; discriminate|].
  split; apply truncateInline_one_line; [|rewrite <- E]; apply normalizeInline_one_line.
Qed.

Lemma hydrated_length snippet : hydrated snippet -> (length snippet <= 464)%nat.
Proof.
  intros (u & a & -> & Hu & Ha & _). rewrite !length_app.
  change (length (js "User: ")) with 6%nat.
  change (length newline) with 1%nat.
  change (length (js "Assistant: ")) with 11%nat. lia.
Qed.

(** X21.  Every hit [rerankAndHydrateResults] returns stems from one of the
    hits it was given and has that hit's source.  Its snippet is the one
    the hit came with, or a hydrated one: [User: ], the user text, a line
    break, [Assistant: ] and a non-empty assistant text, where both texts
    hold no white space other than single spaces (so the snippet has
    exactly two lines) and are cut to 180 and 260 code units plus three
    dots; a hydrated snippet is at most 464 code units long. *)
Theorem rerank_snippets (w : world) (hits : list QmdResult) (message agentId : jsstring)
    (out : list QmdResult) (r : QmdResult) :
  rerankAndHydrateResults w hits message agentId = Ok out ->
  r ∈ out ->
  exists hit,
    hit ∈ hits
    /\ source r = source hit
    /\ (snippet r = snippet hit
        \/ ((exists u a,
               snippet r = js "User: " ++ u ++ newline ++ js "Assistant: " ++ a
               /\ (length u <= 183)%nat /\ (length a <= 263)%nat
               /\ a <> []
               /\ (forall c, c ∈ u ++ a -> is_space c = true -> c = 32))
            /\ (length (snippet r) <= 464)%nat)).
Proof.
  unfold rerankAndHydrateResults. destruct hits as [|h hs].
  { intros [= <-] Hr. apply elem_of_nil in Hr. contradiction. }
  set (terms := dedupe [] _). generalize (h :: hs). clear h hs. intros hits.
  destruct (map_res (hydrate w terms agentId) hits) as [mapped|] eqn:E;
    [|discriminate].
  intros [= <-] Hr.
  apply (elem_of_Permutation_proper r _ _ (sort_by_score_perm mapped)) in Hr.
  apply map_res_Forall2 in E.
  induction E as [|x y xs ys Hxy _ IH]; [apply elem_of_nil in Hr; contradiction|].
  apply elem_of_cons in Hr as [-> | Hr].
  - exists x. split; [left|].
    destruct (hydrate_snippet _ _ _ _ _ Hxy) as [Hs [Hn | Hh]].
    + split; [exact Hs | left; exact Hn].
    + split; [exact Hs|]. right. split; [|apply hydrated_length, Hh].
      destruct Hh as (u & a & Eu & Hu & Ha & Hne & Ou & Oa).
      exists u, a. repeat split; try assumption.
      intros c Hc. apply elem_of_app in Hc as [Hc | Hc]; [apply Ou | apply Oa]; exact Hc.
  - destruct (IH Hr) as (hit & Hin & H). exists hit. split; [right; exact Hin | exact H].
Qed.

(** X22.  When [rerankAndHydrateResults] returns, it returns as many hits
    as it was given, with the same sources: no hit is dropped and none is
    made up.  A hit whose source does not begin with [qmd://] is among them
    with its score and its snippet as they were. *)
Theorem rerank_keeps_hits (w : world) (hits : list QmdResult) (message agentId : jsstring)
    (out : list QmdResult) :
  rerankAndHydrateResults w hits message agentId = Ok out ->
  length out = length hits
  /\ map source out ≡ₚ map source hits
  /\ (forall hit, hit ∈ hits -> starts_with (js "qmd://") (source hit) = false ->
        hit ∈ out).
Proof.
  intros H. destruct (rerank_frame w hits message agentId out H) as (Hl & Hp & Hk).
  split; [exact Hl|]. split; [exact Hp|].
  intros hit Hin Hsrc. apply (Hk hit Hin).
  intros (u & a0 & a & E).
  rewrite (load_not_qmd w agentId (source hit) Hsrc) in E. discriminate.
Qed.

(** ** Warnings given once *)

(** The two exported functions, as a caller uses them over the life of
    the module. *)
Inductive call : Type :=
| Enrich (agentId message : jsstring) (settings : Settings) (sourceChannel : jsstring)
| Save (params : TurnParams).

Definition run_call (c : call) (s : env) : env :=
  match c with
  | Enrich agentId message settings sourceChannel =>
      after (enrichMessageWithMemory agentId message settings sourceChannel) s
  | Save params => after (saveTurnToMemory params) s
  end.

Definition run_calls (calls : list call) (s : env) : env :=
  foldl (fun s c => run_call c s) s calls.

(** How many of the logged lines are among [ws]. *)
Definition given (ws lines : list (jsstring * jsstring)) : nat :=
  length (List.filter (fun l => bool_decide (l ∈ ws)) lines).

(** The warnings the module gives once: that the backend was not found
    ([qmdUnavailableLogged]), and that semantic search fell back to lexical
    search ([qmdUnsafeFallbackLogged], two texts). *)
Inductive notice : Type := NotFound | UnsafeFallback.

Definition raised (n : notice) : state -> bool :=
  match n with
  | NotFound => qmdUnavailableLogged
  | UnsafeFallback => qmdUnsafeFallbackLogged
  end.

Definition texts (n : notice) : list (jsstring * jsstring) :=
  match n with
  | NotFound =>
      [(js "WARN", js "qmd not found in PATH, memory retrieval disabled")]
  | UnsafeFallback =>
      [(js "WARN", js "QMD vsearch requested without disable_query_expansion; fallback to BM25 for safety. Set memory.qmd.allow_unsafe_vsearch=true to override.");
       (js "WARN", js "QMD disable-query-expansion support not detected; fallback to BM25 to avoid unexpected model downloads. Run scripts/patch-qmd-no-expansion.sh or set memory.qmd.allow_unsafe_vsearch=true.")]
  end.

Lemma given_app ws a b : given ws (a ++ b) = (given ws a + given ws b)%nat.
Proof. unfold given. rewrite List.filter_app, length_app. reflexivity. Qed.

Section Once.

Variable flag : state -> bool.
Variable ws : list (jsstring * jsstring).

(** From [s] to [s'] lines were logged, at most one of them among [ws] and
    none if the flag was up; the flag stays up, and it is up when one was
    logged. *)
Definition once (s s' : env) : Prop :=
  exists added,
    log_lines (the_world s') = added ++ log_lines (the_world s)
    /\ (given ws added <= 1)%nat
    /\ (flag (the_state s) = true -> given ws added = 0%nat)
    /\ (flag (the_state s) = true \/ given ws added = 1%nat ->
        flag (the_state s') = true).

Lemma once_refl s : once s s.
Proof.
  exists []. cbn. repeat split; [lia|]. intros [H | H]; [exact H | discriminate].
Qed.

Lemma once_trans a b c : once a b -> once b c -> once a c.
Proof.
  intros (l1 & E1 & B1 & Z1 & F1) (l2 & E2 & B2 & Z2 & F2).
  exists (l2 ++ l1). rewrite E2, E1, app_assoc, given_app.
  split; [reflexivity|].
  destruct (flag (the_state a)) eqn:Fa.
  - specialize (Z1 eq_refl). specialize (F1 (or_introl eq_refl)).
    specialize (Z2 F1). specialize (F2 (or_introl F1)).
    repeat split; [lia | intros _; lia | intros _; exact F2].
  - destruct (given ws l1) as [|[|n]] eqn:G1; [| |lia].
    + repeat split; [lia | discriminate|].
      intros [H | H]; [discriminate|]. apply F2. right. lia.
    + specialize (F1 (or_intror eq_refl)). specialize (Z2 F1).
      repeat split; [lia | discriminate|]. intros _. apply F2. left. exact F1.
Qed.

(** A computation that logs nothing and leaves the flag. *)
Lemma once_silent {A} (m : M A) :
  (forall s, log_lines (the_world (after m s)) = log_lines (the_world s)
             /\ flag (the_state (after m s)) = flag (the_state s)) ->
  keeps once m.
Proof.
  intros H s. destruct (H s) as [El Ef]. exists []. rewrite El, Ef. cbn.
  repeat split; [lia|]. intros [K | K]; [exact K | discriminate].
Qed.

Lemma once_modify f : (forall st, flag (f st) = flag st) -> keeps once (modify f).
Proof. intros H. apply once_silent. intros [st w]. cbn. split; [reflexivity | apply H]. Qed.

(** Any other line may be logged. *)
Lemma once_log level msg : (level, msg) ∉ ws -> keeps once (log level msg).
Proof.
  intros H [st w]. exists [(level, msg)].
  unfold given. cbn [List.filter]. rewrite (bool_decide_eq_false_2 _ H). cbn [length].
  split; [destruct w; reflexivity|].
  repeat split; [lia|]. intros [K | K]; [|discriminate].
  destruct w; exact K.
Qed.

Lemma once_logQmdDebug agentId cfg stage details :
  (forall msg, (js "INFO", msg) ∉ ws) ->
  keeps once (logQmdDebug agentId cfg stage details).
Proof.
  intros H. unfold logQmdDebug.
  apply keeps_if; [apply keeps_ret, once_refl | apply once_log, H].
Qed.

Lemma once_date_now : keeps once date_now.
Proof.
  apply once_silent. intros s. unfold after. rewrite date_now_run.
  destruct s as [st [? ? [|] ? ? ? ? ?]]; split; reflexivity.
Qed.

Lemma once_runCommand command args timeoutMs env :
  keeps once (runCommand command args timeoutMs env).
Proof.
  apply once_silent. intros [st w]. unfold after, runCommand.
  cbn [the_world the_state].
  destruct (script w) as [|[code out err|msg|] later]; cbn [snd the_world];
    try destruct (bool_decide _); destruct w; split; reflexivity.
Qed.

Lemma once_ensureDir dir : keeps once (ensureDir dir).
Proof.
  apply once_silent. intros [st w]. unfold after, ensureDir, bind, asks, mkdirSync, ret.
  cbv beta iota delta [the_world the_state].
  destruct (existsSync w dir); cbn [negb snd]; [split; reflexivity|].
  destruct (writable w dir); cbn [snd]; [|split; reflexivity].
  destruct w; split; reflexivity.
Qed.

Lemma once_writeFileSync p content : keeps once (writeFileSync p content).
Proof.
  apply once_silent. intros [st w]. unfold after, writeFileSync.
  cbv beta iota delta [the_world the_state].
  destruct (files w !! p) as [[| |]|]; try destruct (writable w p); cbn [snd];
    destruct w; split; reflexivity.
Qed.

(** The guarded warning: logged when the flag is down, which it raises. *)
Lemma once_guarded level msg set :
  (forall st, flag (set st) = true) ->
  keeps once
    (bind (gets flag)
       (fun logged =>
          if negb logged
          then bind (log level msg) (fun _ => modify set)
          else ret tt)).
Proof.
  intros Hset [st w]. unfold after, bind, gets, log, modify, modify_world, ret.
  cbn [the_state the_world fst snd].
  destruct (flag st) eqn:F; cbn [negb snd].
  - apply once_refl.
  - exists [(level, msg)]. cbn [the_state the_world].
    split; [destruct w; reflexivity|].
    unfold given. cbn [List.filter]. rewrite F.
    destruct (bool_decide _); cbn [length];
      (split; [lia | split; [intros K; discriminate K | intros _; apply Hset]]).
Qed.

Lemma once_guarded_then {A} level msg set (k : M A) :
  (forall st, flag (set st) = true) ->
  keeps once k ->
  keeps once
    (bind (gets flag)
       (fun logged =>
          bind (if negb logged
                then bind (log level msg) (fun _ => modify set)
                else ret tt)
            (fun _ => k))).
Proof.
  intros Hset Hk s.
  pose proof (once_guarded level msg set Hset s) as H1.
  destruct s as [st w]. unfold after, bind, gets in *.
  cbn [the_state the_world fst snd] in *.
  destruct (flag st); cbn [negb] in *.
  - apply Hk.
  - unfold log, modify, modify_world, ret in *. cbn [fst snd the_state the_world] in *.
    eapply once_trans; [exact H1 | apply Hk].
Qed.

End Once.

(** A line that is none of the warnings. *)
Ltac other_line :=
  let H := fresh in
  intros H; cbv [texts] in H;
  repeat (apply elem_of_cons in H as [H | H]; [vm_compute in H; discriminate H|]);
  apply elem_of_nil in H; exact H.

Ltac once_step_at n :=
  first [ apply (once_guarded_then (raised n) (texts n)); [intros []; reflexivity|]
        | apply (once_guarded (raised n) (texts n)); [intros []; reflexivity]
        | apply (once_log (raised n) (texts n)); [other_line]
        | apply (once_modify (raised n) (texts n)); [intros []; reflexivity]
        | apply (once_logQmdDebug (raised n) (texts n)); [intros ?; other_line]
        | apply (once_date_now (raised n) (texts n))
        | apply (once_runCommand (raised n) (texts n))
        | apply (once_ensureDir (raised n) (texts n))
        | apply (once_writeFileSync (raised n) (texts n))
        | frame_step (once_refl (raised n) (texts n)) (once_trans (raised n) (texts n)) ].

Ltac once_step :=
  match goal with
  | |- keeps (once (raised ?n) (texts ?n)) _ => once_step_at n
  end.

Ltac once_bind :=
  match goal with
  | |- keeps (once (raised ?n) (texts ?n)) _ =>
      apply (keeps_bind _ (once_trans (raised n) (texts n))); [repeat once_step | intros ?]
  end.

Lemma once_probe_candidates n cs : keeps (once (raised n) (texts n)) (probe_candidates cs).
Proof.
  induction cs as [|c cs IH]; cbn [probe_candidates]; [destruct n; repeat once_step|].
  apply (keeps_bind _ (once_trans (raised n) (texts n))); [destruct n; repeat once_step|].
  intros []; [destruct n; repeat once_step | exact IH].
Qed.

Lemma once_quick_hit_loop n variants name cfg :
  keeps (once (raised n) (texts n)) (quick_hit_loop variants name cfg).
Proof.
  induction variants as [|q rest IH]; cbn [quick_hit_loop]; [destruct n; repeat once_step|].
  do 3 (apply (keeps_bind _ (once_trans (raised n) (texts n)));
        [destruct n; repeat once_step | intros ?]).
  match goal with |- keeps _ (match ?x with _ => _ end) => destruct x end;
    [exact IH | destruct n; repeat once_step].
Qed.

Lemma once_bm25_loop n variants lastQuery name cfg :
  keeps (once (raised n) (texts n)) (bm25_loop variants lastQuery name cfg).
Proof.
  revert lastQuery.
  induction variants as [|q rest IH]; intros lastQuery; cbn [bm25_loop];
    [destruct n; repeat once_step|].
  do 3 (apply (keeps_bind _ (once_trans (raised n) (texts n)));
        [destruct n; repeat once_step | intros ?]).
  match goal with |- keeps _ (match ?x with _ => _ end) => destruct x end;
    [apply IH | destruct n; repeat once_step].
Qed.

Lemma once_compose n agentId message label cfg found :
  keeps (once (raised n) (texts n)) (compose agentId message label cfg found).
Proof.
  unfold compose. destruct found as [|hit hits]; [destruct n; repeat once_step|].
  do 2 (apply (keeps_bind _ (once_trans (raised n) (texts n)));
        [destruct n; repeat once_step | intros ?]).
  match goal with |- keeps _ (match ?x with _ => _ end) => destruct x end;
    destruct n; repeat once_step.
Qed.

Lemma once_resolveRetrievalMode n cfg :
  keeps (once (raised n) (texts n)) (resolveRetrievalMode cfg).
Proof.
  unfold resolveRetrievalMode, isDisableExpansionSupported.
  destruct n; [unfold warn_once|fold (raised UnsafeFallback)]; repeat once_step.
Qed.

Lemma once_enrichMessageWithMemory n agentId message settings channel :
  keeps (once (raised n) (texts n))
    (enrichMessageWithMemory agentId message settings channel).
Proof.
  unfold enrichMessageWithMemory, enrich_body, retrieve, precheck_gate, run_query,
    quickHasLexicalHit, runBm25WithVariants, maybeUpdateCollection, ensureCollection,
    isQmdAvailable, debug_qmd, debug_collection, debug_update, debug_precheck,
    debug_query, debug_query_used.
  destruct n;
    repeat first [ apply once_probe_candidates | apply once_quick_hit_loop
                 | apply once_bm25_loop | apply once_compose
                 | apply once_resolveRetrievalMode | once_step ].
Qed.

Lemma once_saveTurnToMemory n params :
  keeps (once (raised n) (texts n)) (saveTurnToMemory params).
Proof.
  unfold saveTurnToMemory, save_turn_body.
  destruct n;
    (apply (keeps_try_catch _ (once_trans _ _)); [|intros ?; repeat once_step];
     apply (keeps_bind _ (once_trans _ _));
     [ destruct (p_timestampMs params) as [t|]; [destruct (truthy (VNum t))|];
       repeat once_step
     | intros ?; repeat once_step ]).
Qed.

Lemma once_run_calls n calls s : once (raised n) (texts n) s (run_calls calls s).
Proof.
  revert s. induction calls as [|c calls IH]; intros s; [apply once_refl|].
  cbn [run_calls foldl]. eapply once_trans; [|apply IH].
  destruct c; [apply once_enrichMessageWithMemory | apply once_saveTurnToMemory].
Qed.

(** X23.  Over any series of calls of the two exported functions, from any
    state, each one-time warning is logged at most once more, and not at
    all when its flag is already up: the warning that the backend was not
    found, and the warning that semantic search fell back to lexical search
    (its two texts share a flag, so at most one of them is given). *)
Theorem warnings_given_once (n : notice) (calls : list call) (s : env) :
  let s' := run_calls calls s in
  (given (texts n) (log_lines (the_world s'))
   <= given (texts n) (log_lines (the_world s))
      + (if raised n (the_state s) then 0 else 1))%nat
  /\ (raised n (the_state s) = true -> raised n (the_state s') = true).
Proof.
  cbv zeta. destruct (once_run_calls n calls s) as (added & E & B & Z & F).
  rewrite E, given_app. split.
  - destruct (raised n (the_state s)); [rewrite (Z eq_refl)|]; lia.
  - intros H. apply F. left. exact H.
Qed.

(** ** The source line (enrichMessageWithMemory) *)

(** The line that tells where the memory of an answer came from. *)
Definition source_line (agentId tail : jsstring) : jsstring * jsstring :=
  (js "INFO", js "Memory source for @" ++ agentId ++ js ": " ++ tail).

(** The latest line is the source line, and it says [none (...)] exactly
    when the message came back as it was. *)
Definition reported (agentId message r : jsstring) (s' : env) : Prop :=
  exists tail,
    head (log_lines (the_world s')) = Some (source_line agentId tail)
    /\ ((r = message /\ exists why, tail = js "none (" ++ why ++ js ")")
        \/ (r <> message /\ (tail = js "qmd-bm25" \/ tail = js "qmd-vsearch"))).

Lemma log_latest level msg s :
  head (log_lines (the_world (after (log level msg) s))) = Some (level, msg).
Proof. destruct s as [st []]. reflexivity. Qed.

Lemma reported_none agentId message why s :
  reported agentId message message
    (after (log (js "INFO") (js "Memory source for @" ++ agentId
                             ++ js ": none (" ++ why ++ js ")")) s).
Proof.
  exists (js "none (" ++ why ++ js ")"). rewrite log_latest. split; [reflexivity|].
  left. split; [reflexivity|]. exists why. reflexivity.
Qed.

Lemma compose_reports agentId message label cfg found s r s' :
  label = js "qmd-bm25" \/ label = js "qmd-vsearch" ->
  compose agentId message label cfg found s = (Ok r, s') ->
  reported agentId message r s'.
Proof.
  intros Hl. unfold compose. destruct found as [|hit hits].
  { rewrite (bind_ok _ _ _ _ _ (log_run _ _ _)). intros [= <- <-].
    change (js " no-hit)") with (js " no-hit" ++ js ")"). rewrite (app_assoc label).
    apply reported_none. }
  unfold bind at 1. unfold asks at 1. unfold bind at 1. unfold lift at 1.
  destruct (rerankAndHydrateResults _ _ _ _) as [ranked|e]; [|discriminate].
  destruct (formatMemoryPrompt ranked (maxChars cfg)) as [|c block] eqn:Eb.
  { rewrite (bind_ok _ _ _ _ _ (log_run _ _ _)). intros [= <- <-].
    change (js " no-usable-snippet)") with (js " no-usable-snippet" ++ js ")").
    rewrite (app_assoc label). apply reported_none. }
  rewrite (bind_ok _ _ _ _ _ (log_run _ _ _)).
  rewrite (bind_ok _ _ _ _ _ (log_run _ _ _)).
  intros [= <- <-]. exists label. rewrite log_latest. split; [reflexivity|].
  right. split; [|exact Hl].
  intros E. rewrite <- (app_nil_r message) in E at 2.
  apply app_inv_head in E. discriminate.
Qed.

Lemma retrieve_reports agentId message name cfg s r s' :
  retrieve agentId message name cfg s = (Ok r, s') ->
  reported agentId message r s'.
Proof.
  unfold retrieve.
  destruct (resolveRetrievalMode_run cfg s) as (s1 & E1).
  rewrite (bind_ok _ _ _ _ _ E1). cbv zeta. cbn [fst snd].
  rewrite (bind_ok _ _ _ _ _ (unit_run _ _ (safe_debug_query _ _ _ _))).
  unfold bind at 1. destruct (run_query _ message name cfg _) as [[qr|e] s2];
    [|discriminate].
  rewrite (bind_ok _ _ _ _ _ (unit_run _ _ (safe_debug_query_used _ _ _ _))).
  apply compose_reports.
  destruct (_ && _); [right | left]; reflexivity.
Qed.

(** When the precheck stops the retrieval it has said why. *)
Lemma precheck_gate_reports agentId message name cfg s s' :
  precheck_gate agentId message name cfg s = (Ok false, s') ->
  reported agentId message message s'.
Proof.
  unfold precheck_gate. destruct (quickPrecheckEnabled cfg); [|discriminate].
  unfold try_catch.
  rewrite (bind_ok _ _ _ _ _ (unit_run _ _ (safe_debug_precheck _ _ _))).
  unfold bind at 1.
  destruct (quickHasLexicalHit message name cfg _) as [[[]|e] s1]; cbn [negb].
  - discriminate.
  - rewrite (bind_ok _ _ _ _ _ (log_run _ _ _)). intros [= <-].
    apply (reported_none agentId message (js "qmd precheck no-hit")).
  - rewrite (bind_ok _ _ _ _ _ (log_run _ _ _)).
    rewrite (bind_ok _ _ _ _ _ (log_run _ _ _)). intros [= <-].
    apply (reported_none agentId message (js "qmd precheck error")).
Qed.

Lemma enrich_body_reports agentId message cfg s r s' :
  enrich_body agentId message cfg s = (Ok r, s') ->
  reported agentId message r s'.
Proof.
  unfold enrich_body.
  unfold bind at 1. destruct (ensureCollection agentId s) as [[name|e] s1];
    [|discriminate].
  rewrite (bind_ok _ _ _ _ _ (unit_run _ _ (safe_debug_collection _ _ _))).
  unfold bind at 1. destruct (maybeUpdateCollection name _ _) as [[[]|e] s2];
    [|discriminate].
  rewrite (bind_ok _ _ _ _ _ (unit_run _ _ (safe_debug_update _ _))).
  unfold bind at 1.
  destruct (precheck_gate agentId message name cfg _) as [[[]|e] s3] eqn:Eg;
    [| |discriminate]; cbn [negb].
  - apply retrieve_reports.
  - intros [= <- <-]. eapply precheck_gate_reports, Eg.
Qed.

(** X24.  With memory disabled, or on a channel that is not eligible,
    [enrichMessageWithMemory] does nothing at all: it returns the message
    and leaves the state and the world as they are.  Otherwise the last
    line it logs is the source line of the agent, [Memory source for @id:],
    at level [INFO]; the line reads [none (...)] when the message comes
    back as it was, and names the retrieval mode, [qmd-bm25] or
    [qmd-vsearch], when snippets were added. *)
Theorem enrich_reports_source (agentId message : jsstring) (settings : Settings)
    (channel : jsstring) (s : env) :
  let cfg := getQmdConfig settings in
  exists r s',
    enrichMessageWithMemory agentId message settings channel s = (Ok r, s')
    /\ (enabled cfg && shouldUseMemoryForChannel channel = false ->
        r = message /\ s' = s)
    /\ (enabled cfg && shouldUseMemoryForChannel channel = true ->
        exists tail,
          head (log_lines (the_world s'))
          = Some (js "INFO", js "Memory source for @" ++ agentId ++ js ": " ++ tail)
          /\ ((r = message /\ exists why, tail = js "none (" ++ why ++ js ")")
              \/ (r <> message
                  /\ (tail = js "qmd-bm25" \/ tail = js "qmd-vsearch")))).
Proof.
  cbv zeta. unfold enrichMessageWithMemory. set (cfg := getQmdConfig settings).
  destruct (enabled cfg); cbn [negb andb];
    [|eexists _, _; split; [reflexivity|]; split; [split; reflexivity | discriminate]].
  destruct (shouldUseMemoryForChannel channel); cbn [negb];
    [|eexists _, _; split; [reflexivity|]; split; [split; reflexivity | discriminate]].
  destruct (safe_isQmdAvailable (command cfg) s) as (b & s1 & E1).
  rewrite (bind_ok _ _ _ _ _ E1). destruct b; cbn [negb].
  - unfold bind at 1. unfold gets at 1.
    rewrite (bind_ok _ _ _ _ _ (unit_run _ _ (safe_debug_qmd _ _ _))).
    unfold try_catch.
    destruct (enrich_body agentId message cfg _) as [[r|e] s2] eqn:Eb.
    + exists r, s2. split; [reflexivity|]. split; [discriminate|]. intros _.
      eapply enrich_body_reports, Eb.
    + rewrite (bind_ok _ _ _ _ _ (log_run _ _ _)).
      rewrite (bind_ok _ _ _ _ _ (log_run _ _ _)).
      eexists _, _. split; [reflexivity|]. split; [discriminate|]. intros _.
      apply (reported_none agentId message (js "qmd error")).
  - unfold bind at 1. unfold gets at 1.
    assert (H : forall s0, reported agentId message message
                   (after (log (js "INFO") (js "Memory source for @" ++ agentId
                                            ++ js ": none (qmd unavailable)")) s0))
      by (intros s0; apply (reported_none agentId message (js "qmd unavailable"))).
    destruct (qmdUnavailableLogged _); cbn [negb].
    + unfold bind at 1. unfold ret at 1.
      rewrite (bind_ok _ _ _ _ _ (log_run _ _ _)).
      eexists _, _. split; [reflexivity|]. split; [discriminate|]. intros _. apply H.
    + unfold bind at 1. unfold bind at 1. rewrite log_run. unfold modify at 1.
      rewrite (bind_ok _ _ _ _ _ (log_run _ _ _)).
      eexists _, _. split; [reflexivity|]. split; [discriminate|]. intros _. apply H.
Qed.

(** ** The turns directory of an agent (getAgentTurnsDir) *)

Import Path.

(** A path segment with no separator in it. *)
Definition slash_free (seg : jsstring) : Prop := Forall (fun c => c <> 47) seg.

(** A segment that names an entry: not empty, not [.] and not [..]. *)
Definition names_entry (seg : jsstring) : Prop :=
  seg <> [] /\ seg <> [46] /\ seg <> dotdot /\ slash_free seg.

(** The segments [resolve] keeps, innermost first: names, above as many
    [..] as could not be resolved (none in an absolute path). *)
Definition resolved (allow_above_root : bool) (kept : list jsstring) : Prop :=
  exists names ups,
    kept = names ++ ups
    /\ Forall names_entry names
    /\ Forall (fun seg => seg = dotdot) ups
    /\ (allow_above_root = false -> ups = []).

Lemma split_slash_app cur a b :
  split_slash cur (a ++ 47 :: b) = split_slash cur a ++ split_slash [] b.
Proof.
  revert cur. induction a as [|c a IH]; intros cur; [reflexivity|].
  cbn [app split_slash]. destruct (c =? 47); [cbn [app]; f_equal|]; apply IH.
Qed.

Lemma split_slash_free cur seg :
  slash_free seg -> split_slash cur seg = [rev cur ++ seg].
Proof.
  intros H. revert cur. induction H as [|c seg Hc _ IH]; intros cur.
  - cbn. rewrite app_nil_r. reflexivity.
  - cbn [split_slash]. apply N.eqb_neq in Hc. rewrite Hc, IH. cbn [rev].
    rewrite <- app_assoc. reflexivity.
Qed.

Lemma split_slash_segments cur s :
  slash_free cur -> Forall slash_free (split_slash cur s).
Proof.
  revert cur. induction s as [|c s IH]; intros cur Hcur; cbn [split_slash].
  - constructor; [apply Forall_rev, Hcur | constructor].
  - destruct (N.eqb_spec c 47) as [-> | Hc].
    + constructor; [apply Forall_rev, Hcur | apply IH; constructor].
    + apply IH. constructor; assumption.
Qed.

Lemma join_cons2 sep p q rest :
  join sep (p :: q :: rest) = p ++ sep ++ join sep (q :: rest).
Proof. reflexivity. Qed.

Lemma join_snoc sep l x : l <> [] -> join sep (l ++ [x]) = join sep l ++ sep ++ x.
Proof.
  induction l as [|p l IH]; [congruence|]. intros _.
  destruct l as [|q l]; [reflexivity|].
  change ((p :: q :: l) ++ [x]) with (p :: q :: (l ++ [x])).
  rewrite !join_cons2. change (q :: l ++ [x]) with ((q :: l) ++ [x]).
  rewrite IH by discriminate. rewrite <- !app_assoc. reflexivity.
Qed.

Lemma split_slash_join segs :
  segs <> [] -> Forall slash_free segs -> split_slash [] (join [47] segs) = segs.
Proof.
  induction segs as [|p segs IH]; [congruence|]. intros _ H.
  inversion H as [|? ? Hp Hs]; subst.
  destruct segs as [|q segs]; [apply (split_slash_free [] p Hp)|].
  rewrite join_cons2. change ([47] ++ join [47] (q :: segs)) with (47 :: join [47] (q :: segs)).
  rewrite split_slash_app, (split_slash_free [] p Hp), IH by (discriminate || exact Hs).
  reflexivity.
Qed.

Lemma resolve_app allow l1 l2 kept :
  resolve allow kept (l1 ++ l2) = resolve allow (resolve allow kept l1) l2.
Proof.
  revert kept. induction l1 as [|seg l1 IH]; intros kept; [reflexivity|].
  cbn [app resolve].
  destruct (bool_decide (seg = []) || bool_decide (seg = [46])); [apply IH|].
  destruct (bool_decide (seg = dotdot)); [|apply IH].
  destruct kept as [|top below]; [apply IH|].
  destruct (bool_decide (top = dotdot)); apply IH.
Qed.

Lemma resolve_entry allow kept seg :
  names_entry seg -> resolve allow kept [seg] = seg :: kept.
Proof.
  intros (H1 & H2 & H3 & _). cbn [resolve].
  rewrite (bool_decide_eq_false_2 _ H1), (bool_decide_eq_false_2 _ H2),
    (bool_decide_eq_false_2 _ H3). reflexivity.
Qed.

Lemma resolve_entries allow kept names :
  Forall names_entry names -> resolve allow kept names = rev names ++ kept.
Proof.
  intros H. revert kept. induction H as [|seg names Hs _ IH]; intros kept; [reflexivity|].
  change (seg :: names) with ([seg] ++ names).
  rewrite resolve_app, (resolve_entry allow kept seg Hs), IH. cbn [rev app].
  rewrite <- app_assoc. reflexivity.
Qed.

Lemma resolve_ups kept ups :
  Forall (fun seg => seg = dotdot) ups -> Forall (fun seg => seg = dotdot) kept ->
  resolve true kept ups = rev ups ++ kept.
Proof.
  intros H. revert kept. induction H as [|seg ups -> _ IH]; intros kept Hk; [reflexivity|].
  cbn [resolve]. change (bool_decide (dotdot = [])) with false.
  change (bool_decide (dotdot = [46])) with false. cbn [orb].
  rewrite bool_decide_eq_true_2 by reflexivity.
  destruct kept as [|top below].
  - rewrite IH by (repeat constructor). cbn [rev]. rewrite <- app_assoc. reflexivity.
  - inversion Hk as [|? ? Ht Hb]; subst.
    rewrite bool_decide_eq_true_2 by reflexivity.
    rewrite IH by (constructor; [reflexivity | assumption]).
    cbn [rev]. rewrite <- app_assoc. reflexivity.
Qed.

(** What [resolve] has kept is resolved. *)
Lemma resolve_resolved allow segs kept :
  Forall slash_free segs -> resolved allow kept -> resolved allow (resolve allow kept segs).
Proof.
  intros H. revert kept. induction H as [|seg segs Hs _ IH]; intros kept Hk; [exact Hk|].
  cbn [resolve].
  destruct (bool_decide_reflect (seg = [])) as [E1 | E1]; cbn [orb]; [apply IH, Hk|].
  destruct (bool_decide_reflect (seg = [46])) as [E2 | E2]; [apply IH, Hk|].
  destruct (bool_decide_reflect (seg = dotdot)) as [E3 | E3].
  - destruct Hk as (names & ups & -> & Hn & Hu & Ha).
    destruct names as [|top names]; cbn [app].
    + destruct ups as [|top ups].
      * apply IH. destruct allow.
        -- exists [], [dotdot]. repeat split; [constructor | repeat constructor | discriminate].
        -- exists [], []. repeat split; constructor.
      * inversion Hu as [|? ? Ht Hu']; subst.
        rewrite bool_decide_eq_true_2 by reflexivity. apply IH.
        destruct allow.
        -- exists [], (dotdot :: dotdot :: ups).
           repeat split; [constructor | repeat constructor; assumption | discriminate].
        -- exists [], (dotdot :: ups). repeat split; [constructor | assumption | exact Ha].
    + inversion Hn as [|? ? Ht Hn']; subst.
      destruct Ht as (_ & _ & Ht & _). rewrite (bool_decide_eq_false_2 _ Ht).
      apply IH. exists names, ups. repeat split; assumption.
  - apply IH. destruct Hk as (names & ups & -> & Hn & Hu & Ha).
    exists (seg :: names), ups. repeat split; try assumption.
    constructor; [|exact Hn]. repeat split; assumption.
Qed.

(** Resolving what was kept gives it back. *)
Lemma resolve_again allow kept :
  resolved allow kept -> resolve allow [] (rev kept) = kept.
Proof.
  intros (names & ups & -> & Hn & Hu & Ha).
  rewrite rev_app_distr, resolve_app.
  assert (E : resolve allow [] (rev ups) = ups).
  { destruct allow; [|rewrite (Ha eq_refl); reflexivity].
    rewrite resolve_ups by (try apply Forall_rev; try constructor; assumption).
    rewrite rev_involutive, app_nil_r. reflexivity. }
  rewrite E, resolve_entries by (apply Forall_rev, Hn).
  rewrite rev_involutive. reflexivity.
Qed.

Lemma resolved_segments allow kept :
  resolved allow kept -> Forall (fun seg => seg <> [] /\ slash_free seg) kept.
Proof.
  intros (names & ups & -> & Hn & Hu & _). apply Forall_app. split.
  - eapply Forall_impl; [exact Hn|]. intros seg (H1 & _ & _ & H4). split; assumption.
  - eapply Forall_impl; [exact Hu|]. intros seg ->.
    split; [discriminate | repeat constructor; discriminate].
Qed.

Lemma join_nonempty sep l : l <> [] -> Forall (fun seg => seg <> []) l -> join sep l <> [].
Proof.
  destruct l as [|[|c p] l]; [congruence| |].
  - intros _ H. inversion H; congruence.
  - intros _ _. destruct l; discriminate.
Qed.

(** Whether a path ends in a separator. *)
Definition trailing (p : jsstring) : bool :=
  match rev p with c :: _ => c =? 47 | [] => false end.

Lemma trailing_segment x seg : seg <> [] -> slash_free seg -> trailing (x ++ seg) = false.
Proof.
  intros Hne Hs. unfold trailing. rewrite rev_app_distr.
  destruct (rev seg) as [|l r] eqn:E.
  - apply (f_equal (@rev N)) in E. rewrite rev_involutive in E. contradiction.
  - cbn [app]. apply N.eqb_neq.
    assert (Hl : l ∈ seg).
    { apply list_elem_of_In, in_rev. rewrite E. left. reflexivity. }
    unfold slash_free in Hs. rewrite Forall_forall in Hs. exact (Hs l Hl).
Qed.

Lemma trailing_name x name :
  name <> [] -> slash_free name -> trailing (x ++ 47 :: name) = false.
Proof.
  intros H1 H2. change (47 :: name) with ([47] ++ name). rewrite app_assoc.
  apply trailing_segment; assumption.
Qed.

(** How [normalize] computes, for a path that does not end in a
    separator and of which something is kept. *)
Lemma normalize_kept first rest kept :
  trailing (first :: rest) = false ->
  resolve (negb (first =? 47)) [] (split_slash [] (first :: rest)) = kept ->
  kept <> [] -> Forall (fun seg => seg <> []) kept ->
  normalize (first :: rest)
  = (if first =? 47 then [47] else []) ++ join [47] (rev kept).
Proof.
  intros Ht Hk Hne Hsegs. unfold normalize. fold (trailing (first :: rest)).
  rewrite Ht, Hk.
  destruct (join [47] (rev kept)) as [|b body] eqn:Eb.
  - exfalso. revert Eb. apply join_nonempty.
    + intros E. apply (f_equal (@rev jsstring)) in E. rewrite rev_involutive in E.
      contradiction.
    + apply Forall_rev, Hsegs.
  - rewrite app_nil_r. reflexivity.
Qed.

(** A normalized path that does not end in a separator: what [resolve]
    keeps of it, joined. *)
Definition normal_path (absolute : bool) (kept : list jsstring) (p : jsstring) : Prop :=
  resolved (negb absolute) kept /\ kept <> []
  /\ p = (if absolute then [47] else []) ++ join [47] (rev kept).

Lemma rev_nonempty {A} (l : list A) : l <> [] -> rev l <> [].
Proof.
  intros H E. apply (f_equal (@rev A)) in E. rewrite rev_involutive in E. contradiction.
Qed.

Lemma normal_path_head absolute kept p :
  normal_path absolute kept p -> exists c r, p = c :: r /\ (c =? 47) = absolute.
Proof.
  intros (Hr & Hne & ->). destruct absolute; [eexists _, _; split; reflexivity|].
  cbn [app]. pose proof (resolved_segments _ _ Hr) as Hs. apply Forall_rev in Hs.
  destruct (rev kept) as [|seg segs] eqn:E; [exfalso; revert E; apply rev_nonempty, Hne|].
  inversion Hs as [|? ? [Hseg Hfree] _]; subst.
  destruct seg as [|c r]; [contradiction|].
  inversion Hfree as [|? ? Hc _]; subst.
  exists c. destruct segs; eexists; (split; [reflexivity | apply N.eqb_neq, Hc]).
Qed.

Lemma normal_path_split absolute kept p :
  normal_path absolute kept p ->
  split_slash [] p = (if absolute then [[]] else []) ++ rev kept.
Proof.
  intros (Hr & Hne & ->).
  assert (E : split_slash [] (join [47] (rev kept)) = rev kept).
  { apply split_slash_join; [apply rev_nonempty, Hne|].
    apply Forall_rev. eapply Forall_impl; [apply (resolved_segments _ _ Hr)|].
    intros seg [_ H]. exact H. }
  destruct absolute; [|exact E].
  change ([47] ++ join [47] (rev kept)) with ([] ++ 47 :: join [47] (rev kept)).
  rewrite split_slash_app, E. reflexivity.
Qed.

Lemma normal_path_trailing absolute kept p :
  normal_path absolute kept p -> trailing p = false.
Proof.
  intros (Hr & Hne & ->). pose proof (resolved_segments _ _ Hr) as Hs.
  destruct kept as [|top below]; [contradiction|].
  inversion Hs as [|? ? [Htop Hfree] _]; subst. cbn [rev].
  destruct (rev below) as [|seg segs] eqn:E.
  - cbn [app join]. apply trailing_segment; assumption.
  - rewrite join_snoc by discriminate. rewrite !app_assoc.
    apply trailing_segment; assumption.
Qed.

(** A normalized path is left as it is. *)
Lemma normalize_normal absolute kept p :
  normal_path absolute kept p -> normalize p = p.
Proof.
  intros H. pose proof H as (Hr & Hne & E).
  destruct (normal_path_head _ _ _ H) as (c & r & -> & Hc).
  rewrite (normalize_kept c r kept).
  - rewrite Hc. symmetry. exact E.
  - exact (normal_path_trailing _ _ _ H).
  - rewrite Hc, (normal_path_split _ _ _ H), resolve_app.
    destruct absolute; cbn [resolve]; apply resolve_again, Hr.
  - exact Hne.
  - eapply Forall_impl; [apply (resolved_segments _ _ Hr)|]. intros seg [K _]. exact K.
Qed.

(** An entry of a normalized path: the path, a separator and the name. *)
Lemma normalize_child absolute kept p name :
  normal_path absolute kept p -> names_entry name ->
  normalize (p ++ 47 :: name) = p ++ 47 :: name
  /\ normal_path absolute (name :: kept) (p ++ 47 :: name).
Proof.
  intros H Hname. pose proof H as (Hr & Hne & E).
  pose proof Hname as (N1 & N2 & N3 & N4).
  assert (Hkept : resolved (negb absolute) (name :: kept)).
  { destruct Hr as (names & ups & -> & Hn & Hu & Ha).
    exists (name :: names), ups. repeat split; try assumption. constructor; assumption. }
  assert (Ep : p ++ 47 :: name
               = (if absolute then [47] else []) ++ join [47] (rev (name :: kept))).
  { cbn [rev]. rewrite join_snoc by (apply rev_nonempty, Hne).
    rewrite E, <- !app_assoc. reflexivity. }
  split; [|split; [exact Hkept | split; [discriminate | exact Ep]]].
  destruct (normal_path_head _ _ _ H) as (c & r & Ecr & Hc).
  rewrite Ecr. cbn [app]. rewrite (normalize_kept c (r ++ 47 :: name) (name :: kept)).
  - rewrite Hc. rewrite Ecr in Ep. cbn [app] in Ep. symmetry. exact Ep.
  - apply (trailing_name (c :: r)); assumption.
  - change (c :: r ++ 47 :: name) with ((c :: r) ++ 47 :: name).
    rewrite <- Ecr, Hc, split_slash_app, (normal_path_split _ _ _ H).
    rewrite (split_slash_free [] name N4). cbn [rev app].
    rewrite !resolve_app, (resolve_entry _ _ name Hname). f_equal.
    destruct absolute; cbn [resolve]; apply resolve_again, Hr.
  - discriminate.
  - eapply Forall_impl; [apply (resolved_segments _ _ Hkept)|]. intros seg [K _]. exact K.
Qed.

(** Joining any path and a name gives a normalized path. *)
Lemma path_join_name p name :
  names_entry name -> exists absolute kept, normal_path absolute kept (path_join [p; name]).
Proof.
  intros Hname. pose proof Hname as (N1 & N2 & N3 & N4).
  destruct name as [|n ame]; [contradiction|].
  assert (Hn : (n =? 47) = false) by (apply N.eqb_neq; inversion N4; assumption).
  assert (Hpush : forall allow kept,
             resolved allow kept -> resolved allow ((n :: ame) :: kept)).
  { intros allow kept (names & ups & -> & Hn' & Hu & Ha).
    exists ((n :: ame) :: names), ups. repeat split; try assumption.
    constructor; assumption. }
  assert (Hnil : forall allow, resolved allow []).
  { intros allow. exists [], []. repeat split; constructor. }
  destruct p as [|c r].
  - (* the empty part is dropped *)
    change (path_join [[]; n :: ame]) with (normalize (n :: ame)).
    exists false, [n :: ame]. split; [apply Hpush, Hnil|]. split; [discriminate|].
    rewrite (normalize_kept n ame [n :: ame]).
    + rewrite Hn. reflexivity.
    + apply (trailing_segment [] (n :: ame)); assumption.
    + rewrite (split_slash_free [] (n :: ame) N4). apply resolve_entry, Hname.
    + discriminate.
    + repeat constructor. exact N1.
  - change (path_join [c :: r; n :: ame]) with (normalize ((c :: r) ++ 47 :: n :: ame)).
    set (kept := resolve (negb (c =? 47)) [] (split_slash [] (c :: r))).
    assert (Hk : resolved (negb (c =? 47)) kept).
    { apply resolve_resolved; [apply split_slash_segments; constructor | apply Hnil]. }
    exists (c =? 47), ((n :: ame) :: kept). split; [apply Hpush, Hk|].
    split; [discriminate|].
    cbn [app]. apply normalize_kept.
    + apply (trailing_name (c :: r)); assumption.
    + change (c :: r ++ 47 :: n :: ame) with ((c :: r) ++ 47 :: n :: ame).
      rewrite split_slash_app, (split_slash_free [] (n :: ame) N4). cbn [rev app].
      rewrite resolve_app. apply resolve_entry, Hname.
    + discriminate.
    + eapply Forall_impl; [apply (resolved_segments _ _ (Hpush _ _ Hk))|].
      intros seg [K _]. exact K.
Qed.

Lemma id_names_entry seg :
  seg <> [] -> Forall (fun c => is_id_char c = true) seg -> names_entry seg.
Proof.
  intros Hne H. split; [exact Hne|]. split; [|split].
  - intros ->. inversion H as [|? ? Hc _]. discriminate Hc.
  - intros ->. inversion H as [|? ? Hc _]. discriminate Hc.
  - eapply Forall_impl; [exact H|]. intros c Hc ->. discriminate Hc.
Qed.

Lemma sanitizeId_nonempty raw : raw <> [] -> sanitizeId raw <> [].
Proof.
  rewrite sanitizeId_scan. destruct raw as [|c r]; [congruence|]. intros _.
  unfold toLowerCase. cbn [flat_map].
  assert (H : exists d t, lower_unit c = d :: t).
  { unfold lower_unit. repeat destruct (_ : bool); eexists _, _; reflexivity. }
  destruct H as (d & t & ->). cbn [app flat_map].
  destruct (is_id_char d); discriminate.
Qed.

Lemma path_join_child absolute kept p name :
  normal_path absolute kept p -> names_entry name ->
  path_join [p; name] = p ++ 47 :: name
  /\ normal_path absolute (name :: kept) (p ++ 47 :: name).
Proof.
  intros H Hname. destruct (normalize_child _ _ _ _ H Hname) as [E Hn].
  split; [|exact Hn]. rewrite <- E.
  destruct (normal_path_head _ _ _ H) as (c & r & -> & _).
  destruct Hname as (N1 & _). destruct name as [|n ame]; [contradiction|]. reflexivity.
Qed.

(** X25.  The turns directory of an agent is an entry of the turns
    directory, which is the entry [turns] of the memory root: the root, a
    separator, [turns], a separator and the sanitized id.  So no agent id
    leads outside the turns directory, whatever characters it holds.  For
    the empty id it is the turns directory itself. *)
Theorem turns_dir_is_child (w : world) (agentId : jsstring) :
  MEMORY_TURNS_DIR w = MEMORY_ROOT w ++ js "/turns"
  /\ (agentId <> [] ->
      getAgentTurnsDir w agentId = MEMORY_TURNS_DIR w ++ js "/" ++ sanitizeId agentId)
  /\ getAgentTurnsDir w [] = MEMORY_TURNS_DIR w.
Proof.
  assert (Hm : names_entry (js "memory"))
    by (apply id_names_entry; [discriminate | vm_compute; repeat constructor]).
  assert (Ht : names_entry (js "turns"))
    by (apply id_names_entry; [discriminate | vm_compute; repeat constructor]).
  destruct (path_join_name (tinyclaw_home w) (js "memory") Hm) as (absolute & kept & Hroot).
  fold (MEMORY_ROOT w) in Hroot.
  destruct (path_join_child _ _ _ _ Hroot Ht) as [Eturns Hturns].
  fold (MEMORY_TURNS_DIR w) in Eturns. rewrite <- Eturns in Hturns.
  split; [exact Eturns|]. split.
  - intros Hid.
    assert (Hname : names_entry (sanitizeId agentId))
      by (apply id_names_entry; [apply sanitizeId_nonempty, Hid | apply sanitizeId_chars]).
    destruct (path_join_child _ _ _ _ Hturns Hname) as [E _]. exact E.
  - unfold getAgentTurnsDir. rewrite <- (normalize_normal _ _ _ Hturns) at 2.
    destruct (normal_path_head _ _ _ Hturns) as (c & r & -> & _). reflexivity.
Qed.

(** * The further theorems at concrete inputs *)

(** The output of a search with one row, [[{"snippet":"the code"}]]. *)
Definition demo_rows : jsstring :=
  js "[{" ++ [34] ++ js "snippet" ++ [34] ++ js ":" ++ [34] ++ js "the code"
  ++ [34] ++ js "}]".

(** The turn of the round trip above. *)
Definition demo_turn : TurnParams :=
  MkTurn (js "bot") (js "Bot") (js "telegram") (js "me") (js "m1")
    (js "what is the code?") (js "The key is ABC-123-XYZ")
    (Some 1700000000123%float).

(** A world in which the memory root and the turns directory of [bot]
    exist and the next process fails. *)
Definition demo_prepared_world (stderr : jsstring) : world :=
  MkWorld [Closed (Some 1%Z) [] stderr] [] []
    (<[js "/home/u/.tinyclaw/memory" := Directory]>
       (<[js "/home/u/.tinyclaw/memory/turns/bot" := Directory]> ∅))
    (fun _ => true) (js "/home/u") (js "/home/u/.tinyclaw") [].

(** The one row of [demo_rows] carries its text. *)
Lemma parse_results_carry_text_witness :
  let r := MkResult 0 (js "the code") [] in
  snippet r <> [] /\ trim (snippet r) = snippet r /\ trim (source r) = source r.
Proof.
  cbv zeta.
  apply (parse_results_carry_text demo_rows [MkResult 0 (js "the code") []]).
  - vm_compute. reflexivity.
  - apply list_elem_of_singleton. reflexivity.
Defined.

(** A message with three variants: the search for the first finds
    nothing, the search for the second finds the row of [demo_rows] and is
    the one reported, and the third variant is not searched. *)
Lemma bm25_reports_query_witness :
  let message := js "what is the code?" in
  let name := js "tinyclaw-bot" in
  let cfg := getQmdConfig demo_settings in
  let s := Env initial_state
             (demo_world [Closed (Some 0%Z) (js "[]") [];
                          Closed (Some 0%Z) demo_rows []] []) in
  let s1 := snd (runBm25WithVariants message name cfg s) in
  let found := [MkResult 0 (js "the code") []] in
  let reported := js "what is the code" in
  buildLexicalQueryVariants message = [message; reported; js "is the code"]
  /\ exists tried missed,
       length missed = length tried
       /\ Forall (fun o => found_by o = Some []) missed
       /\ exists rest o,
            buildLexicalQueryVariants message = tried ++ reported :: rest
            /\ found_by o = Some found
            /\ script (the_world s) = missed ++ o :: script (the_world s1)
            /\ spawned (the_world s1)
               = bm25_call (the_state s) reported name cfg
                 :: rev (map (fun q => bm25_call (the_state s) q name cfg) tried)
                 ++ spawned (the_world s).
Proof.
  cbv zeta. split; [vm_compute; reflexivity|].
  destruct (bm25_reports_query (js "what is the code?") (js "tinyclaw-bot")
              (getQmdConfig demo_settings)
              (Env initial_state
                 (demo_world [Closed (Some 0%Z) (js "[]") [];
                              Closed (Some 0%Z) demo_rows []] []))
              (snd (runBm25WithVariants (js "what is the code?") (js "tinyclaw-bot")
                      (getQmdConfig demo_settings)
                      (Env initial_state
                         (demo_world [Closed (Some 0%Z) (js "[]") [];
                                      Closed (Some 0%Z) demo_rows []] []))))
              (MkQueryResult [MkResult 0 (js "the code") []] (js "what is the code")))
    as ((tried & missed & Hl & Hm & Hr) & _).
  - vm_compute. reflexivity.
  - exists tried, missed. split; [exact Hl|]. split; [exact Hm | exact Hr].
Defined.

(** The bundled backend fails its probe and the one of the search path
    answers: the latter is kept. *)
Lemma probe_prefers_bundled_witness :
  let s := Env initial_state
             (demo_world [Closed (Some 1%Z) [] []; Closed (Some 0%Z) [] []] []) in
  fst (isQmdAvailable None s) = Ok true
  /\ qmdCommandPath (the_state (snd (isQmdAvailable None s))) = Some (js "qmd").
Proof.
  cbv zeta.
  destruct (probe_prefers_bundled
              (Env initial_state
                 (demo_world [Closed (Some 1%Z) [] []; Closed (Some 0%Z) [] []] []))
              (Closed (Some 1%Z) [] []) [Closed (Some 0%Z) [] []]
              eq_refl eq_refl) as [_ H].
  destruct (H eq_refl (Closed (Some 0%Z) [] []) [] eq_refl) as (_ & _ & H1 & _).
  apply H1. reflexivity.
Defined.

(** The [add] command fails because the collection is there already: it
    counts as prepared. *)
Lemma collection_add_failure_witness :
  let s := Env initial_state (demo_prepared_world (js "collection already exists")) in
  fst (ensureCollection (js "bot") s) = Ok (js "tinyclaw-bot")
  /\ js "tinyclaw-bot" ∈ collectionPrepared (the_state (snd (ensureCollection (js "bot") s))).
Proof.
  cbv zeta.
  apply (collection_add_failure (js "bot")
           (Env initial_state (demo_prepared_world (js "collection already exists")))
           (Err PlainError (js "collection already exists"))).
  - vm_compute. reflexivity.
  - vm_compute. reflexivity.
  - vm_compute. discriminate.
  - vm_compute. reflexivity.
Defined.

(** The turn of the round trip, saved in an empty world, is found under
    its source in the collection of [bot]. *)
Lemma saved_turn_is_found_witness :
  let s1 := snd (saveTurnToMemory demo_turn (Env initial_state (demo_world [] []))) in
  exists stamp iso,
    timestampFilename 1700000000123 = Ok stamp
    /\ Date.toISOString 1700000000123 = Ok iso
    /\ loadTurnSectionsFromSource (the_world s1)
         (js "qmd://" ++ js "tinyclaw-bot" ++ js "/"
          ++ (stamp ++ js "-" ++ js "m1" ++ js ".md"))
         (js "bot")
       = Ok (Some (parseTurnSections
                     (toWellFormed (join newline (turn_lines demo_turn iso)))))
    /\ (markers_in_place demo_turn iso = true ->
        parseTurnSections (toWellFormed (join newline (turn_lines demo_turn iso)))
        = MkSections (trim (toWellFormed (truncate (js "what is the code?"))))
            (trim (toWellFormed (truncate (js "The key is ABC-123-XYZ"))))).
Proof.
  cbv zeta.
  apply (saved_turn_is_found demo_turn (Env initial_state (demo_world [] []))
           (js "tinyclaw-bot")).
  - vm_compute. reflexivity.
  - vm_compute. discriminate.
  - intros c Hc. apply list_elem_of_In in Hc. vm_compute in Hc.
    repeat (destruct Hc as [<- | Hc]; [discriminate|]). contradiction.
  - intros c Hc. apply list_elem_of_In in Hc. vm_compute in Hc.
    repeat (destruct Hc as [<- | Hc]; [split; [reflexivity | discriminate]|]).
    contradiction.
Defined.

(** Two hits given in rising order of score come back in falling order. *)
Lemma rerank_sorted_witness :
  let hit := MkResult 0.75 (js "the code") (js "b.md") in
  let next := MkResult 0.25 (js "alpha") (js "a.md") in
  PrimFloat.ltb 0 (score next - score hit) = false.
Proof.
  cbv zeta.
  apply (rerank_sorted (demo_world [] [])
           [MkResult 0.25 (js "alpha") (js "a.md"); MkResult 0.75 (js "the code") (js "b.md")]
           (js "what is the code?") (js "bot")
           [MkResult 0.75 (js "the code") (js "b.md"); MkResult 0.25 (js "alpha") (js "a.md")]
           [] []).
  - vm_compute. reflexivity.
  - intros r Hr. apply list_elem_of_In in Hr.
    repeat (destruct Hr as [<- | Hr]; [reflexivity|]). contradiction.
  - reflexivity.
Defined.

(** The saved turn of the round trip, found by a search: its snippet is
    the hydrated one. *)
Lemma rerank_snippets_witness :
  let w := the_world (snd (saveTurnToMemory demo_turn (Env initial_state (demo_world [] [])))) in
  let src := js "qmd://tinyclaw-bot/2023-11-14T22-13-20-123Z-m1.md" in
  let r := MkResult 1.3600000000000001
             (js "User: what is the code?" ++ newline
              ++ js "Assistant: The key is ABC-123-XYZ") src in
  exists hit,
    hit ∈ [MkResult 0.5 (js "x") src]
    /\ source r = source hit
    /\ (snippet r = snippet hit
        \/ ((exists u a,
               snippet r = js "User: " ++ u ++ newline ++ js "Assistant: " ++ a
               /\ (length u <= 183)%nat /\ (length a <= 263)%nat
               /\ a <> []
               /\ (forall c, c ∈ u ++ a -> is_space c = true -> c = 32))
            /\ (length (snippet r) <= 464)%nat)).
Proof.
  cbv zeta.
  apply (rerank_snippets
           (the_world (snd (saveTurnToMemory demo_turn (Env initial_state (demo_world [] [])))))
           [MkResult 0.5 (js "x") (js "qmd://tinyclaw-bot/2023-11-14T22-13-20-123Z-m1.md")]
           (js "what is the code?") (js "bot")
           [MkResult 1.3600000000000001
              (js "User: what is the code?" ++ newline
               ++ js "Assistant: The key is ABC-123-XYZ")
              (js "qmd://tinyclaw-bot/2023-11-14T22-13-20-123Z-m1.md")]).
  - vm_compute. reflexivity.
  - apply list_elem_of_singleton. reflexivity.
Defined.

(** Two hits that are no turn files come back as they were. *)
Lemma rerank_keeps_hits_witness :
  let low := MkResult 0.25 (js "alpha") (js "a.md") in
  let high := MkResult 0.75 (js "the code") (js "b.md") in
  length [high; low] = length [low; high]
  /\ map source [high; low] ≡ₚ map source [low; high]
  /\ (forall hit, hit ∈ [low; high] -> starts_with (js "qmd://") (source hit) = false ->
        hit ∈ [high; low]).
Proof.
  cbv zeta.
  apply (rerank_keeps_hits (demo_world [] [])
           [MkResult 0.25 (js "alpha") (js "a.md"); MkResult 0.75 (js "the code") (js "b.md")]
           (js "what is the code?") (js "bot")).
  vm_compute. reflexivity.
Defined.
